(** * bobbot: a search-tree engine for turn-based games

    A shallow embedding of [bobbot/games/tictactoe.py] (the tic-tac-toe
    game adapter) and of [bobbot/search_tree.py] (the transposition table,
    the expansion strategies and controls, and the reachability pruning),
    together with the properties the specification states about them.

    Python exceptions are values of [exn]; a pure function that may raise
    returns a [result]; a method that mutates the engine and may raise is
    a state transformer that returns the state reached when the exception
    left the method. *)

From Stdlib Require Import ZArith QArith List String Lia.
From stdpp Require Import base option list gmap sets strings.

Local Open Scope Z_scope.

(** ** Exceptions and results *)

Inductive exn : Set :=
| KeyError
| ValueError
| AssertionError
| InvalidStateError
| IllegalMoveError
| NotImplementedError.

Inductive result (A : Type) : Type :=
| Ok (a : A)
| Raise (e : exn).
Arguments Ok {A} a.
Arguments Raise {A} e.

Definition bind {A B} (r : result A) (f : A → result B) : result B :=
  match r with Ok a => f a | Raise e => Raise e end.

Notation "x <- r ;; k" := (bind r (λ x, k))
  (at level 20, r at level 99, k at level 200, only parsing).

#[global] Instance result_ret : MRet result := λ A, Ok.
#[global] Instance result_bind : MBind result := λ A B f r, bind r f.
#[global] Instance result_fmap : FMap result := λ A B f r,
  match r with Ok a => Ok (f a) | Raise e => Raise e end.

(** Python's [all] and [any] over an already evaluated list of booleans. *)
Definition py_all (l : list bool) : bool := forallb id l.
Definition py_any (l : list bool) : bool := existsb id l.

(** ** The tic-tac-toe adapter, [bobbot/games/tictactoe.py] *)

Module TicTacToe.

Inductive player : Set := PLAYER_X | PLAYER_O.

#[global] Instance player_eq_dec : EqDecision player.
Proof. solve_decision. Defined.

(** A field of the board holds [None], [PLAYER_X] or [PLAYER_O]; the board
    is a dict from coordinate pairs to fields. *)
Record GameState : Type := mkGameState {
  board : gmap (Z * Z) (option player);
  active_player : option player
}.

Definition player_symbol (state : option player) : string :=
  match state with
  | Some PLAYER_X => "X"
  | Some PLAYER_O => "O"
  | None => " "
  end.

Definition range3 : list Z := [0; 1; 2].

(** [[(x,y) for x in range(3) for y in range(3)]] *)
Definition all_coords : list (Z * Z) :=
  x ← range3; y ← range3; [(x, y)].

(** [board[coord]]: a missing key raises [KeyError]. *)
Definition getitem (b : gmap (Z * Z) (option player)) (coord : Z * Z)
  : result (option player) :=
  match b !! coord with
  | Some field => Ok field
  | None => Raise KeyError
  end.

Definition starting_state : GameState :=
  mkGameState (list_to_map ((λ c, (c, None)) <$> all_coords)) (Some PLAYER_X).

(** [game_state.board[coord] == player] *)
Definition owned_by (game_state : GameState) (p : player) (coord : Z * Z)
  : result bool :=
  field <- getitem (board game_state) coord;;
  mret (bool_decide (field = Some p)).

Definition is_winner (game_state : GameState) (p : player) : result bool :=
  row <- py_any <$>
    mapM (λ b_row,
            py_all <$> mapM (λ b_column, owned_by game_state p (b_column, b_row))
                            range3)
         range3;;
  column <- py_any <$>
    mapM (λ b_column,
            py_all <$> mapM (λ b_row, owned_by game_state p (b_column, b_row))
                            range3)
         range3;;
  diagonal_a <- py_all <$> mapM (λ b, owned_by game_state p (b, b)) range3;;
  diagonal_b <- py_all <$> mapM (λ b, owned_by game_state p (b, 2 - b)) range3;;
  mret (py_any [row; column; diagonal_a; diagonal_b]).

Definition is_finished (game_state : GameState) : result bool :=
  won_x <- is_winner game_state PLAYER_X;;
  player_won <- (if won_x then Ok true else is_winner game_state PLAYER_O);;
  let board_full :=
    py_all ((λ field, bool_decide (field ≠ None)) <$>
              (map_to_list (board game_state)).*2) in
  mret (player_won || board_full).

Definition winner (game_state : GameState) : result (option player) :=
  won_x <- is_winner game_state PLAYER_X;;
  if won_x then mret (Some PLAYER_X)
  else
    won_o <- is_winner game_state PLAYER_O;;
    if won_o then mret (Some PLAYER_O)
    else
      finished <- is_finished game_state;;
      if negb finished then Raise ValueError else mret None.

Definition is_legal_move (game_state : GameState) (coord : Z * Z)
  : result bool :=
  if negb ((0 <=? coord.1) && (coord.1 <=? 2) &&
           (0 <=? coord.2) && (coord.2 <=? 2))
  then Raise AssertionError
  else
    finished <- is_finished game_state;;
    if finished then mret false
    else
      field <- getitem (board game_state) coord;;
      mret (bool_decide (field = None)).

Definition make_move (game_state : GameState) (coord : Z * Z)
  : result GameState :=
  legal <- is_legal_move game_state coord;;
  if negb legal then Raise ValueError
  else
    let successor_board :=
      <[coord := active_player game_state]> (board game_state) in
    let tentative_successor_game_state := mkGameState successor_board None in
    finished <- is_finished tentative_successor_game_state;;
    let successor_active_player :=
      if finished then None
      else if bool_decide (active_player game_state = Some PLAYER_X)
           then Some PLAYER_O
           else Some PLAYER_X in
    mret (mkGameState successor_board successor_active_player).

Fixpoint filterM {A} (f : A → result bool) (l : list A) : result (list A) :=
  match l with
  | [] => mret []
  | x :: l' =>
      keep <- f x;;
      rest <- filterM f l';;
      mret (if keep then x :: rest else rest)
  end.

Definition all_legal_moves (game_state : GameState) : result (list (Z * Z)) :=
  filterM (is_legal_move game_state) all_coords.

(** The values of the evaluation dict: [0], [1], [-1] and [-0.5], all of
    them exact in binary floating point, as rationals. *)
Definition evaluate (game_state : GameState) : result (player → Q) :=
  finished <- is_finished game_state;;
  if negb finished then
    mret (λ p, match p with PLAYER_X => 0%Q | PLAYER_O => 0%Q end)
  else
    won_x <- is_winner game_state PLAYER_X;;
    if won_x then
      mret (λ p, match p with PLAYER_X => 1%Q | PLAYER_O => (-1)%Q end)
    else
      won_o <- is_winner game_state PLAYER_O;;
      if won_o then
        mret (λ p, match p with PLAYER_X => (-1)%Q | PLAYER_O => 1%Q end)
      else
        mret (λ p, match p with
                   | PLAYER_X => (-1 # 2)%Q
                   | PLAYER_O => (-1 # 2)%Q
                   end).

Definition node_key (game_state : GameState) : result string :=
  symbols <- mapM (λ c, player_symbol <$> getitem (board game_state) c)
                 all_coords;;
  mret (String.concat "" symbols).

(** [textual_repr]: the picture of the board, a row of the picture for
    each [y], and a line that names the player to move or the winner. *)
Definition textual_repr (game_state : GameState) : result string :=
  let b := board game_state in
  finished <- is_finished game_state;;
  m <- (if negb finished
        then Ok ("Move: " +:+ player_symbol (active_player game_state))
        else w <- winner game_state;; Ok ("Winner: " +:+ player_symbol w));;
  f00 <- getitem b (0, 0);;
  f10 <- getitem b (1, 0);;
  f20 <- getitem b (2, 0);;
  f01 <- getitem b (0, 1);;
  f11 <- getitem b (1, 1);;
  f21 <- getitem b (2, 1);;
  f02 <- getitem b (0, 2);;
  f12 <- getitem b (1, 2);;
  f22 <- getitem b (2, 2);;
  Ok (" " +:+ player_symbol f00 +:+ " | " +:+ player_symbol f10 +:+ " | " +:+
      player_symbol f20 +:+ "
---+---+---
 " +:+ player_symbol f01 +:+ " | " +:+ player_symbol f11 +:+ " | " +:+
      player_symbol f21 +:+ "
---+---+---
 " +:+ player_symbol f02 +:+ " | " +:+ player_symbol f12 +:+ " | " +:+
      player_symbol f22 +:+ "
" +:+ m).

End TicTacToe.

(** ** The search-tree engine, [bobbot/search_tree.py] *)

(** The capability set the engine consumes from a game: the methods a
    [TicTacToeAdapter] overrides. *)
Class GameAdapter (State Move Key : Type) : Type := {
  adapter_is_finished : State → result bool;
  adapter_all_legal_moves : State → result (list Move);
  adapter_make_move : State → Move → result State;
  adapter_node_key : State → result Key
}.

(** Python leaves the order in which a [set] is iterated and the element
    that [set.pop()] removes unspecified; the engine is modelled for every
    such choice.  [dict_iter] is the order of [dict.values()]. *)
Class IterationOrder (Key : Type) `{Countable Key} : Type := {
  set_pop : gset Key → option Key;
  set_iter : gset Key → list Key;
  dict_iter : ∀ {V : Type}, gmap Key V → list Key
}.

Section Engine.
Context {State Move Key Score : Type}.
Context `{Countable Move, Countable Key}.
Context `{!GameAdapter State Move Key}.
Context `{!IterationOrder Key}.

(** Modelled from the spec: the module [bobbot/search_node.py], which
    defines [SearchNode], is missing from the source.  A node wraps one
    game state and owns its expansion status, its successor map (move to
    node key) and its score; nodes refer to each other by key, and the
    table is the single owner of every resident node. *)
Record SearchNode : Type := mkSearchNode {
  state : State;
  is_expanded : bool;
  successors : gmap Move Key;
  score : Score
}.

(** Modelled from the spec: the scoring layer of the missing module.  It
    only ever writes the [score] of a node, on construction, on merge and
    in the post-expansion hook. *)
Class Scoring : Type := {
  initial_score : State → Score;
  merge_score : SearchNode → SearchNode → Score;
  post_expansion_score :
    gmap Key SearchNode → gmap Key SearchNode → SearchNode → Score
}.
Context `{!Scoring}.

(** Modelled from the spec: a freshly constructed node for a state. *)
Definition new_node (s : State) : SearchNode :=
  mkSearchNode s false ∅ (initial_score s).

(** Modelled from the spec: [SearchNode._node_key], delegating to the
    adapter over the wrapped state. *)
Definition _node_key (node : SearchNode) : result Key :=
  adapter_node_key (state node).

(** Modelled from the spec: [SearchNode.expand].  Enumerates every legal
    move, computes each successor state and returns one fresh node per
    successor; fails on an already expanded node.  The first component is
    the node itself after the call, expanded and with its successor map
    populated. *)
Definition expand (node : SearchNode)
  : result (SearchNode * list SearchNode) :=
  if is_expanded node then Raise InvalidStateError
  else
    moves <- adapter_all_legal_moves (state node);;
    produced <- mapM (λ move,
                        s' <- adapter_make_move (state node) move;;
                        k <- adapter_node_key s';;
                        Ok (move, k, new_node s'))
                     moves;;
    Ok (mkSearchNode (state node) true
                     (list_to_map ((λ mks, (mks.1.1, mks.1.2)) <$> produced))
                     (score node),
        (λ mks, mks.2) <$> produced).

(** Modelled from the spec: [SearchNode.merge].  Both nodes must share
    their key; the successor map becomes the union and the score is
    recomputed. *)
Definition merge (self other : SearchNode) : result SearchNode :=
  k_self <- _node_key self;;
  k_other <- _node_key other;;
  if bool_decide (k_self = k_other) then
    Ok (mkSearchNode (state self) (is_expanded self)
                     (successors self ∪ successors other)
                     (merge_score self other))
  else Raise InvalidStateError.

(** Modelled from the spec: [SearchNode.get_successor]; a move outside
    the successor map is an illegal move. *)
Definition get_successor (node : SearchNode) (move : Move) : result Key :=
  match successors node !! move with
  | Some k => Ok k
  | None => Raise IllegalMoveError
  end.

(** Modelled from the spec: [SearchNode.get_successors] and
    [SearchNode.get_successor_nodes], the keys of the successor nodes. *)
Definition get_successors (node : SearchNode) : gset Key :=
  map_img (successors node).

(** Modelled from the spec: [SearchNode.post_expansion_insertion]. *)
Definition post_expansion_insertion (old new : gmap Key SearchNode)
    (node : SearchNode) : SearchNode :=
  mkSearchNode (state node) (is_expanded node) (successors node)
               (post_expansion_score old new node).

(** The attributes of an engine object: the transposition table and the
    reference to the current node of [BaseAI], and the three sets that a
    [ForwardSweepingMixin] keeps on the object during a sweep. *)
Record AI : Type := mkAI {
  search_tree : gmap Key SearchNode;
  current_state : Key;
  current_layer_nodes : gset Key;
  known_nodes : gset Key;
  next_layer : gset Key
}.

Definition with_search_tree (t : gmap Key SearchNode) (ai : AI) : AI :=
  mkAI t (current_state ai) (current_layer_nodes ai) (known_nodes ai)
       (next_layer ai).
Definition with_current_state (k : Key) (ai : AI) : AI :=
  mkAI (search_tree ai) k (current_layer_nodes ai) (known_nodes ai)
       (next_layer ai).

(** A method of the engine: it returns or raises, and leaves the engine
    in the state reached at that point. *)
Definition M (A : Type) : Type := AI → result A * AI.

Definition ret {A} (a : A) : M A := λ ai, (Ok a, ai).
Definition raise {A} (e : exn) : M A := λ ai, (Raise e, ai).
Definition bindM {A B} (m : M A) (f : A → M B) : M B :=
  λ ai, match m ai with
        | (Ok a, ai') => f a ai'
        | (Raise e, ai') => (Raise e, ai')
        end.
Definition lift {A} (r : result A) : M A := λ ai, (r, ai).

Notation "x <~ m ;; k" := (bindM m (λ x, k))
  (at level 20, m at level 99, k at level 200, only parsing).

Fixpoint foldM {A B} (f : B → A → M B) (b : B) (l : list A) : M B :=
  match l with
  | [] => ret b
  | x :: l' => b' <~ f b x;; foldM f b' l'
  end.

(** [self.search_tree[key]] *)
Definition get_node (key : Key) : M SearchNode :=
  λ ai, match search_tree ai !! key with
        | Some node => (Ok node, ai)
        | None => (Raise KeyError, ai)
        end.

(** [self.search_tree[key] = node], also the write-back of a resident
    node that a method mutated in place. *)
Definition set_node (key : Key) (node : SearchNode) : M unit :=
  λ ai, (Ok tt, with_search_tree (<[key := node]> (search_tree ai)) ai).

Definition num_states (ai : AI) : nat := size (search_tree ai).

Definition add_node (node : SearchNode) : M bool :=
  key <~ lift (_node_key node);;
  λ ai, match search_tree ai !! key with
        | None => (_ <~ set_node key node;; ret true) ai
        | Some resident =>
            (merged <~ lift (merge resident node);;
             _ <~ set_node key merged;;
             ret false) ai
        end.

Definition expand_single_node (key : Key) : M bool :=
  node <~ get_node key;;
  expanded <~ lift (expand node);;
  _ <~ set_node key expanded.1;;
  old_new <~ foldM (λ (old_new : gmap Key SearchNode * gmap Key SearchNode)
                      successor,
                      is_new <~ add_node successor;;
                      k <~ lift (_node_key successor);;
                      if is_new : bool then
                        ret (old_new.1, <[k := successor]> old_new.2)
                      else
                        resident <~ get_node k;;
                        ret (<[k := resident]> old_new.1, old_new.2))
                   (∅, ∅) expanded.2;;
  node' <~ get_node key;;
  _ <~ set_node key (post_expansion_insertion old_new.1 old_new.2 node');;
  ret (0 <? size old_new.1 + size old_new.2)%nat.

(** [BaseAI.__init__] *)
Definition BaseAI_init (current : SearchNode) : result AI :=
  key <- _node_key current;;
  match add_node current (mkAI ∅ key ∅ ∅ ∅) with
  | (Ok _, ai) => Ok ai
  | (Raise e, _) => Raise e
  end.

Definition BaseAI_make_move (move : Move) : M unit :=
  λ ai,
    (node <~ get_node (current_state ai);;
     _ <~ (if is_expanded node then ret false
           else expand_single_node (current_state ai));;
     node' <~ get_node (current_state ai);;
     next <~ lift (get_successor node' move);;
     λ ai', (Ok tt, with_current_state next ai')) ai.

Definition BaseAI_step_search_tree_expansion : M bool :=
  raise NotImplementedError.

(** [CurrentStateExpansionMixin] *)
Definition CurrentState_step_search_tree_expansion : M bool :=
  λ ai,
    (node <~ get_node (current_state ai);;
     if is_expanded node then ret false
     else expand_single_node (current_state ai)) ai.

(** [OneStepSearchMixin] *)
Definition unexpanded_nodes (ai : AI) : list Key :=
  filter (λ k, (is_expanded <$> search_tree ai !! k) = Some false)
         (dict_iter (search_tree ai)).

Definition OneStep_step_search_tree_expansion : M bool :=
  λ ai,
    foldM (λ has_expanded key,
             r <~ expand_single_node key;; ret (r || has_expanded))
          false (unexpanded_nodes ai) ai.

(** [FullExpansionMixin]: the loop runs the step of the mixin it is
    combined with; [None] when the fuel does not suffice. *)
Definition any_unexpanded (ai : AI) : bool :=
  py_any ((λ node, negb (is_expanded node)) <$>
            (map_to_list (search_tree ai)).*2).

Fixpoint Full_expand_search_tree (step : M bool) (fuel : nat) (ai : AI)
  : option (result unit * AI) :=
  if any_unexpanded ai then
    match fuel with
    | O => None
    | S fuel' =>
        match step ai with
        | (Ok _, ai') => Full_expand_search_tree step fuel' ai'
        | (Raise e, ai') => Some (Raise e, ai')
        end
    end
  else Some (Ok tt, ai).

(** [BoundedExpansionMixin]: [elapsed_time] is the reading of the clock
    around the call of the wrapped step. *)
Definition Bounded_step_search_tree_expansion
    (time_limit : Q) (node_limit : Z) (elapsed_time : Q) (inner : M bool)
  : M bool :=
  expansion_happened <~ inner;;
  λ ai,
    let limit_exceeded := false in
    let limit_exceeded :=
      if negb (node_limit =? 0) &&
         (node_limit <=? Z.of_nat (size (search_tree ai)))
      then true else limit_exceeded in
    let limit_exceeded :=
      if negb (Qeq_bool time_limit 0) && Qle_bool time_limit elapsed_time
      then true else limit_exceeded in
    (Ok (expansion_happened && negb limit_exceeded), ai).

(** [ForwardSweepingMixin] *)
Definition ForwardSweeping_init (search_depth : Z) (current : SearchNode)
  : result AI :=
  if negb (0 <? search_depth) then Raise AssertionError
  else BaseAI_init current.

Definition ForwardSweeping_step_search_tree_expansion : M bool :=
  λ ai,
    (_ <~ foldM (λ (_ : unit) key,
                   node <~ get_node key;;
                   _ <~ (if is_expanded node then ret false
                         else expand_single_node key);;
                   node' <~ get_node key;;
                   let successors := get_successors node' in
                   λ ai', (Ok tt,
                           mkAI (search_tree ai') (current_state ai')
                                (current_layer_nodes ai')
                                (known_nodes ai' ∪ successors)
                                (next_layer ai' ∪
                                   (successors ∖ known_nodes ai'))))
                tt (set_iter (current_layer_nodes ai));;
     λ ai', (Ok (0 <? size (next_layer ai'))%nat, ai')) ai.

(** The [while] loop of [expand_search_tree]; [remaining] counts the
    layers left up to [search_depth], and [step] is the object's
    [step_search_tree_expansion]. *)
Fixpoint ForwardSweeping_loop (step : M bool) (remaining : nat)
    (abort : bool) : M unit :=
  match remaining with
  | O => ret tt
  | S remaining' =>
      if abort then ret tt
      else
        _ <~ (λ ai, (Ok tt, mkAI (search_tree ai) (current_state ai)
                                 (current_layer_nodes ai) (known_nodes ai) ∅));;
        more <~ step;;
        _ <~ (λ ai, (Ok tt, mkAI (search_tree ai) (current_state ai)
                                 (next_layer ai) (known_nodes ai)
                                 (next_layer ai)));;
        ForwardSweeping_loop step remaining' (negb more)
  end.

Definition ForwardSweeping_expand_search_tree (search_depth : Z)
    (step : M bool) : M unit :=
  _ <~ (λ ai, (Ok tt, mkAI (search_tree ai) (current_state ai)
                           {[current_state ai]} {[current_state ai]}
                           (next_layer ai)));;
  ForwardSweeping_loop step (Z.to_nat search_depth) false.

(** [NaivePruningMixin]: the [while frontier] loop; [None] when the fuel
    does not suffice. *)
Fixpoint transitive_hull_loop (fuel : nat) (tree : gmap Key SearchNode)
    (transitive_hull frontier : gset Key) : option (result (gset Key)) :=
  if bool_decide (frontier = ∅) then Some (Ok transitive_hull)
  else
    match fuel with
    | O => None
    | S fuel' =>
        match set_pop frontier with
        | None => Some (Raise KeyError)
        | Some expansion =>
            let frontier := frontier ∖ {[expansion]} in
            let transitive_hull := transitive_hull ∪ {[expansion]} in
            match tree !! expansion with
            | None => Some (Raise KeyError)
            | Some node =>
                transitive_hull_loop fuel' tree transitive_hull
                  (frontier ∪
                     filter (λ node_key, node_key ∉ transitive_hull)
                            (get_successors node))
            end
        end
    end.

Definition NaivePruning_make_move (fuel : nat) (super_make_move : M unit)
    (ai : AI) : option (result unit * AI) :=
  match super_make_move ai with
  | (Raise e, ai') => Some (Raise e, ai')
  | (Ok _, ai') =>
      match transitive_hull_loop fuel (search_tree ai') ∅
                                 {[current_state ai']} with
      | None => None
      | Some (Raise e) => Some (Raise e, ai')
      | Some (Ok transitive_hull) =>
          let nodes_to_delete := dom (search_tree ai') ∖ transitive_hull in
          Some (Ok tt,
                with_search_tree
                  (foldr delete (search_tree ai') (set_iter nodes_to_delete))
                  ai')
      end
  end.

End Engine.

Notation "x <~ m ;; k" := (bindM m (λ x, k))
  (at level 20, m at level 99, k at level 200, only parsing).

Arguments SearchNode State Move Key Score {_ _}.
Arguments AI State Move Key Score {_ _ _ _}.
Arguments Scoring State Move Key Score {_ _ _ _}.


(** ** The driver: choosing moves and playing a game *)

Section Driver.
Context {State Move Key Score : Type}.
Context `{Countable Move, Countable Key}.
Context `{!GameAdapter State Move Key}.
Context `{!Scoring State Move Key Score}.

Local Abbreviation Node := (SearchNode State Move Key Score).
Local Abbreviation Table := (gmap Key (SearchNode State Move Key Score)).
Local Abbreviation Engine := (AI State Move Key Score).
Local Abbreviation EM := (M (State:=State) (Move:=Move) (Key:=Key) (Score:=Score)).

(** Modelled from the spec: [SearchNode._is_finished], delegating to the
    adapter over the wrapped state. *)
Definition _is_finished (node : Node) : result bool :=
  adapter_is_finished (state node).

(** Modelled from the spec: the move selection of the missing module
    [bobbot/search_node.py], [SearchNode.find_best_move].  A policy reads
    the node and, through the table, its successors, and returns a move
    or raises. *)
Class MoveSelection : Type := {
  find_best_move : Table → Node → result Move
}.
Context `{!MoveSelection}.

(** [PlayerInterface.is_finished] *)
Definition PlayerInterface_is_finished : EM bool :=
  λ ai, (node <~ get_node (current_state ai);; lift (_is_finished node)) ai.

(** [BaseAI.current_score] *)
Definition BaseAI_current_score : EM Score :=
  λ ai, (node <~ get_node (current_state ai);; ret (score node)) ai.

(** [BaseAI.expand_search_tree]: one step of the expansion, its value
    dropped. *)
Definition BaseAI_expand_search_tree (step : EM bool) : EM unit :=
  _ <~ step;; ret tt.

(** [BaseAI.find_best_move] *)
Definition BaseAI_find_best_move : EM Move := raise NotImplementedError.

(** [BaseAI.choose_move]; [expand_search_tree] is the method of the
    expansion control the engine is built with. *)
Definition BaseAI_choose_move (expand_search_tree : EM unit) : EM Move :=
  _ <~ expand_search_tree;;
  λ ai, (node <~ get_node (current_state ai);;
         lift (find_best_move (search_tree ai) node)) ai.

(** [BaseAI.play], without the printing under [debug]; [make_move] is
    the method of the engine, with or without pruning; [None] when the
    fuel does not suffice. *)
Fixpoint BaseAI_play (make_move : Move → Engine → option (result unit * Engine))
    (expand_search_tree : EM unit) (fuel : nat) (ai : Engine)
  : option (result unit * Engine) :=
  match (node <~ get_node (current_state ai);; lift (_is_finished node)) ai with
  | (Raise e, ai') => Some (Raise e, ai')
  | (Ok true, ai') => Some (Ok tt, ai')
  | (Ok false, ai') =>
      match fuel with
      | O => None
      | S fuel' =>
          match BaseAI_choose_move expand_search_tree ai' with
          | (Raise e, ai'') => Some (Raise e, ai'')
          | (Ok move, ai'') =>
              match make_move move ai'' with
              | None => None
              | Some (Raise e, ai3) => Some (Raise e, ai3)
              | Some (Ok _, ai3) =>
                  BaseAI_play make_move expand_search_tree fuel' ai3
              end
          end
      end
  end.

End Driver.

Section PrunedDriver.
Context {State Move Key Score : Type}.
Context `{Countable Move, Countable Key}.
Context `{!GameAdapter State Move Key}.
Context `{!IterationOrder Key}.
Context `{!Scoring State Move Key Score}.

(** [NaivePruningMixin.make_move] over [BaseAI.make_move], with the fuel
    its loop needs at most: one round for each node of the table the move
    left. *)
Definition NaivePruning_BaseAI_make_move (move : Move)
    (ai : AI State Move Key Score)
  : option (result unit * AI State Move Key Score) :=
  NaivePruning_make_move
    (S (size (search_tree (BaseAI_make_move move ai).2)))
    (BaseAI_make_move move) ai.

End PrunedDriver.

Arguments MoveSelection State Move Key Score {_ _ _ _}.

(** ** Vocabulary of the statements about tic-tac-toe *)

Module TicTacToeSpec.
Import TicTacToe.

(** Replaying a list of moves from the starting state. *)
Definition play (moves : list (Z * Z)) : result GameState :=
  foldl (λ r coord, gs <- r;; make_move gs coord) (Ok starting_state) moves.

(** The states reachable from the starting state by legal moves. *)
Inductive reachable : GameState → Prop :=
| reachable_start : reachable starting_state
| reachable_move gs coord gs' :
    reachable gs → make_move gs coord = Ok gs' → reachable gs'.

(** The board dict whose nine fields are [cells], in the order of
    [all_coords]. *)
Definition board_of (cells : list (option player))
  : gmap (Z * Z) (option player) :=
  list_to_map (zip all_coords cells).

Definition is_filled (field : option player) : nat :=
  match field with Some _ => 1 | None => 0 end.

(** The number of occupied fields among the nine coordinates. *)
Definition filled (b : gmap (Z * Z) (option player)) : nat :=
  sum_list ((λ c, from_option is_filled 0%nat (b !! c)) <$> all_coords).

(** Whose turn it is on a board with [n] occupied fields. *)
Definition to_move (n : nat) : player :=
  if Nat.even n then PLAYER_X else PLAYER_O.

(** X completes the top row: X (0,0), O (0,1), X (1,0), O (1,1), X (2,0). *)
Definition x_wins_moves : list (Z * Z) :=
  [(0, 0); (0, 1); (1, 0); (1, 1); (2, 0)].

(** A game played to a full board without a winner. *)
Definition draw_moves : list (Z * Z) :=
  [(0, 0); (1, 1); (2, 0); (1, 0); (1, 2); (0, 2); (0, 1); (2, 1); (2, 2)].

(** The final states of the two games above. *)
Definition x_won_state : GameState :=
  mkGameState
    (board_of [Some PLAYER_X; Some PLAYER_O; None;
               Some PLAYER_X; Some PLAYER_O; None;
               Some PLAYER_X; None; None])
    None.

Definition drawn_state : GameState :=
  mkGameState
    (board_of [Some PLAYER_X; Some PLAYER_X; Some PLAYER_O;
               Some PLAYER_O; Some PLAYER_O; Some PLAYER_X;
               Some PLAYER_X; Some PLAYER_O; Some PLAYER_X])
    None.

(** The key set of a well-formed board: the nine coordinates. *)
Definition coords_set : gset (Z * Z) := list_to_set all_coords.

Definition wf_board (b : gmap (Z * Z) (option player)) : Prop :=
  dom b = coords_set.

(** What holds of every reachable state: the board has exactly the nine
    keys, [is_finished] returns, and the active player is the one the
    board determines. *)
Definition state_inv (gs : GameState) : Prop :=
  wf_board (board gs) ∧
  ∃ fin, is_finished gs = Ok fin ∧
         active_player gs =
           if fin then None else Some (to_move (filled (board gs))).

(** The eight lines of the board: the rows, the columns and the two
    diagonals. *)
Definition lines : list (list (Z * Z)) :=
  [ [(0, 0); (1, 0); (2, 0)]; [(0, 1); (1, 1); (2, 1)]; [(0, 2); (1, 2); (2, 2)];
    [(0, 0); (0, 1); (0, 2)]; [(1, 0); (1, 1); (1, 2)]; [(2, 0); (2, 1); (2, 2)];
    [(0, 0); (1, 1); (2, 2)]; [(0, 2); (1, 1); (2, 0)] ].

(** Player [p] holds one of the lines throughout. *)
Definition has_line (b : gmap (Z * Z) (option player)) (p : player) : Prop :=
  ∃ line, line ∈ lines ∧ ∀ c, c ∈ line → b !! c = Some (Some p).

(** The opponent. *)
Definition other (p : player) : player :=
  match p with PLAYER_X => PLAYER_O | PLAYER_O => PLAYER_X end.

(** The number of fields that hold a mark of [p]. *)
Definition marks (p : player) (b : gmap (Z * Z) (option player)) : nat :=
  length (filter (λ c, b !! c = Some (Some p)) all_coords).

(** [field == player] *)
Definition owns (p : player) (f : option player) : bool := bool_decide (f = Some p).

(** The number of moves a game can still last: the empty fields. *)
Definition moves_left (gs : GameState) : nat := 9 - filled (board gs).

(** The state after X has taken the corner (0, 0). *)
Definition corner_state : GameState :=
  mkGameState
    (board_of [Some PLAYER_X; None; None; None; None; None; None; None; None])
    (Some PLAYER_O).

End TicTacToeSpec.

(** ** Vocabulary of the statements about the engine *)

(** What the engine relies on from [set] and [dict] iteration: [pop]
    yields a member of a non-empty set, and an iteration visits every
    element once. *)
Class IterationOrderLaws (Key : Type) `{Countable Key}
    `{!IterationOrder Key} : Prop := {
  set_pop_elem : ∀ s : gset Key, s ≠ ∅ → ∃ k, set_pop s = Some k ∧ k ∈ s;
  set_iter_perm : ∀ s : gset Key, set_iter s ≡ₚ elements s;
  dict_iter_perm : ∀ V (m : gmap Key V), dict_iter m ≡ₚ (map_to_list m).*1
}.

(** A game whose adapter raises nothing on the states in [Reach], a set
    of states closed under legal moves. *)
Class AdapterTotal {State Move Key : Type} `{!GameAdapter State Move Key}
    (Reach : State → Prop) : Prop := {
  legal_moves_total :
    ∀ s, Reach s → ∃ moves, adapter_all_legal_moves s = Ok moves;
  make_move_total :
    ∀ s moves move,
      Reach s → adapter_all_legal_moves s = Ok moves → move ∈ moves →
      ∃ s', adapter_make_move s move = Ok s' ∧ Reach s';
  node_key_total : ∀ s, Reach s → ∃ k, adapter_node_key s = Ok k
}.

Section EngineSpec.
Context {State Move Key Score : Type}.
Context `{Countable Move, Countable Key}.
Context `{!GameAdapter State Move Key}.
Context `{!Scoring State Move Key Score}.

Local Abbreviation Node := (SearchNode State Move Key Score).
Local Abbreviation Table := (gmap Key (SearchNode State Move Key Score)).

(** Two nodes that differ at most in their score. *)
Definition same_shape (n n' : Node) : Prop :=
  state n = state n' ∧ is_expanded n = is_expanded n' ∧
  successors n = successors n'.

(** A node as [new_node] makes it: not expanded, no successors. *)
Definition bare (n : Node) : Prop :=
  is_expanded n = false ∧ successors n = ∅.

(** [k'] is a successor key recorded in the resident node [k]. *)
Definition edge (t : Table) (k k' : Key) : Prop :=
  ∃ n, t !! k = Some n ∧ k' ∈ get_successors n.

(** The successor-closure invariant of the table. *)
Definition successor_closed (t : Table) : Prop :=
  ∀ k k', edge t k k' → k' ∈ dom t.

(** Every resident node sits under the key of its state, and its state
    is one of [Reach]. *)
Definition keyed (Reach : State → Prop) (t : Table) : Prop :=
  ∀ k n, t !! k = Some n → Reach (state n) ∧ _node_key n = Ok k.

(** [t'] is [t] after nodes were inserted or merged: at [k] a resident
    node keeps its shape, and a new key holds a bare node. *)
Definition grown_at (t t' : Table) (k : Key) : Prop :=
  match t !! k with
  | Some n => ∃ n', t' !! k = Some n' ∧ same_shape n n'
  | None => t' !! k = None ∨ ∃ n', t' !! k = Some n' ∧ bare n'
  end.

Definition grown (t t' : Table) : Prop := ∀ k, grown_at t t' k.

(** Expanded nodes are never touched again: they stay resident and keep
    their shape. *)
Definition stable (t t' : Table) : Prop :=
  ∀ k n, t !! k = Some n → is_expanded n = true →
         ∃ n', t' !! k = Some n' ∧ same_shape n n'.

(** What [expand] produced for a move: the successor state and its key. *)
Definition produced_by (n : Node) (mkn : Move * Key * Node) : Prop :=
  ∃ s', adapter_make_move (state n) mkn.1.1 = Ok s' ∧
        adapter_node_key s' = Ok mkn.1.2 ∧ mkn.2 = new_node s'.

(** The keys of the expanded resident nodes. *)
Definition expanded_keys (t : Table) : gset Key :=
  dom (filter (λ kn, is_expanded kn.2 = true) t).

(** The successor keys recorded under [k], none when [k] is absent. *)
Definition successors_of (t : Table) (k : Key) : gset Key :=
  from_option get_successors ∅ (t !! k).


(** The successor map of [n] is what the game makes of the state of
    [n]: it has one entry for each legal move, and under the move the key
    of the state that the move produces. *)
Definition faithful_node (n : SearchNode State Move Key Score) : Prop :=
  ∃ moves,
    adapter_all_legal_moves (state n) = Ok moves ∧
    (∀ m, is_Some (successors n !! m) ↔ m ∈ moves) ∧
    ∀ m k', successors n !! m = Some k' →
            ∃ s', adapter_make_move (state n) m = Ok s' ∧
                  adapter_node_key s' = Ok k'.

(** The nodes that are expanded in [t'] and were not expanded in [t] are
    faithful: what was expanded on the way from [t] to [t'] was expanded
    by the rules of the game. *)
Definition expanded_faithfully
    (t t' : gmap Key (SearchNode State Move Key Score)) : Prop :=
  ∀ k n', t' !! k = Some n' → is_expanded n' = true →
          k ∈ expanded_keys t ∨ faithful_node n'.

(** Every recorded successor is what the game makes of the move: the
    key of a state of [Reach] that [make_move] returns, and resident. *)
Definition sound (Reach : State → Prop)
    (t : gmap Key (SearchNode State Move Key Score)) : Prop :=
  ∀ k n m k',
    t !! k = Some n → successors n !! m = Some k' →
    is_Some (t !! k') ∧
    ∃ s', adapter_make_move (state n) m = Ok s' ∧ Reach s' ∧
          adapter_node_key s' = Ok k'.

(** Every node of [t] is resident in [t'], with the state it had. *)
Definition kept (t t' : gmap Key (SearchNode State Move Key Score)) : Prop :=
  ∀ k n, t !! k = Some n → ∃ n', t' !! k = Some n' ∧ state n' = state n.

End EngineSpec.

(** ** Example engines *)

Module Examples.
Import TicTacToe TicTacToeSpec.

(** [TicTacToeAdapter] *)
#[export] Instance TicTacToeAdapter : GameAdapter GameState (Z * Z) string := {|
  adapter_is_finished := is_finished;
  adapter_all_legal_moves := all_legal_moves;
  adapter_make_move := make_move;
  adapter_node_key := node_key
|}.

(** One admissible order of iteration: that of [elements] and
    [map_to_list]. *)
#[export] Instance listed_order {Key} `{Countable Key} : IterationOrder Key := {|
  set_pop s := head (elements s);
  set_iter s := elements s;
  dict_iter V m := (map_to_list m).*1
|}.

(** An engine without a scoring layer. *)
#[export] Instance no_scoring {State Move Key} `{Countable Move, Countable Key}
  : Scoring State Move Key unit := {|
  initial_score _ := tt;
  merge_score _ _ := tt;
  post_expansion_score _ _ _ := tt
|}.

(** The state after X has taken the centre. *)
Definition centre_state : GameState :=
  mkGameState
    (board_of [None; None; None; None; Some PLAYER_X; None; None; None; None])
    (Some PLAYER_O).


(** The engines used in the examples below. *)
Definition TTT : Type := AI GameState (Z * Z) string unit.

Definition start_node : SearchNode GameState (Z * Z) string unit :=
  new_node starting_state.
Definition centre_node : SearchNode GameState (Z * Z) string unit :=
  new_node centre_state.

Definition start_engine : TTT :=
  mkAI {[ "         "%string := start_node ]} "         " ∅ ∅ ∅.
Definition centre_engine : TTT :=
  mkAI {[ "    X    "%string := centre_node ]} "    X    " ∅ ∅ ∅.

(** [start_engine] once [BaseAI.make_move] has committed X to the
    centre: the current node was expanded on the way. *)
Definition centre_committed : TTT := (BaseAI_make_move (1, 1) start_engine).2.

Definition fields : list (option player) := [None; Some PLAYER_X; Some PLAYER_O].
Definition all_keys : gset string :=
  list_to_set
    (c0 ← fields; c1 ← fields; c2 ← fields; c3 ← fields; c4 ← fields;
     c5 ← fields; c6 ← fields; c7 ← fields; c8 ← fields;
     [String.concat "" (player_symbol <$> [c0; c1; c2; c3; c4; c5; c6; c7; c8])]).

Definition centre_moves : list (Z * Z) :=
  [(0, 0); (0, 1); (0, 2); (1, 0); (1, 2); (2, 0); (2, 1); (2, 2)].

Definition won_node : SearchNode GameState (Z * Z) string unit :=
  new_node x_won_state.
Definition won_engine : TTT :=
  mkAI {[ "XO XO X  "%string := won_node ]} "XO XO X  " ∅ ∅ ∅.


(** A move selection for the examples: the first move that the
    successor map of the node lists, whatever its score. *)
#[export] Instance first_move {State Move Key Score}
    `{Countable Move, Countable Key} : MoveSelection State Move Key Score := {|
  find_best_move _ node :=
    match map_to_list (successors node) with
    | (move, _) :: _ => Ok move
    | [] => Raise ValueError
    end
|}.

(** [start_engine] after one step of [CurrentStateExpansionMixin]: the
    starting state is expanded, its nine successors are not. *)
Definition start_expanded : TTT :=
  (CurrentState_step_search_tree_expansion start_engine).2.

(** [won_engine] after one One-Step-All step: its one node is expanded. *)
Definition won_expanded : TTT :=
  (OneStep_step_search_tree_expansion won_engine).2.

End Examples.

(** * Properties of the tic-tac-toe adapter *)

Module TicTacToeFacts.
Import TicTacToe TicTacToeSpec.

Lemma bind_Ok {A B} (r : result A) (f : A → result B) (b : B) :
  bind r f = Ok b → ∃ a, r = Ok a ∧ f a = Ok b.
Proof. destruct r as [a|e]; simpl; [eauto | discriminate]. Qed.

Lemma is_finished_Ok gs fin :
  is_finished gs = Ok fin →
  ∃ won_x won_o,
    is_winner gs PLAYER_X = Ok won_x ∧
    (won_x = false → is_winner gs PLAYER_O = Ok won_o) ∧
    (fin = false → won_x = false ∧ won_o = false).
Proof.
  unfold is_finished. intros H.
  apply bind_Ok in H as (won_x & Hx & H).
  apply bind_Ok in H as (player_won & Hw & H).
  injection H as <-.
  destruct won_x.
  - injection Hw as <-. exists true, false. repeat split; try done.
  - exists false, player_won. repeat split; try done.
    destruct player_won; [done|]. done.
Qed.

(** C9, as the code has it. On a state that is not finished [winner]
    raises [ValueError]; on a finished state it returns without an
    exception: a returned player has three in a line, and [None] is
    returned exactly when neither player has. *)
Theorem winner_contract gs fin :
  is_finished gs = Ok fin →
  if fin then
    ∃ w, winner gs = Ok w ∧
         match w with
         | Some p => is_winner gs p = Ok true
         | None => is_winner gs PLAYER_X = Ok false ∧
                   is_winner gs PLAYER_O = Ok false
         end
  else winner gs = Raise ValueError.
Proof.
  intros Hfin.
  destruct (is_finished_Ok _ _ Hfin) as (won_x & won_o & Hx & Ho & Hnone).
  unfold winner. rewrite Hx. simpl.
  destruct won_x.
  - destruct fin; [by exists (Some PLAYER_X) |].
    by destruct (Hnone eq_refl).
  - rewrite (Ho eq_refl). simpl. destruct won_o.
    + destruct fin; [exists (Some PLAYER_O); auto |].
      by destruct (Hnone eq_refl).
    + rewrite Hfin. simpl. destruct fin; simpl; [|done].
      exists None. auto.
Qed.

Lemma winner_contract_witness :
  winner starting_state = Raise ValueError.
Proof. apply (winner_contract starting_state false). reflexivity. Defined.

(** C9 as stated fails in the exception: on the starting state, which is
    not finished, [winner] raises [ValueError], the exception the code
    names, and not an [InvalidStateError]. *)
Lemma winner_raises_value_error :
  is_finished starting_state = Ok false ∧
  winner starting_state = Raise ValueError ∧
  winner starting_state ≠ Raise InvalidStateError.
Proof. split; [reflexivity|]. split; [reflexivity|]. discriminate. Qed.

Example play_x_wins : play x_wins_moves = Ok x_won_state.
Proof. vm_compute. reflexivity. Qed.

Example play_draw : play draw_moves = Ok drawn_state.
Proof. vm_compute. reflexivity. Qed.

(** C1, as the code has it. On a finished state the evaluation is
    zero-sum whenever [winner] names a player; when it names none (a
    draw) both players are given -0.5. *)
Theorem evaluate_finished gs :
  is_finished gs = Ok true →
  ∃ ev w,
    evaluate gs = Ok ev ∧ winner gs = Ok w ∧
    match w with
    | Some _ => (ev PLAYER_X == - ev PLAYER_O)%Q
    | None => (ev PLAYER_X == -1 # 2)%Q ∧ (ev PLAYER_O == -1 # 2)%Q
    end.
Proof.
  intros Hfin.
  destruct (is_finished_Ok _ _ Hfin) as (won_x & won_o & Hx & Ho & _).
  unfold evaluate, winner. rewrite Hfin, Hx. simpl.
  destruct won_x.
  - eexists _, (Some PLAYER_X). repeat split.
  - rewrite (Ho eq_refl). simpl. destruct won_o.
    + eexists _, (Some PLAYER_O). repeat split.
    + eexists _, None. repeat split.
Qed.

Lemma evaluate_finished_witness :
  ∃ ev w,
    evaluate x_won_state = Ok ev ∧ winner x_won_state = Ok w ∧
    match w with
    | Some _ => (ev PLAYER_X == - ev PLAYER_O)%Q
    | None => (ev PLAYER_X == -1 # 2)%Q ∧ (ev PLAYER_O == -1 # 2)%Q
    end.
Proof. apply (evaluate_finished x_won_state). reflexivity. Defined.

(** C1 as stated fails on a drawn game: the state is finished and both
    players are given -0.5. *)
Lemma evaluate_draw_not_zero_sum :
  play draw_moves = Ok drawn_state ∧
  is_finished drawn_state = Ok true ∧
  ∃ ev, evaluate drawn_state = Ok ev ∧
        ¬ (ev PLAYER_X == - ev PLAYER_O)%Q.
Proof.
  split; [exact play_draw |]. split; [reflexivity |].
  eexists. split; [reflexivity |]. simpl. discriminate.
Qed.

Lemma dom_board_of c0 c1 c2 c3 c4 c5 c6 c7 c8 :
  dom (board_of [c0; c1; c2; c3; c4; c5; c6; c7; c8]) = coords_set.
Proof.
  unfold board_of, coords_set. simpl.
  rewrite !dom_insert_L, dom_empty_L. reflexivity.
Qed.

Lemma elem_of_coords_set c :
  c ∈ coords_set ↔ c ∈ all_coords.
Proof. unfold coords_set. apply elem_of_list_to_set. Qed.

Ltac in_coords := unfold all_coords, range3; simpl; repeat constructor.

Lemma board_view b :
  wf_board b →
  ∃ c0 c1 c2 c3 c4 c5 c6 c7 c8,
    b = board_of [c0; c1; c2; c3; c4; c5; c6; c7; c8].
Proof.
  intros Hwf.
  assert (Hin : ∀ c, c ∈ all_coords → is_Some (b !! c)).
  { intros c Hc. apply elem_of_dom. rewrite Hwf. by apply elem_of_coords_set. }
  destruct (Hin (0,0)) as [c0 H0]; [in_coords|].
  destruct (Hin (0,1)) as [c1 H1]; [in_coords|].
  destruct (Hin (0,2)) as [c2 H2]; [in_coords|].
  destruct (Hin (1,0)) as [c3 H3]; [in_coords|].
  destruct (Hin (1,1)) as [c4 H4]; [in_coords|].
  destruct (Hin (1,2)) as [c5 H5]; [in_coords|].
  destruct (Hin (2,0)) as [c6 H6]; [in_coords|].
  destruct (Hin (2,1)) as [c7 H7]; [in_coords|].
  destruct (Hin (2,2)) as [c8 H8]; [in_coords|].
  exists c0, c1, c2, c3, c4, c5, c6, c7, c8.
  apply map_eq. intros c.
  destruct (decide (c ∈ all_coords)) as [Hc|Hc].
  - unfold all_coords, range3 in Hc. simpl in Hc.
    set_unfold in Hc.
    destruct Hc as [->|[->|[->|[->|[->|[->|[->|[->|[->|[]]]]]]]]]];
      by (etrans; [eassumption|]).
  - transitivity (@None (option player)).
    + apply not_elem_of_dom. rewrite Hwf. by rewrite elem_of_coords_set.
    + symmetry. apply not_elem_of_dom. rewrite dom_board_of.
      by rewrite elem_of_coords_set.
Qed.

Lemma player_symbol_cons_inj f f' s s' :
  (player_symbol f ++ s = player_symbol f' ++ s')%string → f = f' ∧ s = s'.
Proof. destruct f as [[]|], f' as [[]|]; simpl; intros [=]; auto. Qed.

Lemma player_symbol_inj f f' : player_symbol f = player_symbol f' → f = f'.
Proof. destruct f as [[]|], f' as [[]|]; simpl; intros [=]; auto. Qed.

Lemma node_key_board_of c0 c1 c2 c3 c4 c5 c6 c7 c8 a :
  node_key (mkGameState (board_of [c0; c1; c2; c3; c4; c5; c6; c7; c8]) a) =
  Ok (String.concat "" (player_symbol <$> [c0; c1; c2; c3; c4; c5; c6; c7; c8])).
Proof. reflexivity. Qed.

Lemma node_key_board_of_inj c0 c1 c2 c3 c4 c5 c6 c7 c8
    d0 d1 d2 d3 d4 d5 d6 d7 d8 :
  String.concat "" (player_symbol <$> [c0; c1; c2; c3; c4; c5; c6; c7; c8]) =
  String.concat "" (player_symbol <$> [d0; d1; d2; d3; d4; d5; d6; d7; d8]) →
  [c0; c1; c2; c3; c4; c5; c6; c7; c8] = [d0; d1; d2; d3; d4; d5; d6; d7; d8].
Proof.
  simpl. intros H.
  repeat (apply player_symbol_cons_inj in H as [-> H]).
  apply player_symbol_inj in H as ->. reflexivity.
Qed.

Lemma is_winner_board_of c0 c1 c2 c3 c4 c5 c6 c7 c8 a p :
  ∃ r, is_winner (mkGameState (board_of [c0; c1; c2; c3; c4; c5; c6; c7; c8]) a) p = Ok r.
Proof. eexists. reflexivity. Qed.

Lemma is_winner_wf b a p :
  wf_board b → ∃ r, is_winner (mkGameState b a) p = Ok r.
Proof.
  intros (c0&c1&c2&c3&c4&c5&c6&c7&c8&->)%board_view. apply is_winner_board_of.
Qed.

Lemma is_finished_wf b a :
  wf_board b → ∃ fin, is_finished (mkGameState b a) = Ok fin.
Proof.
  intros Hwf. unfold is_finished.
  destruct (is_winner_wf b a PLAYER_X Hwf) as [wx ->].
  destruct (is_winner_wf b a PLAYER_O Hwf) as [wo Ho]. simpl.
  destruct wx; simpl; [eauto|]. rewrite Ho. simpl. eauto.
Qed.

Lemma in_range_coords (c : Z * Z) :
  (0 <=? c.1) && (c.1 <=? 2) && (0 <=? c.2) && (c.2 <=? 2) = true →
  c ∈ all_coords.
Proof.
  destruct c as [x y]. simpl. intros H.
  repeat (apply andb_prop in H as [H ?]).
  assert (x = 0 ∨ x = 1 ∨ x = 2) as [->|[->| ->]] by lia;
    assert (y = 0 ∨ y = 1 ∨ y = 2) as [->|[->| ->]] by lia; in_coords.
Qed.

Lemma coords_in_range (c : Z * Z) :
  c ∈ all_coords →
  (0 <=? c.1) && (c.1 <=? 2) && (0 <=? c.2) && (c.2 <=? 2) = true.
Proof.
  unfold all_coords, range3. simpl. intros Hc. set_unfold in Hc.
  destruct Hc as [->|[->|[->|[->|[->|[->|[->|[->|[->|[]]]]]]]]]]; reflexivity.
Qed.

Lemma is_legal_move_true gs coord :
  is_legal_move gs coord = Ok true ↔
  coord ∈ all_coords ∧ is_finished gs = Ok false ∧
  board gs !! coord = Some None.
Proof.
  unfold is_legal_move. split.
  - destruct (_ && _) eqn:Hr; simpl; [|discriminate].
    intros H. apply bind_Ok in H as (fin & Hfin & H).
    destruct fin; [discriminate|].
    apply bind_Ok in H as (field & Hf & H).
    injection H as H. apply bool_decide_eq_true in H as ->.
    unfold getitem in Hf. destruct (board gs !! coord) as [f|]; [|discriminate].
    injection Hf as ->. split; [by apply in_range_coords|done].
  - intros (Hc & -> & Hf). rewrite (coords_in_range _ Hc). simpl.
    unfold getitem. rewrite Hf. reflexivity.
Qed.

Lemma make_move_Ok gs coord gs' :
  make_move gs coord = Ok gs' →
  is_legal_move gs coord = Ok true ∧
  board gs' = <[coord := active_player gs]> (board gs) ∧
  ∃ fin', is_finished gs' = Ok fin' ∧
          active_player gs' =
            if fin' then None
            else if bool_decide (active_player gs = Some PLAYER_X)
                 then Some PLAYER_O else Some PLAYER_X.
Proof.
  unfold make_move. intros H.
  apply bind_Ok in H as (legal & Hl & H).
  destruct legal; [|discriminate]. simpl in H.
  apply bind_Ok in H as (fin' & Hfin' & H).
  injection H as <-. simpl. split; [done|]. split; [done|].
  exists fin'. split; [exact Hfin' | done].
Qed.

Lemma make_move_legal gs coord :
  wf_board (board gs) → is_legal_move gs coord = Ok true →
  ∃ gs', make_move gs coord = Ok gs'.
Proof.
  intros Hwf Hl. unfold make_move. rewrite Hl. simpl.
  apply is_legal_move_true in Hl as (Hc & _ & Hf).
  destruct (is_finished_wf (<[coord := active_player gs]> (board gs)) None)
    as [fin' ->]; [|simpl; eauto].
  unfold wf_board in *. rewrite dom_insert_L, Hwf.
  apply elem_of_coords_set in Hc.
    by apply subseteq_union_1_L, singleton_subseteq_l.
Qed.

Lemma filled_insert b coord p :
  coord ∈ all_coords → b !! coord = Some None →
  filled (<[coord := Some p]> b) = S (filled b).
Proof.
  unfold all_coords, range3. simpl. intros Hc Hb. set_unfold in Hc.
  unfold filled, all_coords, range3. simpl.
  destruct Hc as [->|[->|[->|[->|[->|[->|[->|[->|[->|[]]]]]]]]]];
    rewrite lookup_insert_eq, !lookup_insert_ne, Hb by done; simpl; lia.
Qed.

Lemma to_move_S n :
  to_move (S n) =
  if bool_decide (Some (to_move n) = Some PLAYER_X) then PLAYER_O else PLAYER_X.
Proof.
  unfold to_move. rewrite Nat.even_succ, <- Nat.negb_even.
  by destruct (Nat.even n).
Qed.

Lemma reachable_inv gs : reachable gs → state_inv gs.
Proof.
  induction 1 as [|gs coord gs' _ (Hwf & fin & Hfin & Hact) Hmv].
  - split; [reflexivity|]. exists false. split; reflexivity.
  - apply make_move_Ok in Hmv as (Hl & Hb & fin' & Hfin' & Hact').
    apply is_legal_move_true in Hl as (Hc & Hnf & Hf).
    rewrite Hnf in Hfin. injection Hfin as <-.
    split.
    + unfold wf_board in *. rewrite Hb, dom_insert_L, Hwf.
      apply elem_of_coords_set in Hc.
      apply subseteq_union_1_L. apply singleton_subseteq_l. exact Hc.
    + exists fin'. split; [done|]. rewrite Hact'. destruct fin'; [done|].
      rewrite Hb, Hact, (filled_insert _ _ _ Hc Hf), to_move_S.
      repeat case_bool_decide; congruence.
Qed.

(** C2. On the states reachable from the starting state [node_key]
    returns, and two such states have the same key exactly when they are
    the same board with the same active player: the key lists the nine
    fields, and the board of a reachable state determines whose turn it
    is. *)
Theorem node_key_canonical gs1 gs2 :
  reachable gs1 → reachable gs2 →
  (∃ k, node_key gs1 = Ok k) ∧
  (node_key gs1 = node_key gs2 ↔
   board gs1 = board gs2 ∧ active_player gs1 = active_player gs2).
Proof.
  intros (Hwf1 & fin1 & Hfin1 & Hact1)%reachable_inv
         (Hwf2 & fin2 & Hfin2 & Hact2)%reachable_inv.
  destruct gs1 as [b1 a1], gs2 as [b2 a2]. simpl in *.
  destruct (board_view _ Hwf1) as (c0&c1&c2&c3&c4&c5&c6&c7&c8&->).
  destruct (board_view _ Hwf2) as (d0&d1&d2&d3&d4&d5&d6&d7&d8&->).
  split; [rewrite node_key_board_of; eauto|].
  split.
  - rewrite !node_key_board_of. intros [= Hk].
    apply node_key_board_of_inj in Hk. injection Hk as -> -> -> -> -> -> -> -> ->.
    split; [done|].
    change (is_finished (mkGameState (board_of [d0; d1; d2; d3; d4; d5; d6; d7; d8]) a1))
      with (is_finished (mkGameState (board_of [d0; d1; d2; d3; d4; d5; d6; d7; d8]) a2)) in Hfin1.
    rewrite Hfin1 in Hfin2. injection Hfin2 as <-. congruence.
  - intros [-> ->]. reflexivity.
Qed.

Lemma filterM_Ok {A} (f : A → result bool) l l' :
  filterM f l = Ok l' → ∀ x, x ∈ l' ↔ x ∈ l ∧ f x = Ok true.
Proof.
  revert l'. induction l as [|a l IH]; intros l'; simpl.
  - intros [= <-] x. rewrite elem_of_nil. tauto.
  - intros Hb. apply bind_Ok in Hb as (keep & Hkeep & Hb).
    apply bind_Ok in Hb as (rest & Hrest & [= <-]).
    intros x. specialize (IH _ Hrest x). destruct keep.
    + rewrite !elem_of_cons, IH. split; [|tauto].
      intros [->|[??]]; auto.
    + rewrite elem_of_cons, IH. split; [tauto|].
      intros [[->|?] ?]; [congruence|done].
Qed.

Lemma filterM_total {A} (f : A → result bool) l :
  (∀ x, x ∈ l → ∃ b, f x = Ok b) → ∃ l', filterM f l = Ok l'.
Proof.
  induction l as [|a l IH]; intros Hf; simpl; [by eexists|].
  destruct (Hf a) as [b ->]; [by left|]. simpl.
  destruct IH as [l' ->]; [intros; apply Hf; by right|]. simpl. eauto.
Qed.

Lemma is_legal_move_total gs coord :
  wf_board (board gs) → coord ∈ all_coords →
  ∃ b, is_legal_move gs coord = Ok b.
Proof.
  intros Hwf Hc. unfold is_legal_move.
  rewrite (coords_in_range _ Hc). simpl.
  destruct gs as [b a]. destruct (is_finished_wf b a Hwf) as [fin ->]. simpl.
  destruct fin; [eauto|].
  assert (is_Some (b !! coord)) as [f Hf].
  { apply elem_of_dom. rewrite Hwf. by apply elem_of_coords_set. }
  unfold getitem. simpl. rewrite Hf. simpl. eauto.
Qed.

Lemma all_legal_moves_total gs :
  wf_board (board gs) → ∃ moves, all_legal_moves gs = Ok moves.
Proof.
  intros Hwf. apply filterM_total. intros c Hc. by apply is_legal_move_total.
Qed.

Lemma all_legal_moves_legal gs moves coord :
  all_legal_moves gs = Ok moves →
  coord ∈ moves ↔ is_legal_move gs coord = Ok true.
Proof.
  intros Hm. rewrite (filterM_Ok _ _ _ Hm coord). split; [tauto|].
  intros Hl. split; [|done]. by apply is_legal_move_true in Hl as [? _].
Qed.

(** No move is legal on a finished state, and none onto an occupied
    field. *)
Lemma finished_no_legal_move gs moves coord :
  is_finished gs = Ok true → all_legal_moves gs = Ok moves → coord ∉ moves.
Proof.
  intros Hfin Hm Hin. apply (all_legal_moves_legal _ _ _ Hm) in Hin.
  apply is_legal_move_true in Hin as (_ & Hnf & _). congruence.
Qed.

Lemma occupied_no_legal_move gs moves coord p :
  board gs !! coord = Some (Some p) → all_legal_moves gs = Ok moves →
  coord ∉ moves.
Proof.
  intros Hocc Hm Hin. apply (all_legal_moves_legal _ _ _ Hm) in Hin.
  apply is_legal_move_true in Hin as (_ & _ & Hf). congruence.
Qed.

Lemma node_key_wf gs : wf_board (board gs) → ∃ k, node_key gs = Ok k.
Proof.
  destruct gs as [b a]. simpl.
  intros (c0&c1&c2&c3&c4&c5&c6&c7&c8&->)%board_view.
  rewrite node_key_board_of. eauto.
Qed.

Lemma play_snoc moves coord :
  play (moves ++ [coord]) = gs <- play moves;; make_move gs coord.
Proof. unfold play. by rewrite foldl_app. Qed.

Lemma reachable_play moves : ∀ gs, play moves = Ok gs → reachable gs.
Proof.
  induction moves as [|coord moves IH] using rev_ind; intros gs.
  - intros [= <-]. constructor.
  - rewrite play_snoc. intros (gs0 & H0 & Hmv)%bind_Ok.
    eapply reachable_move; eauto.
Qed.

(** ** More of the adapter: lines, turns, moves and the picture *)

Lemma is_winner_board_of_eq c0 c1 c2 c3 c4 c5 c6 c7 c8 a p :
  is_winner (mkGameState (board_of [c0; c1; c2; c3; c4; c5; c6; c7; c8]) a) p =
  Ok (py_any [py_any [py_all [owns p c0; owns p c3; owns p c6];
                      py_all [owns p c1; owns p c4; owns p c7];
                      py_all [owns p c2; owns p c5; owns p c8]];
              py_any [py_all [owns p c0; owns p c1; owns p c2];
                      py_all [owns p c3; owns p c4; owns p c5];
                      py_all [owns p c6; owns p c7; owns p c8]];
              py_all [owns p c0; owns p c4; owns p c8];
              py_all [owns p c2; owns p c4; owns p c6]]).
Proof. reflexivity. Qed.

Lemma forall_three {A} (P : A → Prop) a1 a2 a3 :
  (∀ c, c ∈ [a1; a2; a3] → P c) ↔ P a1 ∧ P a2 ∧ P a3.
Proof.
  split.
  - intros H. repeat split; apply H; set_solver.
  - intros (? & ? & ?) c Hc.
    repeat (apply elem_of_cons in Hc as [->|Hc]); [done..|].
    by apply elem_of_nil in Hc.
Qed.

Lemma has_line_board_of c0 c1 c2 c3 c4 c5 c6 c7 c8 p :
  has_line (board_of [c0; c1; c2; c3; c4; c5; c6; c7; c8]) p ↔
  py_any [py_any [py_all [owns p c0; owns p c3; owns p c6];
                  py_all [owns p c1; owns p c4; owns p c7];
                  py_all [owns p c2; owns p c5; owns p c8]];
          py_any [py_all [owns p c0; owns p c1; owns p c2];
                  py_all [owns p c3; owns p c4; owns p c5];
                  py_all [owns p c6; owns p c7; owns p c8]];
          py_all [owns p c0; owns p c4; owns p c8];
          py_all [owns p c2; owns p c4; owns p c6]] = true.
Proof.
  unfold py_any, py_all, owns, id. simpl.
  rewrite !orb_false_r, !andb_true_r.
  rewrite !orb_true_iff, !andb_true_iff, !bool_decide_eq_true.
  split.
  - intros (line & Hin & Hl). unfold lines in Hin.
    repeat (apply elem_of_cons in Hin as [->|Hin]);
      [..|by apply elem_of_nil in Hin];
      apply forall_three in Hl as (H1 & H2 & H3);
      vm_compute in H1, H2, H3;
      injection H1 as ->; injection H2 as ->; injection H3 as ->; tauto.
  - intros H.
    assert (∀ a1 a2 a3,
              [a1; a2; a3] ∈ lines →
              board_of [c0; c1; c2; c3; c4; c5; c6; c7; c8] !! a1 = Some (Some p) →
              board_of [c0; c1; c2; c3; c4; c5; c6; c7; c8] !! a2 = Some (Some p) →
              board_of [c0; c1; c2; c3; c4; c5; c6; c7; c8] !! a3 = Some (Some p) →
              has_line (board_of [c0; c1; c2; c3; c4; c5; c6; c7; c8]) p) as Hline.
    { intros a1 a2 a3 Hl ? ? ?. exists [a1; a2; a3]. split; [done|].
      by apply forall_three. }
    destruct H as [[H|[H|H]]|[[H|[H|H]]|[H|H]]]; destruct H as (-> & -> & ->).
    + apply (Hline (0, 0) (1, 0) (2, 0)); [by (unfold lines; repeat constructor)|done..].
    + apply (Hline (0, 1) (1, 1) (2, 1)); [by (unfold lines; repeat constructor)|done..].
    + apply (Hline (0, 2) (1, 2) (2, 2)); [by (unfold lines; repeat constructor)|done..].
    + apply (Hline (0, 0) (0, 1) (0, 2)); [by (unfold lines; repeat constructor)|done..].
    + apply (Hline (1, 0) (1, 1) (1, 2)); [by (unfold lines; repeat constructor)|done..].
    + apply (Hline (2, 0) (2, 1) (2, 2)); [by (unfold lines; repeat constructor)|done..].
    + apply (Hline (0, 0) (1, 1) (2, 2)); [by (unfold lines; repeat constructor)|done..].
    + apply (Hline (0, 2) (1, 1) (2, 0)); [by (unfold lines; repeat constructor)|done..].
Qed.

Lemma is_winner_has_line gs p :
  wf_board (board gs) →
  ∃ r, is_winner gs p = Ok r ∧ (r = true ↔ has_line (board gs) p).
Proof.
  destruct gs as [b a]. simpl.
  intros (c0&c1&c2&c3&c4&c5&c6&c7&c8&->)%board_view.
  rewrite is_winner_board_of_eq. eexists. split; [reflexivity|].
  symmetry. apply has_line_board_of.
Qed.

(** X1. [is_winner] on a board with the nine fields returns, and it
    returns true exactly when one of the eight lines (three rows, three
    columns, two diagonals) is held by the player throughout; whose turn
    it is plays no part. *)
Theorem is_winner_lines gs p :
  wf_board (board gs) →
  ∃ r, is_winner gs p = Ok r ∧
       (r = true ↔ has_line (board gs) p) ∧
       ∀ a, is_winner (mkGameState (board gs) a) p = Ok r.
Proof.
  intros Hwf. destruct (is_winner_has_line gs p Hwf) as (r & Hr & Hiff).
  exists r. split; [done|]. split; [done|]. intros a.
  destruct gs as [b a0]. exact Hr.
Qed.

Lemma is_winner_lines_witness :
  ∃ r, is_winner x_won_state PLAYER_X = Ok r ∧
       (r = true ↔ has_line (board x_won_state) PLAYER_X) ∧
       ∀ a, is_winner (mkGameState (board x_won_state) a) PLAYER_X = Ok r.
Proof. apply (is_winner_lines x_won_state PLAYER_X). apply dom_board_of. Defined.

Lemma has_line_insert b coord p q :
  p ≠ q → has_line (<[coord := Some p]> b) q → has_line b q.
Proof.
  intros Hpq (line & Hin & Hl). exists line. split; [done|].
  intros c Hc. specialize (Hl c Hc).
  destruct (decide (coord = c)) as [->|Hne].
  - rewrite lookup_insert_eq in Hl. congruence.
  - by rewrite lookup_insert_ne in Hl.
Qed.

Lemma reachable_wf gs : reachable gs → wf_board (board gs).
Proof. by intros [? _]%reachable_inv. Qed.

Lemma is_finished_false_no_line gs p :
  wf_board (board gs) → is_finished gs = Ok false → ¬ has_line (board gs) p.
Proof.
  intros Hwf Hfin Hline.
  destruct (is_finished_Ok _ _ Hfin) as (wx & wo & Hx & Ho & Hno).
  destruct (Hno eq_refl) as [-> ->]. specialize (Ho eq_refl).
  destruct (is_winner_has_line gs p Hwf) as (r & Hr & Hiff).
  apply Hiff in Hline as ->. destruct p; congruence.
Qed.

Lemma reachable_step_view gs coord gs' :
  reachable gs → make_move gs coord = Ok gs' →
  ∃ p, coord ∈ all_coords ∧ is_finished gs = Ok false ∧
       board gs !! coord = Some None ∧
       active_player gs = Some p ∧ p = to_move (filled (board gs)) ∧
       board gs' = <[coord := Some p]> (board gs).
Proof.
  intros (Hwf & fin & Hfin & Hact)%reachable_inv Hmv.
  apply make_move_Ok in Hmv as (Hl & Hb & _).
  apply is_legal_move_true in Hl as (Hc & Hnf & Hf).
  rewrite Hnf in Hfin. injection Hfin as <-.
  eexists. repeat split; try done. by rewrite Hb, Hact.
Qed.

(** X2. In a state reached from the starting state by legal moves at
    most one player holds a line: the game stops with the first line, and a
    move only adds a mark of the player who makes it. *)
Theorem single_winner gs :
  reachable gs →
  ¬ (is_winner gs PLAYER_X = Ok true ∧ is_winner gs PLAYER_O = Ok true).
Proof.
  intros Hr. assert (H : ¬ (has_line (board gs) PLAYER_X ∧
                            has_line (board gs) PLAYER_O)).
  { induction Hr as [|gs coord gs' Hr _ Hmv].
    - intros [(line & Hin & Hl) _]. unfold lines in Hin.
      repeat (apply elem_of_cons in Hin as [->|Hin]);
        [..|by apply elem_of_nil in Hin];
        apply forall_three in Hl as (H1 & _); vm_compute in H1; discriminate.
    - destruct (reachable_step_view _ _ _ Hr Hmv)
        as (p & Hc & Hnf & Hf & Hact & _ & Hb).
      rewrite Hb. intros [Hx Ho].
      destruct p.
      + apply has_line_insert in Ho; [|done].
        by apply (is_finished_false_no_line gs PLAYER_O (reachable_wf _ Hr) Hnf).
      + apply has_line_insert in Hx; [|done].
        by apply (is_finished_false_no_line gs PLAYER_X (reachable_wf _ Hr) Hnf). }
  intros [Hx Ho]. apply H.
  destruct (is_winner_has_line gs PLAYER_X (reachable_wf _ Hr)) as (rx & Hrx & Hix).
  destruct (is_winner_has_line gs PLAYER_O (reachable_wf _ Hr)) as (ro & Hro & Hio).
  split; [apply Hix|apply Hio]; congruence.
Qed.

Lemma single_winner_witness :
  ¬ (is_winner x_won_state PLAYER_X = Ok true ∧
     is_winner x_won_state PLAYER_O = Ok true).
Proof.
  apply (single_winner x_won_state).
  apply (reachable_play x_wins_moves). exact play_x_wins.
Defined.

Lemma filled_board_of c0 c1 c2 c3 c4 c5 c6 c7 c8 :
  filled (board_of [c0; c1; c2; c3; c4; c5; c6; c7; c8]) =
  (is_filled c0 + (is_filled c1 + (is_filled c2 + (is_filled c3 +
   (is_filled c4 + (is_filled c5 + (is_filled c6 + (is_filled c7 +
   (is_filled c8 + 0)))))))))%nat.
Proof. reflexivity. Qed.

Lemma is_filled_le f : (is_filled f ≤ 1)%nat.
Proof. destruct f; simpl; lia. Qed.

Lemma py_all_fmap {A} (f : A → bool) (l : list A) :
  py_all (f <$> l) = true ↔ ∀ x, x ∈ l → f x = true.
Proof.
  unfold py_all. induction l as [|a l IH]; simpl.
  - split; [|done]. by intros _ ? ?%elem_of_nil.
  - rewrite andb_true_iff, IH. unfold id. split.
    + intros [? ?] x [->|?]%elem_of_cons; auto.
    + intros H. split; [apply H; by left|]. intros x ?. apply H. by right.
Qed.

Lemma board_full_finished gs :
  wf_board (board gs) →
  (∀ c, c ∈ all_coords → ∃ p, board gs !! c = Some (Some p)) →
  is_finished gs = Ok true.
Proof.
  intros Hwf Hfull. unfold is_finished.
  set (board_full := py_all _).
  assert (board_full = true) as ->.
  { apply py_all_fmap. intros f ((c & f') & -> & Hin)%list_elem_of_fmap.
    apply elem_of_map_to_list in Hin. simpl.
    destruct (Hfull c) as [p Hp].
    - apply elem_of_coords_set. rewrite <- Hwf. by apply elem_of_dom_2 in Hin.
    - apply bool_decide_eq_true. congruence. }
  destruct (is_winner_has_line gs PLAYER_X Hwf) as (rx & -> & _).
  destruct (is_winner_has_line gs PLAYER_O Hwf) as (ro & Ho & _). simpl.
  destruct rx; simpl; [done|]. rewrite Ho. simpl.
  by rewrite orb_true_r.
Qed.

Lemma filled_le b : (filled b ≤ 9)%nat.
Proof.
  unfold filled, all_coords, range3. simpl.
  repeat match goal with
         | |- context [from_option is_filled 0%nat ?o] =>
             let n := fresh "n" in
             let E := fresh "E" in
             assert (from_option is_filled 0%nat o ≤ 1)%nat as E
               by (destruct o as [[?|]|]; simpl; lia);
             generalize dependent (from_option is_filled 0%nat o); intros n E
         end.
  lia.
Qed.

Lemma filled_full b :
  wf_board b → filled b = 9%nat →
  ∀ c, c ∈ all_coords → ∃ p, b !! c = Some (Some p).
Proof.
  intros (c0&c1&c2&c3&c4&c5&c6&c7&c8&->)%board_view.
  rewrite filled_board_of. intros Hsum.
  pose proof (is_filled_le c0). pose proof (is_filled_le c1).
  pose proof (is_filled_le c2). pose proof (is_filled_le c3).
  pose proof (is_filled_le c4). pose proof (is_filled_le c5).
  pose proof (is_filled_le c6). pose proof (is_filled_le c7).
  pose proof (is_filled_le c8).
  assert (is_filled c0 = 1%nat) by lia. assert (is_filled c1 = 1%nat) by lia.
  assert (is_filled c2 = 1%nat) by lia. assert (is_filled c3 = 1%nat) by lia.
  assert (is_filled c4 = 1%nat) by lia. assert (is_filled c5 = 1%nat) by lia.
  assert (is_filled c6 = 1%nat) by lia. assert (is_filled c7 = 1%nat) by lia.
  assert (is_filled c8 = 1%nat) by lia.
  destruct c0; [|discriminate]. destruct c1; [|discriminate].
  destruct c2; [|discriminate]. destruct c3; [|discriminate].
  destruct c4; [|discriminate]. destruct c5; [|discriminate].
  destruct c6; [|discriminate]. destruct c7; [|discriminate].
  destruct c8; [|discriminate].
  intros c Hc. unfold all_coords, range3 in Hc. simpl in Hc.
  repeat (apply elem_of_cons in Hc as [->|Hc]); [..|by apply elem_of_nil in Hc];
    eexists; reflexivity.
Qed.

Lemma play_filled moves : ∀ gs,
  play moves = Ok gs → filled (board gs) = length moves.
Proof.
  induction moves as [|coord moves IH] using rev_ind; intros gs.
  - intros [= <-]. reflexivity.
  - rewrite play_snoc. intros (gs0 & H0 & Hmv)%bind_Ok.
    destruct (reachable_step_view _ _ _ (reachable_play _ _ H0) Hmv)
      as (p & Hc & _ & Hf & _ & _ & ->).
    rewrite (filled_insert _ _ _ Hc Hf), (IH _ H0), length_app. simpl. lia.
Qed.

(** X3. A game lasts at most nine moves: a state reached by a sequence
    of accepted moves has as many occupied fields as moves were made, no
    sequence of more than nine moves is accepted, and after nine moves the
    game is finished. *)
Theorem game_length moves gs :
  play moves = Ok gs →
  filled (board gs) = length moves ∧
  (length moves ≤ 9)%nat ∧
  (length moves = 9%nat → is_finished gs = Ok true).
Proof.
  intros Hplay. pose proof (play_filled _ _ Hplay) as Hf.
  split; [done|]. split.
  - rewrite <- Hf. apply filled_le.
  - intros H9. pose proof (reachable_wf _ (reachable_play _ _ Hplay)) as Hwf.
    apply board_full_finished; [done|].
    apply filled_full; [done|congruence].
Qed.

Lemma game_length_witness :
  filled (board drawn_state) = length draw_moves ∧
  (length draw_moves ≤ 9)%nat ∧
  (length draw_moves = 9%nat → is_finished drawn_state = Ok true).
Proof. apply (game_length draw_moves drawn_state). exact play_draw. Defined.

Lemma filter_ext_in {A} (P P' : A → Prop)
    `{∀ x, Decision (P x), ∀ x, Decision (P' x)} (l : list A) :
  (∀ x, x ∈ l → P' x ↔ P x) → filter P' l = filter P l.
Proof.
  induction l as [|a l IH]; intros HP; [done|]. rewrite !filter_cons.
  rewrite IH by (intros x ?; apply HP; by right).
  assert (P' a ↔ P a) as Ha by (apply HP; by left).
  destruct (decide (P a)), (decide (P' a)); tauto.
Qed.

Lemma filter_length_add {A} (P P' : A → Prop)
    `{∀ x, Decision (P x), ∀ x, Decision (P' x)} (l : list A) (c : A) :
  NoDup l → c ∈ l → ¬ P c → (∀ x, P' x ↔ P x ∨ x = c) →
  length (filter P' l) = S (length (filter P l)).
Proof.
  intros Hnd Hc Hnc HP'. induction l as [|a l IH]; [by apply elem_of_nil in Hc|].
  apply NoDup_cons in Hnd as [Ha Hnd]. rewrite !filter_cons.
  pose proof (HP' a) as Hpa.
  apply elem_of_cons in Hc as [->|Hc].
  - destruct (decide (P a)), (decide (P' a)); [tauto..| |tauto].
    simpl. f_equal. f_equal. apply filter_ext_in.
    intros x Hx. rewrite HP'. split; [|auto].
    intros [?| ->]; done.
  - assert (a ≠ c) by (intros ->; done).
    destruct (decide (P a)), (decide (P' a)); [|tauto..|]; simpl;
      by rewrite IH.
Qed.

Lemma NoDup_all_coords : NoDup all_coords.
Proof.
  unfold all_coords, range3. simpl.
  repeat (apply NoDup_cons; split; [set_solver|]). apply NoDup_nil_2.
Qed.

Lemma marks_insert_same b coord p :
  coord ∈ all_coords → b !! coord = Some None →
  marks p (<[coord := Some p]> b) = S (marks p b).
Proof.
  intros Hc Hb. apply (filter_length_add _ _ _ coord).
  - apply NoDup_all_coords.
  - done.
  - congruence.
  - intros c. destruct (decide (coord = c)) as [->|Hne].
    + rewrite lookup_insert_eq. split; auto.
    + rewrite lookup_insert_ne by done. split; [auto|]. intros [?|?]; congruence.
Qed.

Lemma marks_insert_other b coord p q :
  p ≠ q → b !! coord = Some None →
  marks q (<[coord := Some p]> b) = marks q b.
Proof.
  intros Hpq Hb. unfold marks. f_equal. apply list_filter_iff. intros c.
  destruct (decide (coord = c)) as [->|Hne].
  - rewrite lookup_insert_eq, Hb. split; congruence.
  - by rewrite lookup_insert_ne.
Qed.

(** X4. The players alternate, X first: in a state reached by [n]
    accepted moves the marks of the two players add up to [n], and X has
    as many marks as O after an even number of moves and one more after an
    odd number. *)
Theorem turn_order moves gs :
  play moves = Ok gs →
  (marks PLAYER_X (board gs) + marks PLAYER_O (board gs))%nat = length moves ∧
  marks PLAYER_X (board gs) =
    (marks PLAYER_O (board gs) + if Nat.even (length moves) then 0 else 1)%nat.
Proof.
  revert gs. induction moves as [|coord moves IH] using rev_ind; intros gs.
  - intros [= <-]. split; reflexivity.
  - rewrite play_snoc. intros (gs0 & H0 & Hmv)%bind_Ok.
    destruct (reachable_step_view _ _ _ (reachable_play _ _ H0) Hmv)
      as (p & Hc & _ & Hf & _ & Hp & ->).
    destruct (IH _ H0) as [Hsum Hdiff].
    rewrite (play_filled _ _ H0) in Hp. unfold to_move in Hp.
    rewrite length_app. simpl length.
    replace (length moves + 1)%nat with (S (length moves)) by lia.
    rewrite Nat.even_succ, <- Nat.negb_even.
    destruct (Nat.even (length moves)); subst p; simpl.
    + rewrite (marks_insert_same _ _ _ Hc Hf).
      rewrite (marks_insert_other _ _ PLAYER_X PLAYER_O) by done. lia.
    + rewrite (marks_insert_same _ _ _ Hc Hf).
      rewrite (marks_insert_other _ _ PLAYER_O PLAYER_X) by done. lia.
Qed.

Lemma turn_order_witness :
  (marks PLAYER_X (board x_won_state) + marks PLAYER_O (board x_won_state))%nat
    = length x_wins_moves ∧
  marks PLAYER_X (board x_won_state) =
    (marks PLAYER_O (board x_won_state) +
     if Nat.even (length x_wins_moves) then 0 else 1)%nat.
Proof. apply (turn_order x_wins_moves x_won_state). exact play_x_wins. Defined.

(** X5. A coordinate outside the board fails the assertion of
    [is_legal_move] whatever the state is, and [make_move] passes the
    [AssertionError] on: its own [ValueError] is for coordinates on the
    board only. *)
Theorem out_of_range_assertion gs coord :
  ¬ (0 ≤ coord.1 ≤ 2 ∧ 0 ≤ coord.2 ≤ 2) →
  is_legal_move gs coord = Raise AssertionError ∧
  make_move gs coord = Raise AssertionError.
Proof.
  intros Hout.
  assert (is_legal_move gs coord = Raise AssertionError) as Hl.
  { unfold is_legal_move.
    destruct (_ && _) eqn:Hr; [|reflexivity]. exfalso. apply Hout.
    repeat (apply andb_prop in Hr as [Hr ?]). lia. }
  split; [done|]. unfold make_move. by rewrite Hl.
Qed.

Lemma out_of_range_assertion_witness :
  is_legal_move x_won_state (3, 0) = Raise AssertionError ∧
  make_move x_won_state (3, 0) = Raise AssertionError.
Proof. apply (out_of_range_assertion x_won_state (3, 0)). simpl. lia. Defined.

Lemma is_legal_move_false gs coord :
  is_legal_move gs coord = Ok false →
  is_finished gs = Ok true ∨ ∃ p, board gs !! coord = Some (Some p).
Proof.
  unfold is_legal_move. destruct (negb _); [discriminate|].
  intros (fin & Hfin & H)%bind_Ok. destruct fin; [by left|].
  apply bind_Ok in H as (field & Hf & [= H]).
  apply bool_decide_eq_false in H. unfold getitem in Hf.
  destruct (board gs !! coord) as [f|]; [|discriminate].
  injection Hf as ->. destruct field as [p|]; [|done]. right. eauto.
Qed.

Lemma wf_board_insert b coord f :
  wf_board b → coord ∈ all_coords → wf_board (<[coord := f]> b).
Proof.
  unfold wf_board. intros Hwf Hc. rewrite dom_insert_L, Hwf.
  apply elem_of_coords_set in Hc.
  by apply subseteq_union_1_L, singleton_subseteq_l.
Qed.

(** X6. On a board with the nine fields and for a coordinate on the
    board, [make_move] either returns the state in which that one field,
    empty before, holds the player who moved and every other field is as
    it was, or it raises [ValueError], and it raises exactly when the game
    is finished or the field is occupied. *)
Theorem make_move_outcome gs coord :
  wf_board (board gs) → coord ∈ all_coords →
  match make_move gs coord with
  | Ok gs' =>
      is_finished gs = Ok false ∧ board gs !! coord = Some None ∧
      board gs' !! coord = Some (active_player gs) ∧
      (∀ c, c ≠ coord → board gs' !! c = board gs !! c) ∧
      wf_board (board gs')
  | Raise e =>
      e = ValueError ∧
      (is_finished gs = Ok true ∨ ∃ p, board gs !! coord = Some (Some p))
  end.
Proof.
  intros Hwf Hc.
  destruct (is_legal_move_total gs coord Hwf Hc) as [[] Hl].
  - destruct (make_move_legal gs coord Hwf Hl) as [gs' Hmv]. rewrite Hmv.
    apply make_move_Ok in Hmv as (_ & Hb & _).
    apply is_legal_move_true in Hl as (_ & Hnf & Hf).
    rewrite Hb. split; [done|]. split; [done|].
    split; [by rewrite lookup_insert_eq|].
    split; [by intros c ?; rewrite lookup_insert_ne|].
    by apply wf_board_insert.
  - unfold make_move. rewrite Hl. simpl. split; [done|].
    by apply is_legal_move_false.
Qed.

Lemma make_move_outcome_witness :
  match make_move starting_state (1, 1) with
  | Ok gs' =>
      is_finished starting_state = Ok false ∧
      board starting_state !! (1, 1) = Some None ∧
      board gs' !! (1, 1) = Some (active_player starting_state) ∧
      (∀ c, c ≠ (1, 1) → board gs' !! c = board starting_state !! c) ∧
      wf_board (board gs')
  | Raise e =>
      e = ValueError ∧
      (is_finished starting_state = Ok true ∨
       ∃ p, board starting_state !! (1, 1) = Some (Some p))
  end.
Proof.
  apply (make_move_outcome starting_state (1, 1)).
  - reflexivity.
  - unfold all_coords, range3. simpl. repeat constructor.
Defined.

Lemma filterM_NoDup {A} (f : A → result bool) l l' :
  filterM f l = Ok l' → NoDup l → NoDup l'.
Proof.
  revert l'. induction l as [|a l IH]; intros l'; simpl.
  - by intros [= <-].
  - intros (keep & Hkeep & Hb)%bind_Ok.
    apply bind_Ok in Hb as (rest & Hrest & [= <-]).
    intros [Ha Hnd]%NoDup_cons. specialize (IH _ Hrest Hnd).
    destruct keep; [|done]. apply NoDup_cons. split; [|done].
    intros Hin. apply (filterM_Ok _ _ _ Hrest) in Hin as [? _]. done.
Qed.

Lemma py_all_fmap_false {A} (f : A → bool) (l : list A) :
  py_all (f <$> l) = false → ∃ x, x ∈ l ∧ f x = false.
Proof.
  unfold py_all. induction l as [|a l IH]; simpl; [done|].
  unfold id at 1. destruct (f a) eqn:Hfa; simpl.
  - intros (x & ? & ?)%IH. exists x. split; [by right|done].
  - intros _. exists a. split; [by left|done].
Qed.

Lemma unfinished_empty_field gs :
  wf_board (board gs) → is_finished gs = Ok false →
  ∃ c, c ∈ all_coords ∧ board gs !! c = Some None.
Proof.
  intros Hwf. unfold is_finished.
  intros (wx & _ & H)%bind_Ok. apply bind_Ok in H as (pw & _ & [= H]).
  apply orb_false_elim in H as [_ H].
  apply py_all_fmap_false in H as (f & Hin & Hf).
  apply list_elem_of_fmap in Hin as ((c & f') & -> & Hin).
  apply elem_of_map_to_list in Hin. simpl in Hf.
  apply bool_decide_eq_false in Hf.
  exists c. split.
  - apply elem_of_coords_set. rewrite <- Hwf. by apply elem_of_dom_2 in Hin.
  - destruct f' as [p|]; [|done]. exfalso. by apply Hf.
Qed.

(** X7. On a board with the nine fields [all_legal_moves] returns, without
    repetition, exactly the empty fields of an unfinished game; the list is
    empty exactly when the game is finished, and [make_move] accepts every
    move of the list. *)
Theorem all_legal_moves_complete gs :
  wf_board (board gs) →
  ∃ moves,
    all_legal_moves gs = Ok moves ∧ NoDup moves ∧
    (∀ c, c ∈ moves ↔
          c ∈ all_coords ∧ is_finished gs = Ok false ∧
          board gs !! c = Some None) ∧
    (moves = [] ↔ is_finished gs = Ok true) ∧
    (∀ c, c ∈ moves → ∃ gs', make_move gs c = Ok gs').
Proof.
  intros Hwf. destruct (all_legal_moves_total gs Hwf) as [moves Hm].
  exists moves. split; [done|].
  assert (Hin : ∀ c, c ∈ moves ↔
            c ∈ all_coords ∧ is_finished gs = Ok false ∧
            board gs !! c = Some None).
  { intros c. rewrite (all_legal_moves_legal _ _ _ Hm).
    apply is_legal_move_true. }
  split; [exact (filterM_NoDup _ _ _ Hm NoDup_all_coords)|].
  split; [done|]. split.
  - destruct gs as [b a]. destruct (is_finished_wf b a Hwf) as [fin Hfin].
    split.
    + intros ->. destruct fin; [done|].
      destruct (unfinished_empty_field _ Hwf Hfin) as (c & Hc & Hf).
      assert (c ∈ []) as []%elem_of_nil. apply Hin. done.
    + intros Ht. destruct moves as [|c moves]; [done|].
      assert (c ∈ c :: moves) as (_ & Hnf & _)%Hin by left. congruence.
  - intros c Hc. apply make_move_legal; [done|].
    by apply (all_legal_moves_legal _ _ _ Hm).
Qed.

Lemma all_legal_moves_complete_witness :
  ∃ moves,
    all_legal_moves x_won_state = Ok moves ∧ NoDup moves ∧
    (∀ c, c ∈ moves ↔
          c ∈ all_coords ∧ is_finished x_won_state = Ok false ∧
          board x_won_state !! c = Some None) ∧
    (moves = [] ↔ is_finished x_won_state = Ok true) ∧
    (∀ c, c ∈ moves → ∃ gs', make_move x_won_state c = Ok gs').
Proof. apply (all_legal_moves_complete x_won_state). apply dom_board_of. Defined.

(** X8. From a state reached by legal moves, two different moves lead
    to states with different keys: the successor map of a node has one
    successor node for each legal move. *)
Theorem moves_lead_to_distinct_keys gs coord1 coord2 gs1 gs2 :
  reachable gs →
  make_move gs coord1 = Ok gs1 → make_move gs coord2 = Ok gs2 →
  coord1 ≠ coord2 → node_key gs1 ≠ node_key gs2.
Proof.
  intros Hr Hmv1 Hmv2 Hne Hk.
  pose proof (reachable_wf _ (reachable_move _ _ _ Hr Hmv1)) as Hwf1.
  pose proof (reachable_wf _ (reachable_move _ _ _ Hr Hmv2)) as Hwf2.
  destruct (reachable_step_view _ _ _ Hr Hmv1)
    as (p & _ & _ & Hf1 & _ & _ & Hb1).
  destruct (reachable_step_view _ _ _ Hr Hmv2) as (p2 & _ & _ & _ & _ & _ & Hb2).
  assert (board gs1 = board gs2) as Hb.
  { destruct gs1 as [b1 a1], gs2 as [b2 a2]. simpl in *.
    destruct (board_view _ Hwf1) as (c0&c1&c2&c3&c4&c5&c6&c7&c8&E1).
    destruct (board_view _ Hwf2) as (d0&d1&d2&d3&d4&d5&d6&d7&d8&E2).
    rewrite E1, E2 in Hk |- *. rewrite !node_key_board_of in Hk.
    injection Hk as Hk. apply node_key_board_of_inj in Hk.
    by injection Hk as -> -> -> -> -> -> -> -> ->. }
  assert (board gs1 !! coord1 = Some (Some p)) as H1
    by (by rewrite Hb1, lookup_insert_eq).
  rewrite Hb, Hb2, lookup_insert_ne in H1 by done.
  congruence.
Qed.

Lemma moves_lead_to_distinct_keys_witness :
  node_key Examples.centre_state ≠ node_key corner_state.
Proof.
  apply (moves_lead_to_distinct_keys starting_state (1, 1) (0, 0)).
  - constructor.
  - reflexivity.
  - reflexivity.
  - discriminate.
Defined.

(** X9. On a board with the nine fields [evaluate] returns: both values
    are 0 while the game is not finished, the player named by [winner]
    gets 1 and the opponent -1, and no value lies outside [-1, 1]. *)
Theorem evaluate_outcome gs :
  wf_board (board gs) →
  ∃ ev,
    evaluate gs = Ok ev ∧
    (is_finished gs = Ok false → (ev PLAYER_X == 0)%Q ∧ (ev PLAYER_O == 0)%Q) ∧
    (∀ p, winner gs = Ok (Some p) →
          (ev p == 1)%Q ∧ (ev (other p) == -1)%Q) ∧
    (∀ p, (-1 <= ev p)%Q ∧ (ev p <= 1)%Q).
Proof.
  intros Hwf.
  destruct (is_winner_has_line gs PLAYER_X Hwf) as (rx & Hx & _).
  destruct (is_winner_has_line gs PLAYER_O Hwf) as (ro & Ho & _).
  destruct gs as [b a]. destruct (is_finished_wf b a Hwf) as [fin Hfin].
  destruct (is_finished_Ok _ _ Hfin) as (wx & wo & Hx' & _ & Hno).
  assert (wx = rx) as -> by congruence.
  unfold evaluate, winner. rewrite Hfin, Hx. simpl.
  destruct fin; simpl.
  - destruct rx; simpl.
    + eexists. split; [reflexivity|]. split; [discriminate|]. split.
      * intros p [= <-]. split; reflexivity.
      * intros []; split; discriminate.
    + rewrite Ho. simpl. destruct ro; simpl.
      * eexists. split; [reflexivity|]. split; [discriminate|]. split.
        -- intros p [= <-]. split; reflexivity.
        -- intros []; split; discriminate.
      * eexists. split; [reflexivity|]. split; [discriminate|]. split.
        -- intros p [=].
        -- intros []; split; discriminate.
  - destruct (Hno eq_refl) as [-> _]. simpl.
    eexists. split; [reflexivity|]. split; [split; reflexivity|]. split.
    + intros p. rewrite Ho. simpl. destruct ro; [|discriminate].
      exfalso. destruct (is_finished_Ok _ _ Hfin) as (? & wo' & ? & Ho' & Hno').
      destruct (Hno' eq_refl) as [-> ->]. specialize (Ho' eq_refl). congruence.
    + intros []; split; discriminate.
Qed.

Lemma evaluate_outcome_witness :
  ∃ ev,
    evaluate drawn_state = Ok ev ∧
    (is_finished drawn_state = Ok false →
       (ev PLAYER_X == 0)%Q ∧ (ev PLAYER_O == 0)%Q) ∧
    (∀ p, winner drawn_state = Ok (Some p) →
          (ev p == 1)%Q ∧ (ev (other p) == -1)%Q) ∧
    (∀ p, (-1 <= ev p)%Q ∧ (ev p <= 1)%Q).
Proof. apply (evaluate_outcome drawn_state). apply dom_board_of. Defined.

Lemma length_player_symbol_append f s :
  String.length (player_symbol f +:+ s) = S (String.length s).
Proof. by destruct f as [[]|]. Qed.

Lemma length_player_symbol f : String.length (player_symbol f) = 1%nat.
Proof. by destruct f as [[]|]. Qed.

Lemma getitem_Some b coord f : b !! coord = Some f → getitem b coord = Ok f.
Proof. unfold getitem. by intros ->. Qed.

Lemma getitem_None b coord : b !! coord = None → getitem b coord = Raise KeyError.
Proof. unfold getitem. by intros ->. Qed.

Lemma mapM_getitem_KeyError {B} (g : option player → B) b l :
  (∃ c, c ∈ l ∧ b !! c = None) →
  mapM (λ c, g <$> getitem b c) l = Raise KeyError.
Proof.
  induction l as [|a l IH]; [by intros (? & ?%elem_of_nil & _)|].
  intros (c & Hc & Hb).
  change (mapM ?f (a :: l))
    with (bind (f a) (λ y, bind (mapM f l) (λ ys, Ok (y :: ys)))).
  destruct (b !! a) as [f|] eqn:Ha.
  - rewrite (getitem_Some _ _ _ Ha). simpl. rewrite IH; [done|].
    exists c. split; [|done]. apply elem_of_cons in Hc as [->|?]; [congruence|done].
  - by rewrite (getitem_None _ _ Ha).
Qed.

(** X10. [node_key] reads the nine fields of the board and nothing else:
    when all nine coordinates are keys of the board dict it returns a
    string of nine characters, whatever else the dict holds, and when one
    of them is missing it raises [KeyError]. *)
Theorem node_key_shape gs :
  if decide (coords_set ⊆ dom (board gs))
  then ∃ k, node_key gs = Ok k ∧ String.length k = 9%nat
  else node_key gs = Raise KeyError.
Proof.
  destruct (decide _) as [Hsub|Hsub].
  - assert (Hin : ∀ c, c ∈ all_coords → is_Some (board gs !! c)).
    { intros c Hc. apply elem_of_dom, Hsub. by apply elem_of_coords_set. }
    destruct (Hin (0,0)) as [c0 H0]; [in_coords|].
    destruct (Hin (0,1)) as [c1 H1]; [in_coords|].
    destruct (Hin (0,2)) as [c2 H2]; [in_coords|].
    destruct (Hin (1,0)) as [c3 H3]; [in_coords|].
    destruct (Hin (1,1)) as [c4 H4]; [in_coords|].
    destruct (Hin (1,2)) as [c5 H5]; [in_coords|].
    destruct (Hin (2,0)) as [c6 H6]; [in_coords|].
    destruct (Hin (2,1)) as [c7 H7]; [in_coords|].
    destruct (Hin (2,2)) as [c8 H8]; [in_coords|].
    unfold node_key, all_coords, range3. simpl.
    rewrite (getitem_Some _ _ _ H0), (getitem_Some _ _ _ H1),
      (getitem_Some _ _ _ H2), (getitem_Some _ _ _ H3),
      (getitem_Some _ _ _ H4), (getitem_Some _ _ _ H5),
      (getitem_Some _ _ _ H6), (getitem_Some _ _ _ H7),
      (getitem_Some _ _ _ H8). simpl.
    eexists. split; [reflexivity|].
    repeat (rewrite length_player_symbol_append; change (EmptyString +:+ ?s)%string with s).
    by rewrite length_player_symbol.
  - unfold node_key. rewrite mapM_getitem_KeyError; [done|].
    assert (¬ Forall (λ c, c ∈ dom (board gs)) all_coords) as Hnf.
    { intros Hf. apply Hsub. intros c Hc%elem_of_coords_set.
      by apply (proj1 (Forall_forall _ _) Hf). }
    apply not_Forall_Exists in Hnf; [|apply _].
    apply Exists_exists in Hnf as (c & Hc & Hn).
    exists c. split; [done|]. by apply not_elem_of_dom.
Qed.

Lemma winner_finished gs :
  wf_board (board gs) → is_finished gs = Ok true → ∃ w, winner gs = Ok w.
Proof.
  intros Hwf Hfin. unfold winner.
  destruct (is_winner_has_line gs PLAYER_X Hwf) as (rx & -> & _).
  destruct (is_winner_has_line gs PLAYER_O Hwf) as (ro & -> & _). simpl.
  destruct rx; simpl; [eauto|]. destruct ro; simpl; [eauto|].
  rewrite Hfin. simpl. eauto.
Qed.

Lemma textual_repr_board_of c0 c1 c2 c3 c4 c5 c6 c7 c8 a :
  let gs := mkGameState (board_of [c0; c1; c2; c3; c4; c5; c6; c7; c8]) a in
  ∀ fin, is_finished gs = Ok fin →
  ∃ m,
    textual_repr gs =
    Ok (" " +:+ player_symbol c0 +:+ " | " +:+ player_symbol c3 +:+ " | " +:+
        player_symbol c6 +:+ "
---+---+---
 " +:+ player_symbol c1 +:+ " | " +:+ player_symbol c4 +:+ " | " +:+
        player_symbol c7 +:+ "
---+---+---
 " +:+ player_symbol c2 +:+ " | " +:+ player_symbol c5 +:+ " | " +:+
        player_symbol c8 +:+ "
" +:+ m).
Proof.
  intros gs fin Hfin. unfold textual_repr. rewrite Hfin.
  destruct fin.
  - destruct (winner_finished gs (dom_board_of _ _ _ _ _ _ _ _ _) Hfin)
      as [w Hw].
    exists ("Winner: " +:+ player_symbol w)%string.
    unfold bind at 1. unfold negb. rewrite Hw. reflexivity.
  - exists ("Move: " +:+ player_symbol a)%string. reflexivity.
Qed.

(** X11. [textual_repr] returns on every state reached by legal moves,
    and two such states with the same text are the same state: the
    picture shows all nine fields. *)
Theorem textual_repr_faithful gs1 gs2 :
  reachable gs1 → reachable gs2 →
  (∃ s, textual_repr gs1 = Ok s) ∧
  (textual_repr gs1 = textual_repr gs2 → gs1 = gs2).
Proof.
  intros (Hwf1 & fin1 & Hfin1 & Hact1)%reachable_inv
         (Hwf2 & fin2 & Hfin2 & Hact2)%reachable_inv.
  destruct gs1 as [b1 a1], gs2 as [b2 a2]. simpl in *.
  destruct (board_view _ Hwf1) as (c0&c1&c2&c3&c4&c5&c6&c7&c8&->).
  destruct (board_view _ Hwf2) as (d0&d1&d2&d3&d4&d5&d6&d7&d8&->).
  destruct (textual_repr_board_of _ _ _ _ _ _ _ _ _ _ _ Hfin1) as [m1 E1].
  destruct (textual_repr_board_of _ _ _ _ _ _ _ _ _ _ _ Hfin2) as [m2 E2].
  split; [eauto|]. rewrite E1, E2. intros [= H].
  repeat first [ apply player_symbol_cons_inj in H as [-> H]
               | injection H as H ].
  change (is_finished (mkGameState (board_of [d0; d1; d2; d3; d4; d5; d6; d7; d8]) a1))
    with (is_finished (mkGameState (board_of [d0; d1; d2; d3; d4; d5; d6; d7; d8]) a2))
    in Hfin1.
  assert (fin1 = fin2) as -> by congruence. congruence.
Qed.

Lemma textual_repr_faithful_witness :
  (∃ s, textual_repr starting_state = Ok s) ∧
  (textual_repr starting_state = textual_repr x_won_state →
   starting_state = x_won_state).
Proof.
  apply (textual_repr_faithful starting_state x_won_state).
  - constructor.
  - apply (reachable_play x_wins_moves). exact play_x_wins.
Defined.

(** X12. On a board with the nine fields [is_finished] returns, and the
    game is finished exactly when a player holds a line or no field is
    empty. *)
Theorem is_finished_iff gs :
  wf_board (board gs) →
  ∃ fin, is_finished gs = Ok fin ∧
         (fin = true ↔
          has_line (board gs) PLAYER_X ∨ has_line (board gs) PLAYER_O ∨
          ∀ c, c ∈ all_coords → ∃ p, board gs !! c = Some (Some p)).
Proof.
  intros Hwf. destruct gs as [b a].
  destruct (is_finished_wf b a Hwf) as [fin Hfin]. exists fin. split; [done|].
  split.
  - intros ->. revert Hfin. unfold is_finished.
    destruct (is_winner_has_line (mkGameState b a) PLAYER_X Hwf) as (rx & -> & Hx).
    destruct (is_winner_has_line (mkGameState b a) PLAYER_O Hwf) as (ro & Ho & Ho').
    set (board_full := py_all _). intros Hfin.
    assert (rx = true ∨ ro = true ∨ board_full = true) as [->|[->|Hbf]].
    { revert Hfin. simpl. destruct rx; simpl; [auto|]. rewrite Ho. simpl.
      intros [= Hor]. apply orb_prop in Hor as [?|?]; auto. }
    + left. by apply Hx.
    + right. left. by apply Ho'.
    + right. right. intros c Hc.
      assert (is_Some (b !! c)) as [f Hf].
      { apply elem_of_dom. rewrite Hwf. by apply elem_of_coords_set. }
      unfold board_full in Hbf.
      pose proof (proj1 (py_all_fmap _ _) Hbf f) as Hnn.
      destruct f as [p|]; [eauto|]. exfalso.
      assert (bool_decide (@None player ≠ None) = true) as Hd.
      { apply Hnn. apply list_elem_of_fmap. exists (c, None). split; [done|].
        by apply elem_of_map_to_list. }
      by apply bool_decide_eq_true in Hd.
  - intros Hor. destruct fin; [done|]. exfalso.
    destruct Hor as [Hx|[Ho|Hfull]].
    + by apply (is_finished_false_no_line _ PLAYER_X Hwf Hfin).
    + by apply (is_finished_false_no_line _ PLAYER_O Hwf Hfin).
    + pose proof (board_full_finished _ Hwf Hfull). congruence.
Qed.

Lemma is_finished_iff_witness :
  ∃ fin, is_finished drawn_state = Ok fin ∧
         (fin = true ↔
          has_line (board drawn_state) PLAYER_X ∨
          has_line (board drawn_state) PLAYER_O ∨
          ∀ c, c ∈ all_coords → ∃ p, board drawn_state !! c = Some (Some p)).
Proof. apply (is_finished_iff drawn_state). apply dom_board_of. Defined.

Lemma moves_left_move gs coord gs' :
  reachable gs → make_move gs coord = Ok gs' →
  (moves_left gs' < moves_left gs)%nat.
Proof.
  intros Hr Hmv.
  destruct (reachable_step_view _ _ _ Hr Hmv) as (p & Hc & _ & Hf & _ & _ & Hb).
  unfold moves_left. pose proof (filled_le (board gs')) as Hle.
  rewrite Hb in Hle |- *. rewrite (filled_insert _ _ _ Hc Hf) in Hle |- *. lia.
Qed.

Lemma moves_left_key gs gs' k :
  reachable gs → reachable gs' →
  node_key gs = Ok k → node_key gs' = Ok k →
  moves_left gs = moves_left gs'.
Proof.
  intros Hwf1%reachable_wf Hwf2%reachable_wf.
  destruct gs as [b1 a1], gs' as [b2 a2]. simpl in *.
  destruct (board_view _ Hwf1) as (c0&c1&c2&c3&c4&c5&c6&c7&c8&->).
  destruct (board_view _ Hwf2) as (d0&d1&d2&d3&d4&d5&d6&d7&d8&->).
  rewrite !node_key_board_of. intros [= <-] [= Hk].
  apply node_key_board_of_inj in Hk.
  by injection Hk as -> -> -> -> -> -> -> -> ->.
Qed.

End TicTacToeFacts.

(** * Properties of the engine *)

Section EngineFacts.
Context {State Move Key Score : Type}.
Context `{Countable Move, Countable Key}.
Context `{!GameAdapter State Move Key}.
Context `{!IterationOrder Key}.
Context `{!Scoring State Move Key Score}.

Local Abbreviation Node := (SearchNode State Move Key Score).
Local Abbreviation Table := (gmap Key (SearchNode State Move Key Score)).
Local Abbreviation Engine := (AI State Move Key Score).
Local Abbreviation EM := (M (State:=State) (Move:=Move) (Key:=Key) (Score:=Score)).

Implicit Types (t : Table) (n node : Node) (ai : Engine) (k key : Key).

Lemma same_shape_refl n : same_shape n n.
Proof. by repeat split. Qed.

Lemma same_shape_trans n1 n2 n3 :
  same_shape n1 n2 → same_shape n2 n3 → same_shape n1 n3.
Proof. intros (?&?&?) (?&?&?). repeat split; congruence. Qed.

Lemma bare_new_node s : bare (new_node s).
Proof. by split. Qed.

Lemma bare_same_shape n n' : bare n → same_shape n n' → bare n'.
Proof. intros [??] (?&?&?). split; congruence. Qed.

Lemma bare_no_successors n k : bare n → k ∉ get_successors n.
Proof.
  intros [_ Hs]. unfold get_successors. rewrite Hs, map_img_empty_L.
  apply not_elem_of_empty.
Qed.

Lemma same_shape_successors n n' :
  same_shape n n' → get_successors n = get_successors n'.
Proof. intros (_ & _ & Hs). unfold get_successors. by rewrite Hs. Qed.

Lemma grown_at_refl t k : grown_at t t k.
Proof.
  unfold grown_at. destruct (t !! k) as [n|] eqn:E; [|by left].
  exists n. split; [done|apply same_shape_refl].
Qed.

Lemma grown_at_trans t1 t2 t3 k :
  grown_at t1 t2 k → grown_at t2 t3 k → grown_at t1 t3 k.
Proof.
  unfold grown_at. intros H12 H23.
  destruct (t1 !! k) as [n1|].
  - destruct H12 as (n2 & E2 & S12). rewrite E2 in H23.
    destruct H23 as (n3 & E3 & S23). exists n3. split; [done|].
    by eapply same_shape_trans.
  - destruct H12 as [E2|(n2 & E2 & B2)]; rewrite E2 in H23; [done|].
    destruct H23 as (n3 & E3 & S23). right. exists n3. split; [done|].
    by eapply bare_same_shape.
Qed.

Lemma grown_refl t : grown t t.
Proof. intros k. apply grown_at_refl. Qed.

Lemma grown_trans t1 t2 t3 : grown t1 t2 → grown t2 t3 → grown t1 t3.
Proof. intros H12 H23 k. by eapply grown_at_trans. Qed.

Lemma grown_at_dom t t' k : grown_at t t' k → k ∈ dom t → k ∈ dom t'.
Proof.
  unfold grown_at. intros Hg [n Hn]%elem_of_dom. rewrite Hn in Hg.
  destruct Hg as (n' & Hn' & _). apply elem_of_dom. eauto.
Qed.

Lemma grown_dom t t' : grown t t' → dom t ⊆ dom t'.
Proof. intros Hg k. apply grown_at_dom, Hg. Qed.

Lemma grown_at_insert_ne t t' k k' n :
  k ≠ k' → grown_at t t' k' → grown_at t (<[k := n]> t') k'.
Proof. unfold grown_at. intros Hne. by rewrite lookup_insert_ne. Qed.

Lemma grown_insert_same t k n n' :
  t !! k = Some n → same_shape n n' → grown t (<[k := n']> t).
Proof.
  intros E Hs k'. destruct (decide (k = k')) as [<-|Hne].
  - unfold grown_at. rewrite E, lookup_insert_eq. eauto.
  - apply grown_at_insert_ne; [done|apply grown_at_refl].
Qed.

Lemma grown_insert_new t k n' :
  t !! k = None → bare n' → grown t (<[k := n']> t).
Proof.
  intros E Hb k'. destruct (decide (k = k')) as [<-|Hne].
  - unfold grown_at. rewrite E, lookup_insert_eq. eauto.
  - apply grown_at_insert_ne; [done|apply grown_at_refl].
Qed.

Lemma keyed_insert Reach t k n :
  keyed Reach t → Reach (state n) → _node_key n = Ok k →
  keyed Reach (<[k := n]> t).
Proof.
  intros Hk Hr Hn k' n'. destruct (decide (k = k')) as [<-|Hne].
  - rewrite lookup_insert_eq. by intros [= <-].
  - rewrite lookup_insert_ne by done. apply Hk.
Qed.

(** ** [add_node] on a node fresh from [expand] *)

Lemma add_node_bare Reach s k ai :
  keyed Reach (search_tree ai) →
  Reach s → adapter_node_key s = Ok k →
  ∃ is_new t',
    add_node (new_node s) ai = (Ok is_new, with_search_tree t' ai) ∧
    grown (search_tree ai) t' ∧ keyed Reach t' ∧ is_Some (t' !! k) ∧
    is_new = negb (bool_decide (k ∈ dom (search_tree ai))).
Proof.
  intros Hkeyed Hs Hk. unfold add_node, bindM, lift, _node_key. simpl.
  rewrite Hk. destruct (search_tree ai !! k) as [resident|] eqn:E.
  - destruct (Hkeyed _ _ E) as [Hr Hkr].
    unfold merge, _node_key in *. simpl. rewrite Hkr, Hk. simpl.
    rewrite bool_decide_eq_true_2 by done. unfold set_node, ret. simpl.
    eexists false, _. split; [reflexivity|]. split; [|split; [|split]].
    + eapply grown_insert_same; [done|].
      repeat split; simpl. by rewrite (right_id_L ∅ (∪)).
    + by apply keyed_insert.
    + rewrite lookup_insert_eq. eauto.
    + symmetry. apply negb_false_iff, bool_decide_eq_true_2, elem_of_dom. eauto.
  - unfold set_node, ret. simpl.
    eexists true, _. split; [reflexivity|]. split; [|split; [|split]].
    + apply grown_insert_new; [done|apply bare_new_node].
    + by apply keyed_insert.
    + rewrite lookup_insert_eq. eauto.
    + symmetry. apply negb_true_iff, bool_decide_eq_false_2, not_elem_of_dom, E.
Qed.

(** ** [expand] under a total adapter *)

Lemma mapM_cons {A B} (f : A → result B) (x : A) (l : list A) :
  mapM f (x :: l) = bind (f x) (λ y, bind (mapM f l) (λ ys, Ok (y :: ys))).
Proof. reflexivity. Qed.

Lemma mapM_Ok {A B} (f : A → result B) (l : list A) (l' : list B) :
  mapM f l = Ok l' ↔ Forall2 (λ x y, f x = Ok y) l l'.
Proof.
  revert l'. induction l as [|x l IH]; intros l'.
  - split; [intros [= <-]; constructor | by inversion 1].
  - rewrite mapM_cons. split.
    + destruct (f x) as [y|] eqn:E; simpl; [|done].
      destruct (mapM f l) as [ys|] eqn:E'; simpl; [|done].
      intros [= <-]. constructor; [done|]. by apply IH.
    + inversion 1 as [|? y ? ys Hy Hk]; subst.
      rewrite Hy. simpl. apply IH in Hk. by rewrite Hk.
Qed.

Lemma mapM_total {A B} (f : A → result B) (l : list A) :
  (∀ x, x ∈ l → ∃ y, f x = Ok y) → ∃ l', mapM f l = Ok l'.
Proof.
  induction l as [|x l IH]; intros Hf; [by eexists|].
  destruct (Hf x) as [y Hy]; [left|].
  destruct IH as [l' Hl']; [intros ??; apply Hf; by right|].
  exists (y :: l'). by rewrite mapM_cons, Hy, Hl'.
Qed.

Lemma expand_Ok n n' nodes :
  expand n = Ok (n', nodes) →
  is_expanded n = false ∧
  ∃ moves produced,
    adapter_all_legal_moves (state n) = Ok moves ∧
    produced.*1.*1 = moves ∧ Forall (produced_by n) produced ∧
    n' = mkSearchNode (state n) true
           (list_to_map ((λ mks, (mks.1.1, mks.1.2)) <$> produced)) (score n) ∧
    nodes = produced.*2.
Proof.
  unfold expand. destruct (is_expanded n); [done|]. intros Hx. split; [done|].
  destruct (adapter_all_legal_moves (state n)) as [moves|] eqn:Hm; [|done].
  simpl in Hx. match type of Hx with bind ?m _ = _ => destruct m as [produced|] eqn:Hp end; [|done].
  simpl in Hx. injection Hx as <- <-.
  exists moves, produced. split; [done|].
  apply mapM_Ok in Hp. clear Hm. split; [|split; [|done]].
  - induction Hp as [|m [[m' k] nd] ms ps Hhd _ IH]; [done|]. simpl. f_equal; [|done].
    destruct (adapter_make_move (state n) m) as [s'|]; [|done]. simpl in Hhd.
    destruct (adapter_node_key s'); [|done]. simpl in Hhd. by injection Hhd as -> _ _.
  - induction Hp as [|m [[m' k] nd] ms ps Hhd _ IH]; constructor; [|done].
    destruct (adapter_make_move (state n) m) as [s'|] eqn:Hs; [|done]. simpl in Hhd.
    destruct (adapter_node_key s') as [k'|] eqn:Hk; [|done]. simpl in Hhd.
    injection Hhd as <- <- <-. exists s'. simpl. auto.
Qed.

Lemma expand_total Reach `{!AdapterTotal Reach} n :
  Reach (state n) → is_expanded n = false →
  ∃ n' nodes, expand n = Ok (n', nodes) ∧
    Forall (λ nd, ∃ s' k, nd = new_node s' ∧ Reach s' ∧
                           adapter_node_key s' = Ok k) nodes.
Proof.
  intros Hr Hx. unfold expand. rewrite Hx.
  destruct (legal_moves_total _ Hr) as [moves Hm]. rewrite Hm. simpl.
  match goal with |- context [mapM ?f moves] =>
    destruct (mapM_total f moves) as [produced Hp] end.
  { intros m Hin. destruct (make_move_total _ _ _ Hr Hm Hin) as (s' & Hs' & Hr').
    rewrite Hs'. simpl. destruct (node_key_total _ Hr') as [k Hk].
    rewrite Hk. simpl. eauto. }
  rewrite Hp. simpl. eexists _, _. split; [done|].
  apply mapM_Ok in Hp.
  assert (Hall : ∀ m, m ∈ moves → ∃ s', adapter_make_move (state n) m = Ok s' ∧ Reach s').
  { intros m Hin. eapply make_move_total; eauto. }
  clear Hm.
  induction Hp as [|m [[m' k] nd] ms ps Hhd Htl IH]; constructor.
  - destruct (adapter_make_move (state n) m) as [s'|] eqn:Hs; [|done]. simpl in Hhd.
    destruct (adapter_node_key s') as [k'|] eqn:Hk; [|done]. simpl in Hhd.
    injection Hhd as <- <- <-. exists s', k'. split; [done|]. split; [|done].
    destruct (Hall m) as (s'' & Hs'' & Hr''); [left|]. congruence.
  - apply IH. intros. eapply Hall. by right.
Qed.

Lemma size_insert_pos {V} (m : gmap Key V) k v : (0 < size (<[k := v]> m))%nat.
Proof.
  assert (size (<[k := v]> m) ≠ 0%nat); [|lia].
  apply map_size_non_empty_iff, insert_non_empty.
Qed.

(** ** Running the engine monad *)

Lemma bindM_Ok {A B} (m : EM A) (f : A → EM B) ai a ai' :
  m ai = (Ok a, ai') → bindM m f ai = f a ai'.
Proof. unfold bindM. by intros ->. Qed.

Lemma bindM_Raise {A B} (m : EM A) (f : A → EM B) ai e ai' :
  m ai = (Raise e, ai') → bindM m f ai = (Raise e, ai').
Proof. unfold bindM. by intros ->. Qed.

Lemma bindM_inv {A B} (m : EM A) (f : A → EM B) ai b ai2 :
  bindM m f ai = (Ok b, ai2) →
  ∃ a ai1, m ai = (Ok a, ai1) ∧ f a ai1 = (Ok b, ai2).
Proof.
  unfold bindM. destruct (m ai) as [[a|e] ai1]; [eauto|discriminate].
Qed.

Lemma foldM_cons {A B} (f : B → A → EM B) b x l :
  foldM f b (x :: l) = bindM (f b x) (λ b', foldM f b' l).
Proof. reflexivity. Qed.

Lemma get_node_Some k n ai :
  search_tree ai !! k = Some n → get_node k ai = (Ok n, ai).
Proof. unfold get_node. by intros ->. Qed.

Lemma with_search_tree_id ai : with_search_tree (search_tree ai) ai = ai.
Proof. by destruct ai. Qed.

(** The loop of [expand_single_node] over the nodes that [expand]
    produced. *)
Lemma fold_add_nodes Reach nodes : ∀ ai old new,
  keyed Reach (search_tree ai) →
  Forall (λ nd, ∃ s' k, nd = new_node s' ∧ Reach s' ∧
                        adapter_node_key s' = Ok k) nodes →
  ∃ old' new' t',
    foldM (λ (old_new : Table * Table) successor,
             is_new <~ add_node successor;;
             k <~ lift (_node_key successor);;
             if is_new : bool then
               ret (old_new.1, <[k := successor]> old_new.2)
             else
               resident <~ get_node k;;
               ret (<[k := resident]> old_new.1, old_new.2))
          (old, new) nodes ai
    = (Ok (old', new'), with_search_tree t' ai) ∧
    grown (search_tree ai) t' ∧ keyed Reach t' ∧
    Forall (λ nd, ∀ k, _node_key nd = Ok k → is_Some (t' !! k)) nodes ∧
    ((0 < size old + size new)%nat ∨ nodes ≠ [] →
     (0 < size old' + size new')%nat) ∧
    (nodes = [] → old' = old ∧ new' = new).
Proof.
  induction nodes as [|nd nodes IH]; intros ai old new Hkeyed Hall.
  - exists old, new, (search_tree ai). simpl. unfold ret.
    rewrite with_search_tree_id.
    split; [done|]. split; [apply grown_refl|]. split; [done|].
    split; [constructor|]. split; [by intros [?|?]|done].
  - apply Forall_cons in Hall as [(s' & k & -> & Hr & Hk) Hall].
    destruct (add_node_bare Reach s' k ai Hkeyed Hr Hk)
      as (is_new & t1 & Hadd & Hg1 & Hk1 & [r Hin1] & _).
    rewrite foldM_cons.
    assert (Hhead : ∃ old1 new1,
      (is_new <~ add_node (new_node s');;
       k <~ lift (_node_key (new_node s'));;
       if is_new : bool then
         ret (old, <[k := new_node s']> new)
       else
         resident <~ get_node k;;
         ret (<[k := resident]> old, new)) ai
      = (Ok (old1, new1), with_search_tree t1 ai) ∧
      (0 < size old1 + size new1)%nat).
    { rewrite (bindM_Ok _ _ _ _ _ Hadd).
      erewrite bindM_Ok; last by (unfold lift, _node_key; simpl; rewrite Hk).
      destruct is_new.
      - eexists _, _. split; [reflexivity|].
        pose proof (size_insert_pos new k (new_node s')). lia.
      - erewrite bindM_Ok; last by apply get_node_Some.
        eexists _, _. split; [reflexivity|].
        pose proof (size_insert_pos old k r). lia. }
    destruct Hhead as (old1 & new1 & Hhead & Hpos).
    rewrite (bindM_Ok _ _ _ _ _ Hhead).
    destruct (IH (with_search_tree t1 ai) old1 new1)
      as (old' & new' & t2 & Hfold & Hg2 & Hk2 & Hall2 & Hsz & _); [done..|].
    exists old', new', t2. split; [exact Hfold|].
    split; [by eapply grown_trans|]. split; [done|]. split; [|split; [|done]].
    + constructor; [|done]. intros k' Hk'. unfold _node_key in Hk'. simpl in Hk'.
      assert (k' = k) as -> by congruence.
      apply elem_of_dom, (grown_dom _ _ Hg2), elem_of_dom. simpl. eauto.
    + intros _. apply Hsz. by left.
Qed.

(** ** [expand_single_node] on a resident, unexpanded node *)

Lemma expand_single_node_spec Reach `{!AdapterTotal Reach} key n ai :
  keyed Reach (search_tree ai) →
  search_tree ai !! key = Some n → is_expanded n = false →
  ∃ b t' n' moves,
    expand_single_node key ai = (Ok b, with_search_tree t' ai) ∧
    keyed Reach t' ∧
    t' !! key = Some n' ∧ state n' = state n ∧ is_expanded n' = true ∧
    adapter_all_legal_moves (state n) = Ok moves ∧
    (∀ m, is_Some (successors n' !! m) ↔ m ∈ moves) ∧
    (∀ m k', successors n' !! m = Some k' →
             ∃ s', adapter_make_move (state n) m = Ok s' ∧
                   adapter_node_key s' = Ok k') ∧
    (∀ k', k' ∈ get_successors n' → is_Some (t' !! k')) ∧
    (∀ k, k ≠ key → grown_at (search_tree ai) t' k) ∧
    b = negb (bool_decide (moves = [])).
Proof.
  intros Hkeyed Hn Hx. destruct (Hkeyed _ _ Hn) as [Hr Hkey].
  destruct (expand_total Reach n Hr Hx) as (n1 & nodes & Hexp & Hfresh).
  destruct (expand_Ok _ _ _ Hexp)
    as (_ & moves & produced & Hmoves & Hfst & Hprod & Hn1 & Hnodes).
  unfold expand_single_node.
  rewrite (bindM_Ok _ _ _ _ _ (get_node_Some _ _ _ Hn)).
  erewrite bindM_Ok; last by (unfold lift; rewrite Hexp).
  erewrite bindM_Ok; last by reflexivity.
  set (ai0 := with_search_tree (<[key := n1]> (search_tree ai)) ai).
  assert (Hkeyed0 : keyed Reach (search_tree ai0)).
  { apply keyed_insert; [done|by rewrite Hn1..]. }
  destruct (fold_add_nodes Reach nodes ai0 ∅ ∅ Hkeyed0 Hfresh)
    as (old & new & t1 & Hfold & Hg1 & Hk1 & Hall1 & Hpos & Hnil).
  simpl. erewrite bindM_Ok; last by exact Hfold.
  assert (Hkey1 : ∃ n2, t1 !! key = Some n2 ∧ same_shape n1 n2).
  { specialize (Hg1 key). unfold grown_at in Hg1. simpl in Hg1.
    by rewrite lookup_insert_eq in Hg1. }
  destruct Hkey1 as (n2 & Hn2 & Hs2 & Hx2 & Hsucc2).
  erewrite bindM_Ok; last by (apply get_node_Some; exact Hn2).
  erewrite bindM_Ok; last by reflexivity.
  unfold ret. simpl.
  eexists _, _, _, moves. split; [reflexivity|].
  assert (Hsucc1 : successors n1 =
            list_to_map ((λ mks : Move * Key * Node, (mks.1.1, mks.1.2)) <$> produced))
    by (by rewrite Hn1).
  split; [|split; [|split; [|split; [|split; [|split; [|split; [|split; [|split]]]]]]]].
  - apply keyed_insert; [done|simpl; by rewrite <- Hs2, Hn1|].
    unfold _node_key. simpl. by rewrite <- Hs2, Hn1.
  - by rewrite lookup_insert_eq.
  - simpl. by rewrite <- Hs2, Hn1.
  - simpl. by rewrite <- Hx2, Hn1.
  - done.
  - intros m. simpl. rewrite <- Hsucc2, Hsucc1, <- Hfst. split.
    + intros [k' Hk']. apply elem_of_list_to_map_2 in Hk'.
      apply list_elem_of_fmap in Hk' as ([[m' k''] nd] & [= -> ->] & Hin).
      apply list_elem_of_fmap. exists (m', k'').
      split; [done|]. apply list_elem_of_fmap. by exists (m', k'', nd).
    + intros Hin. apply not_eq_None_Some. intros Hnone.
      apply not_elem_of_list_to_map in Hnone. apply Hnone.
      rewrite <- list_fmap_compose.
      apply list_elem_of_fmap in Hin as ([m' k''] & -> & Hin).
      apply list_elem_of_fmap in Hin as ([[m'' k3] nd] & [= -> ->] & Hin).
      apply list_elem_of_fmap. by exists (m'', k3, nd).
  - intros m k'. simpl. rewrite <- Hsucc2, Hsucc1. intros Hk'.
    apply elem_of_list_to_map_2 in Hk'.
    apply list_elem_of_fmap in Hk' as ([[m' k''] nd] & [= -> ->] & Hin).
    rewrite Forall_forall in Hprod. destruct (Hprod _ Hin) as (s' & ? & ? & _).
    eauto.
  - intros k'. unfold get_successors. simpl. rewrite <- Hsucc2, Hsucc1.
    intros [m Hk']%elem_of_map_img.
    apply elem_of_list_to_map_2 in Hk'.
    apply list_elem_of_fmap in Hk' as ([[m' k''] nd] & [= -> ->] & Hin).
    rewrite Forall_forall in Hprod. destruct (Hprod _ Hin) as (s' & _ & Hk'' & Hnd).
    simpl in *. rewrite Forall_forall in Hall1.
    assert (is_Some (t1 !! k'')) as [r Hr1].
    { apply (Hall1 nd); [|unfold _node_key; by rewrite Hnd].
      rewrite Hnodes. apply list_elem_of_fmap. by exists (m', k'', nd). }
    destruct (decide (key = k'')) as [<-|Hne].
    + rewrite lookup_insert_eq. eauto.
    + rewrite lookup_insert_ne by done. eauto.
  - intros k Hne. apply grown_at_insert_ne; [done|].
    specialize (Hg1 k). unfold grown_at in *. simpl in Hg1.
    by rewrite lookup_insert_ne in Hg1.
  - destruct produced as [|p produced].
    + simpl in *. subst. destruct (Hnil eq_refl) as [-> ->].
      by rewrite !map_size_empty.
    + simpl in Hfst. subst moves nodes.
      rewrite bool_decide_eq_false_2 by done. simpl.
      apply Nat.ltb_lt. apply Hpos. by right.
Qed.

Lemma closed_after_expand t t' key n' :
  successor_closed t → t' !! key = Some n' →
  (∀ k', k' ∈ get_successors n' → is_Some (t' !! k')) →
  (∀ k, k ≠ key → grown_at t t' k) →
  successor_closed t'.
Proof.
  intros Hcl Hkey Hsucc Hframe_all k k' (n'' & Hn'' & Hk').
  destruct (decide (k = key)) as [->|Hne].
  - apply elem_of_dom, Hsucc. congruence.
  - pose proof (Hframe_all k Hne) as Hframe. unfold grown_at in Hframe.
    destruct (t !! k) as [n|] eqn:E.
    + destruct Hframe as (n3 & E3 & Hshape).
      assert (n3 = n'') as -> by congruence.
      rewrite <- (same_shape_successors _ _ Hshape) in Hk'.
      assert (Hd : k' ∈ dom t) by (apply (Hcl k); by exists n).
      destruct (decide (k' = key)) as [->|Hne'].
      * apply elem_of_dom. eauto.
      * apply (grown_at_dom t t' k'); [by apply Hframe_all|done].
    + destruct Hframe as [E3|(n3 & E3 & Hbare)]; [congruence|].
      assert (n3 = n'') as -> by congruence.
      by apply bare_no_successors in Hk'.
Qed.

(** ** [BaseAI.make_move] *)

(** The table once the current node has been expanded if it was not: the
    state in which [make_move] looks the move up. *)
Lemma BaseAI_make_move_run Reach `{!AdapterTotal Reach} move ai n :
  keyed Reach (search_tree ai) →
  search_tree ai !! current_state ai = Some n →
  ∃ t1 n1 moves,
    BaseAI_make_move move ai =
      match successors n1 !! move with
      | Some next => (Ok tt, with_current_state next (with_search_tree t1 ai))
      | None => (Raise IllegalMoveError, with_search_tree t1 ai)
      end ∧
    keyed Reach t1 ∧
    t1 !! current_state ai = Some n1 ∧ state n1 = state n ∧
    (∀ k, k ≠ current_state ai → grown_at (search_tree ai) t1 k) ∧
    (successor_closed (search_tree ai) → successor_closed t1) ∧
    (is_expanded n = true → t1 = search_tree ai ∧ n1 = n) ∧
    (is_expanded n = false →
       (∃ b, expand_single_node (current_state ai) ai =
               (Ok b, with_search_tree t1 ai)) ∧
       adapter_all_legal_moves (state n) = Ok moves ∧
       ∀ m, is_Some (successors n1 !! m) ↔ m ∈ moves).
Proof.
  intros Hkeyed Hn. unfold BaseAI_make_move.
  rewrite (bindM_Ok _ _ _ _ _ (get_node_Some _ _ _ Hn)).
  destruct (is_expanded n) eqn:Hx.
  - exists (search_tree ai), n, []. split.
    + erewrite bindM_Ok; last by reflexivity.
      rewrite (bindM_Ok _ _ _ _ _ (get_node_Some _ _ _ Hn)).
      unfold get_successor. destruct (successors n !! move).
      * erewrite bindM_Ok; last by reflexivity.
        by rewrite with_search_tree_id.
      * erewrite bindM_Raise; last by reflexivity.
        by rewrite with_search_tree_id.
    + split; [done|]. split; [done|]. split; [done|].
      split; [intros; apply grown_at_refl|]. split; [done|].
      split; [done|]. intros ?; congruence.
  - destruct (expand_single_node_spec Reach _ _ _ Hkeyed Hn Hx)
      as (b & t1 & n1 & moves & Hexp & Hk1 & Hn1 & Hs1 & Hx1 & Hmoves & Hdom
          & _ & Hsucc & Hframe & _).
    exists t1, n1, moves. split.
    + rewrite (bindM_Ok _ _ _ _ _ Hexp).
      erewrite bindM_Ok; last by (apply get_node_Some; exact Hn1).
      unfold get_successor. destruct (successors n1 !! move).
      * by erewrite bindM_Ok; last by reflexivity.
      * by erewrite bindM_Raise; last by reflexivity.
    + split; [done|]. split; [done|]. split; [done|]. split; [done|].
      split; [intros; by eapply closed_after_expand|].
      split; [done|]. intros _. eauto.
Qed.

(** ** The reachability sweep of [NaivePruningMixin.make_move] *)

Section pruning.
Context `{!IterationOrderLaws Key}.

Lemma successors_of_edge t k k' : k' ∈ successors_of t k ↔ edge t k k'.
Proof.
  unfold successors_of, edge. destruct (t !! k) as [n|]; simpl.
  - split; [eauto|]. by intros (? & [= <-] & ?).
  - split; [by rewrite elem_of_empty|]. by intros (? & [=] & _).
Qed.

Lemma closed_hull_reach t (hull : gset Key) c k :
  (∀ a b, a ∈ hull → edge t a b → b ∈ hull) →
  c ∈ hull → rtc (edge t) c k → k ∈ hull.
Proof. intros Hcl Hc Hrtc. induction Hrtc; eauto. Qed.

Lemma transitive_hull_loop_spec t c fuel : ∀ hull frontier,
  successor_closed t →
  frontier ⊆ dom t → hull ⊆ dom t → hull ## frontier →
  (∀ a b, a ∈ hull → edge t a b → b ∈ hull ∪ frontier) →
  (∀ k, k ∈ hull ∪ frontier → rtc (edge t) c k) →
  c ∈ hull ∪ frontier →
  (size (dom t ∖ hull) < fuel)%nat →
  ∃ hull',
    transitive_hull_loop fuel t hull frontier = Some (Ok hull') ∧
    ∀ k, k ∈ hull' ↔ rtc (edge t) c k.
Proof.
  induction fuel as [|fuel IH];
    intros hull frontier Hcl Hfr Hhull Hdisj Hedges Hreach Hc Hfuel.
  - lia.
  - simpl. case_bool_decide as Hempty.
    + exists hull. split; [done|]. subst frontier. intros k. split.
      * intros Hk. apply Hreach. apply elem_of_union. by left.
      * apply closed_hull_reach.
        -- intros a b Ha Hab. specialize (Hedges a b Ha Hab).
           apply elem_of_union in Hedges as [?|[]%elem_of_empty]. done.
        -- apply elem_of_union in Hc as [?|[]%elem_of_empty]. done.
    + destruct (set_pop_elem frontier Hempty) as (e & -> & He).
      assert (He_dom : e ∈ dom t) by (by apply Hfr).
      assert (He_hull : e ∉ hull) by (intros ?; by apply (Hdisj e)).
      destruct (proj1 (elem_of_dom _ _) He_dom) as [node Hnode].
      rewrite Hnode.
      assert (HS : ∀ k, k ∈ filter (λ node_key, node_key ∉ hull ∪ {[e]})
                              (get_successors node)
                        ↔ (k ∉ hull ∪ {[e]}) ∧ edge t e k).
      { intros k. rewrite elem_of_filter. split; intros [? Hk]; (split; [done|]).
        - by exists node.
        - destruct Hk as (n' & Hn' & Hk). congruence. }
      set (S := filter _ (get_successors node)) in *. clearbody S.
      apply IH; try done.
      * intros k [Hk|Hk]%elem_of_union.
        -- apply Hfr. by apply elem_of_difference in Hk as [? _].
        -- apply HS in Hk as [_ Hk]. by apply Hcl with e.
      * intros k [Hk|Hk%elem_of_singleton]%elem_of_union; [by apply Hhull|].
        by subst.
      * intros k Hk [Hk'|Hk']%elem_of_union.
        -- apply elem_of_difference in Hk' as [Hk1 Hk2].
           apply elem_of_union in Hk as [Hk|Hk]; [by apply (Hdisj k)|done].
        -- apply HS in Hk' as [Hk' _]. done.
      * intros a b Ha Hab.
        destruct (decide (b ∈ hull ∪ {[e]})) as [Hb|Hb];
          [apply elem_of_union; by left|].
        apply elem_of_union. right. apply elem_of_union.
        apply elem_of_union in Ha as [Ha|Ha%elem_of_singleton].
        -- specialize (Hedges a b Ha Hab).
           apply elem_of_union in Hedges as [Hb'|Hb'].
           ++ destruct Hb. apply elem_of_union. by left.
           ++ left. apply elem_of_difference. split; [done|].
              intros Hbe. apply Hb. apply elem_of_union. by right.
        -- subst a. right. by apply HS.
      * intros k Hk. rewrite !elem_of_union, elem_of_singleton in Hk.
        destruct Hk as [[Hk|Hk]|[Hk|Hk]].
        -- apply Hreach. apply elem_of_union. by left.
        -- subst k. apply Hreach. apply elem_of_union. by right.
        -- apply Hreach. apply elem_of_union. right.
           by apply elem_of_difference in Hk as [? _].
        -- apply HS in Hk as [_ Hk]. eapply rtc_r; [|exact Hk].
           apply Hreach. apply elem_of_union. by right.
      * clear -Hc. destruct (decide (c = e)); set_solver.
      * assert (dom t ∖ (hull ∪ {[e]}) ⊂ dom t ∖ hull) as Hlt%subset_size; [|lia].
        clear -He_dom He_hull. set_solver.
Qed.

Lemma elem_of_set_iter (s : gset Key) k : k ∈ set_iter s ↔ k ∈ s.
Proof. by rewrite (set_iter_perm s), elem_of_elements. Qed.

Lemma prune_lookup t (hull : gset Key) k :
  foldr delete t (set_iter (dom t ∖ hull)) !! k =
  if decide (k ∈ hull) then t !! k else None.
Proof.
  destruct (decide (k ∈ hull)) as [Hk|Hk].
  - apply lookup_foldr_delete_not_elem_of.
    rewrite elem_of_set_iter, elem_of_difference. tauto.
  - destruct (t !! k) as [n|] eqn:E.
    + apply lookup_foldr_delete. rewrite elem_of_set_iter, elem_of_difference.
      split; [|done]. apply elem_of_dom. eauto.
    + rewrite lookup_foldr_delete_not_elem_of; [done|].
      rewrite elem_of_set_iter, elem_of_difference, elem_of_dom, E.
      intros [[? [=]] _].
Qed.

Lemma reach_dom t c k :
  successor_closed t → c ∈ dom t → rtc (edge t) c k → k ∈ dom t.
Proof. intros Hcl Hc Hr. induction Hr as [|a b d Hab _ IH]; eauto. Qed.

(** The pruning step proper, on the table as the committed move left
    it. *)
Lemma NaivePruning_make_move_spec fuel (super : EM unit) ai ai1 :
  super ai = (Ok tt, ai1) →
  successor_closed (search_tree ai1) →
  current_state ai1 ∈ dom (search_tree ai1) →
  (size (search_tree ai1) < fuel)%nat →
  ∃ t' hull,
    transitive_hull_loop fuel (search_tree ai1) ∅ {[current_state ai1]} =
      Some (Ok hull) ∧
    NaivePruning_make_move fuel super ai =
      Some (Ok tt, with_search_tree t' ai1) ∧
    (∀ k, k ∈ dom t' ↔ rtc (edge (search_tree ai1)) (current_state ai1) k) ∧
    (∀ k, k ∈ dom t' → t' !! k = search_tree ai1 !! k) ∧
    successor_closed t' ∧
    (size t' ≤ size (search_tree ai1))%nat.
Proof.
  intros Hsuper Hcl Hc Hfuel. unfold NaivePruning_make_move. rewrite Hsuper.
  destruct (transitive_hull_loop_spec (search_tree ai1) (current_state ai1)
              fuel ∅ {[current_state ai1]}) as (hull & Hloop & Hhull); try done.
  - by apply singleton_subseteq_l.
  - intros k Hk. rewrite (left_id_L ∅ (∪)) in Hk.
    apply elem_of_singleton in Hk as ->. done.
  - rewrite (left_id_L ∅ (∪)). by apply elem_of_singleton.
  - by rewrite difference_empty_L, size_dom.
  - rewrite Hloop. eexists _, hull. split; [done|]. split; [reflexivity|].
    assert (Hdom : ∀ k, k ∈ dom (foldr delete (search_tree ai1)
                     (set_iter (dom (search_tree ai1) ∖ hull))) ↔ k ∈ hull).
    { intros k. rewrite elem_of_dom, prune_lookup. destruct (decide (k ∈ hull)) as [Hk|Hk].
      - split; [done|]. intros _. apply elem_of_dom.
        eapply reach_dom; [done..|]. by apply Hhull.
      - split; [by intros [? [=]]|done]. }
    split; [|split; [|split]].
    + intros k. by rewrite Hdom, Hhull.
    + intros k Hk%Hdom. rewrite prune_lookup. by destruct (decide _).
    + intros k k' (n & Hn & Hk'). rewrite prune_lookup in Hn.
      destruct (decide (k ∈ hull)) as [Hk|]; [|done].
      apply Hdom, Hhull. eapply rtc_r; [by apply Hhull|]. by exists n.
    + apply map_subseteq_size, map_subseteq_spec. intros k n.
      rewrite prune_lookup. by destruct (decide _).
Qed.

Lemma closed_grown t t' : successor_closed t → grown t t' → successor_closed t'.
Proof.
  intros Hcl Hg k k' (n' & Hn' & Hk'). pose proof (Hg k) as Hgk.
  unfold grown_at in Hgk. destruct (t !! k) as [n|] eqn:E.
  - destruct Hgk as (n3 & E3 & Hshape). assert (n3 = n') as -> by congruence.
    rewrite <- (same_shape_successors _ _ Hshape) in Hk'.
    apply (grown_dom _ _ Hg), (Hcl k). by exists n.
  - destruct Hgk as [E3|(n3 & E3 & Hbare)]; [congruence|].
    assert (n3 = n') as -> by congruence. by apply bare_no_successors in Hk'.
Qed.

(** ** [OneStepSearchMixin] *)

Lemma elem_of_dict_iter {V} (m : gmap Key V) k : k ∈ dict_iter m ↔ is_Some (m !! k).
Proof.
  rewrite (dict_iter_perm V m), <- elem_of_dom, dom_alt, elem_of_list_to_set.
  done.
Qed.

Lemma NoDup_dict_iter {V} (m : gmap Key V) : NoDup (dict_iter m).
Proof. rewrite (dict_iter_perm V m). apply NoDup_fst_map_to_list. Qed.

Lemma elem_of_unexpanded_nodes ai k :
  k ∈ unexpanded_nodes ai ↔
  (is_expanded <$> search_tree ai !! k) = Some false.
Proof.
  unfold unexpanded_nodes. rewrite list_elem_of_filter, elem_of_dict_iter.
  split; [tauto|]. intros Hk. split; [done|].
  destruct (search_tree ai !! k); [eauto|done].
Qed.

Lemma NoDup_unexpanded_nodes ai : NoDup (unexpanded_nodes ai).
Proof. apply NoDup_filter, NoDup_dict_iter. Qed.

Section claims.
Context (Reach : State → Prop) `{!AdapterTotal Reach}.

Lemma successors_nonempty_iff n (moves : list Move) :
  (∀ m, is_Some (successors n !! m) ↔ m ∈ moves) →
  successors n ≠ ∅ ↔ negb (bool_decide (moves = [])) = true.
Proof.
  intros Hiff. destruct moves as [|m moves].
  - rewrite bool_decide_eq_true_2 by done. simpl. split; [|done].
    intros Hne. exfalso. apply Hne. apply map_empty. intros m.
    apply eq_None_not_Some. rewrite Hiff. apply not_elem_of_nil.
  - rewrite bool_decide_eq_false_2 by done. simpl. split; [done|].
    intros _ Hempty. assert (is_Some (successors n !! m)) as [k Hk]
      by (apply Hiff; left).
    by rewrite Hempty, lookup_empty in Hk.
Qed.

(** The loop of [OneStepSearchMixin.step_search_tree_expansion] over a
    list of resident, unexpanded nodes. *)
Lemma fold_expand keys : ∀ ai has0,
  keyed Reach (search_tree ai) → NoDup keys →
  (∀ k, k ∈ keys → (is_expanded <$> search_tree ai !! k) = Some false) →
  ∃ has t',
    foldM (λ has_expanded key,
             r <~ expand_single_node key;; ret (r || has_expanded))
          has0 keys ai = (Ok has, with_search_tree t' ai) ∧
    keyed Reach t' ∧
    (∀ k, k ∈ keys → ∃ n', t' !! k = Some n' ∧ is_expanded n' = true) ∧
    (∀ k, k ∉ keys → grown_at (search_tree ai) t' k) ∧
    (has = true ↔
     has0 = true ∨
     ∃ k n', k ∈ keys ∧ t' !! k = Some n' ∧ successors n' ≠ ∅).
Proof.
  induction keys as [|k keys IH]; intros ai has0 Hkeyed Hnd Hun.
  - exists has0, (search_tree ai). simpl. unfold ret.
    rewrite with_search_tree_id. split; [done|]. split; [done|].
    split; [by intros ? ?%elem_of_nil|]. split; [intros; apply grown_at_refl|].
    split; [by left|]. intros [?|(? & ? & ?%elem_of_nil & _)]; done.
  - apply NoDup_cons in Hnd as [Hk Hnd].
    assert (∃ n, search_tree ai !! k = Some n ∧ is_expanded n = false)
      as (n & Hn & Hx).
    { specialize (Hun k (list_elem_of_here _ _)).
      destruct (search_tree ai !! k) as [n|]; [|done].
      exists n. split; [done|]. by injection Hun. }
    destruct (expand_single_node_spec Reach _ _ _ Hkeyed Hn Hx)
      as (b & t1 & n1 & moves & Hexp & Hk1 & Hn1 & _ & Hx1 & _ & Hiff & _ & _
          & Hframe & Hb).
    destruct (IH (with_search_tree t1 ai) (b || has0)) as
      (has & t' & Hfold & Hk' & Hall & Hframe' & Hhas); [done..| |].
    { intros k' Hk'. simpl. assert (k' ≠ k) as Hne by (by intros ->).
      pose proof (Hframe k' Hne) as Hg. unfold grown_at in Hg.
      specialize (Hun k' (list_elem_of_further _ _ _ Hk')).
      destruct (search_tree ai !! k') as [n'|]; [|done].
      destruct Hg as (n'' & -> & _ & Hx' & _). simpl in *. congruence. }
    simpl in Hframe'.
    assert (Hk_final : ∃ n', t' !! k = Some n' ∧ same_shape n1 n').
    { pose proof (Hframe' k Hk) as Hg. unfold grown_at in Hg.
      by rewrite Hn1 in Hg. }
    destruct Hk_final as (n' & Hn' & Hshape).
    exists has, t'. rewrite foldM_cons.
    erewrite bindM_Ok;
      last by (erewrite bindM_Ok; [reflexivity|exact Hexp]).
    split; [exact Hfold|]. split; [done|]. split; [|split].
    + intros k' [->|Hin]%elem_of_cons; [|by apply Hall].
      exists n'. split; [done|]. destruct Hshape as (_ & <- & _). done.
    + intros k' Hnotin. apply not_elem_of_cons in Hnotin as [Hne Hnotin].
      eapply grown_at_trans; [by apply Hframe|by apply Hframe'].
    + rewrite Hhas. rewrite orb_true_iff.
      assert (Hbn : b = true ↔ successors n' ≠ ∅).
      { destruct Hshape as (_ & _ & <-). rewrite Hb.
        symmetry. by apply successors_nonempty_iff. }
      split.
      * intros [[Hbt|?]|(k' & n'' & Hin & Hn'' & Hne)]; [|by left|].
        -- right. exists k, n'. split; [left|]. split; [done|]. by apply Hbn.
        -- right. exists k', n''. split; [by right|]. done.
      * intros [?|(k' & n'' & [->|Hin]%elem_of_cons & Hn'' & Hne)].
        -- left. by right.
        -- left. left. apply Hbn. congruence.
        -- right. by exists k', n''.
Qed.

(** What one call of the One-Step-All step does to the table. *)
Lemma OneStep_spec ai :
  keyed Reach (search_tree ai) →
  ∃ b t',
    OneStep_step_search_tree_expansion ai = (Ok b, with_search_tree t' ai) ∧
    keyed Reach t' ∧
    (∀ k, (is_expanded <$> search_tree ai !! k) = Some false →
          (is_expanded <$> t' !! k) = Some true) ∧
    (∀ k, (is_expanded <$> search_tree ai !! k) ≠ Some false →
          grown_at (search_tree ai) t' k) ∧
    (b = true ↔
     ∃ k n', (is_expanded <$> search_tree ai !! k) = Some false ∧
             t' !! k = Some n' ∧ successors n' ≠ ∅).
Proof.
  intros Hkeyed. unfold OneStep_step_search_tree_expansion.
  destruct (fold_expand (unexpanded_nodes ai) ai false Hkeyed)
    as (b & t' & Hfold & Hk' & Hall & Hframe & Hb).
  { apply NoDup_unexpanded_nodes. }
  { intros k. by rewrite elem_of_unexpanded_nodes. }
  exists b, t'. split; [done|]. split; [done|]. split; [|split].
  - intros k Hk%elem_of_unexpanded_nodes.
    destruct (Hall k Hk) as (n' & -> & Hx). simpl. by rewrite Hx.
  - intros k Hk. apply Hframe. by rewrite elem_of_unexpanded_nodes.
  - rewrite Hb. split.
    + intros [?|(k & n' & Hin%elem_of_unexpanded_nodes & ?)]; [done|eauto].
    + intros (k & n' & Hin%elem_of_unexpanded_nodes & ?). eauto.
Qed.


(** ** [FullExpansionMixin] over the One-Step-All step *)

Lemma elem_of_expanded_keys t k :
  k ∈ expanded_keys t ↔ ∃ n, t !! k = Some n ∧ is_expanded n = true.
Proof.
  unfold expanded_keys. rewrite elem_of_dom. split.
  - intros [n [Hn Hx]%map_lookup_filter_Some]. eauto.
  - intros (n & Hn & Hx). exists n. by apply map_lookup_filter_Some.
Qed.

Lemma py_any_fmap {A} (f : A → bool) (l : list A) :
  py_any (f <$> l) = true ↔ ∃ x, x ∈ l ∧ f x = true.
Proof.
  unfold py_any. induction l as [|a l IH]; simpl.
  - split; [done|]. by intros (? & ?%elem_of_nil & _).
  - rewrite orb_true_iff, IH. unfold id. split.
    + intros [?|(x & ? & ?)]; [exists a; split; [left|done]|].
      exists x. split; [by right|done].
    + intros (x & [->|?]%elem_of_cons & ?); [by left|]. right. eauto.
Qed.

Lemma any_unexpanded_true ai :
  any_unexpanded ai = true ↔
  ∃ k, (is_expanded <$> search_tree ai !! k) = Some false.
Proof.
  unfold any_unexpanded. rewrite py_any_fmap. split.
  - intros (n & Hin & Hx). apply list_elem_of_fmap in Hin as ([k n'] & -> & Hin).
    apply elem_of_map_to_list in Hin. exists k. rewrite Hin. simpl in *.
    by destruct (is_expanded n').
  - intros (k & Hk). destruct (search_tree ai !! k) as [n|] eqn:E; [|done].
    exists n. split.
    + apply list_elem_of_fmap. exists (k, n). split; [done|].
      by apply elem_of_map_to_list.
    + injection Hk as ->. done.
Qed.

Lemma Full_OneStep_terminates (U : gset Key) :
  (∀ s k, Reach s → adapter_node_key s = Ok k → k ∈ U) →
  ∀ m ai,
    keyed Reach (search_tree ai) →
    (size (U ∖ expanded_keys (search_tree ai)) ≤ m)%nat →
    ∃ t',
      (∀ fuel, (m ≤ fuel)%nat →
         Full_expand_search_tree OneStep_step_search_tree_expansion fuel ai =
           Some (Ok tt, with_search_tree t' ai)) ∧
      any_unexpanded (with_search_tree t' ai) = false.
Proof.
  intros HU. induction m as [|m IH]; intros ai Hkeyed Hm.
  - exists (search_tree ai). rewrite with_search_tree_id.
    assert (Hnone : any_unexpanded ai = false).
    { apply not_true_is_false. intros (k & Hk)%any_unexpanded_true.
      destruct (search_tree ai !! k) as [n|] eqn:E; [|done].
      injection Hk as Hx. destruct (Hkeyed _ _ E) as [Hr Hkey].
      assert (k ∈ U ∖ expanded_keys (search_tree ai)) as Hin.
      { apply elem_of_difference. split; [by eapply HU|].
        intros (n' & ? & ?)%elem_of_expanded_keys. congruence. }
      assert (size (U ∖ expanded_keys (search_tree ai)) = 0%nat) as Hz by lia.
      apply size_empty_inv in Hz. apply leibniz_equiv in Hz.
      rewrite Hz in Hin. by apply elem_of_empty in Hin. }
    split; [|done]. intros [|fuel] _; simpl; by rewrite Hnone.
  - destruct (any_unexpanded ai) eqn:Hany.
    + apply any_unexpanded_true in Hany as (k0 & Hk0).
      destruct (OneStep_spec ai Hkeyed) as (b & t1 & Hstep & Hk1 & Hun & Hframe & _).
      destruct (IH (with_search_tree t1 ai)) as (t' & Hfull & Hdone); [done| |].
      { simpl.
        assert (U ∖ expanded_keys t1 ⊂ U ∖ expanded_keys (search_tree ai))
          as Hlt%subset_size; [|lia].
        assert (Hmono : expanded_keys (search_tree ai) ⊆ expanded_keys t1).
        { intros k (n & Hn & Hx)%elem_of_expanded_keys.
          apply elem_of_expanded_keys.
          pose proof (Hframe k) as Hg. unfold grown_at in Hg. rewrite Hn in Hg.
          destruct Hg as (n' & Hn' & _ & Hx' & _); [simpl; by rewrite Hx|].
          exists n'. split; [done|congruence]. }
        assert (Hk0U : k0 ∈ U).
        { destruct (search_tree ai !! k0) as [n|] eqn:E; [|done].
          destruct (Hkeyed _ _ E). by eapply HU. }
        assert (Hk0new : k0 ∈ expanded_keys t1).
        { apply elem_of_expanded_keys. specialize (Hun k0 Hk0).
          destruct (t1 !! k0) as [n|]; [|done]. exists n.
          split; [done|]. by injection Hun. }
        assert (Hk0old : k0 ∉ expanded_keys (search_tree ai)).
        { intros (n & Hn & Hx)%elem_of_expanded_keys. rewrite Hn in Hk0.
          simpl in Hk0. congruence. }
        clear -Hmono Hk0U Hk0new Hk0old. set_solver. }
      exists t'. split; [|done]. intros [|fuel] Hfuel; [lia|].
      simpl. assert (any_unexpanded ai = true) as ->
        by (apply any_unexpanded_true; eauto).
      rewrite Hstep. apply Hfull. lia.
    + exists (search_tree ai). rewrite with_search_tree_id. split; [|done].
      intros [|fuel] _; simpl; by rewrite Hany.
Qed.

(** ** [ForwardSweepingMixin] *)

Lemma stable_refl t : stable t t.
Proof. intros k n ? ?. exists n. split; [done|apply same_shape_refl]. Qed.

Lemma stable_trans t1 t2 t3 : stable t1 t2 → stable t2 t3 → stable t1 t3.
Proof.
  intros H12 H23 k n Hn Hx. destruct (H12 k n Hn Hx) as (n2 & Hn2 & Hs2).
  destruct (H23 k n2 Hn2) as (n3 & Hn3 & Hs3).
  { destruct Hs2 as (_ & <- & _). done. }
  exists n3. split; [done|]. by eapply same_shape_trans.
Qed.

Lemma stable_successors_of t t' k :
  stable t t' → k ∈ expanded_keys t → successors_of t' k = successors_of t k.
Proof.
  intros Hst (n & Hn & Hx)%elem_of_expanded_keys.
  destruct (Hst k n Hn Hx) as (n' & Hn' & Hshape).
  unfold successors_of. rewrite Hn, Hn'. simpl.
  symmetry. by apply same_shape_successors.
Qed.

Lemma stable_expanded_keys t t' :
  stable t t' → expanded_keys t ⊆ expanded_keys t'.
Proof.
  intros Hst k (n & Hn & Hx)%elem_of_expanded_keys.
  destruct (Hst k n Hn Hx) as (n' & Hn' & _ & Hx' & _).
  apply elem_of_expanded_keys. exists n'. split; [done|congruence].
Qed.

(** One pass of the loop body of
    [ForwardSweepingMixin.step_search_tree_expansion] over a resident
    node. *)
Lemma sweep_visit key ai n :
  keyed Reach (search_tree ai) → successor_closed (search_tree ai) →
  search_tree ai !! key = Some n →
  ∃ t1,
    (node <~ get_node key;;
     _ <~ (if is_expanded node then ret false else expand_single_node key);;
     node' <~ get_node key;;
     let successors := get_successors node' in
     λ ai', (Ok tt,
             mkAI (search_tree ai') (current_state ai')
                  (current_layer_nodes ai')
                  (known_nodes ai' ∪ successors)
                  (next_layer ai' ∪ (successors ∖ known_nodes ai')))) ai
    = (Ok tt,
       mkAI t1 (current_state ai) (current_layer_nodes ai)
            (known_nodes ai ∪ successors_of t1 key)
            (next_layer ai ∪ (successors_of t1 key ∖ known_nodes ai))) ∧
    keyed Reach t1 ∧ successor_closed t1 ∧
    stable (search_tree ai) t1 ∧ dom (search_tree ai) ⊆ dom t1 ∧
    expanded_keys t1 = expanded_keys (search_tree ai) ∪ {[key]}.
Proof.
  intros Hkeyed Hcl Hn.
  rewrite (bindM_Ok _ _ _ _ _ (get_node_Some _ _ _ Hn)).
  destruct (is_expanded n) eqn:Hx.
  - exists (search_tree ai).
    erewrite bindM_Ok; last by reflexivity.
    rewrite (bindM_Ok _ _ _ _ _ (get_node_Some _ _ _ Hn)).
    unfold successors_of. rewrite Hn. simpl.
    split; [done|]. split; [done|]. split; [done|].
    split; [apply stable_refl|]. split; [done|].
    apply set_eq. intros k. rewrite elem_of_union, elem_of_singleton.
    split; [by left|]. intros [?| ->]; [done|].
    apply elem_of_expanded_keys. eauto.
  - destruct (expand_single_node_spec Reach _ _ _ Hkeyed Hn Hx)
      as (b & t1 & n1 & moves & Hexp & Hk1 & Hn1 & _ & Hx1 & _ & _ & _ & Hsucc
          & Hframe & _).
    exists t1.
    rewrite (bindM_Ok _ _ _ _ _ Hexp).
    erewrite bindM_Ok; last by (apply get_node_Some; exact Hn1).
    unfold successors_of. rewrite Hn1. simpl.
    split; [done|]. split; [done|].
    split; [by eapply closed_after_expand|].
    assert (Hst : stable (search_tree ai) t1).
    { intros k n' Hn' Hx'. assert (k ≠ key) as Hne by (intros ->; congruence).
      pose proof (Hframe k Hne) as Hg. unfold grown_at in Hg.
      by rewrite Hn' in Hg. }
    split; [done|]. split.
    + intros k Hk. destruct (decide (k = key)) as [->|Hne].
      * apply elem_of_dom. eauto.
      * by apply (grown_at_dom (search_tree ai)), Hk; apply Hframe.
    + apply set_eq. intros k. rewrite elem_of_union, elem_of_singleton. split.
      * intros (n' & Hn' & Hx')%elem_of_expanded_keys.
        destruct (decide (k = key)) as [->|Hne]; [by right|]. left.
        pose proof (Hframe k Hne) as Hg. unfold grown_at in Hg.
        destruct (search_tree ai !! k) as [n0|] eqn:E.
        -- destruct Hg as (n'' & ? & _ & Hx'' & _).
           apply elem_of_expanded_keys. exists n0. split; [done|congruence].
        -- destruct Hg as [?|(n'' & ? & Hb & _)]; congruence.
      * intros [Hk| ->]; [by apply (stable_expanded_keys _ _ Hst)|].
        apply elem_of_expanded_keys. eauto.
Qed.

Lemma sweep_fold keys : ∀ ai,
  keyed Reach (search_tree ai) → successor_closed (search_tree ai) →
  (∀ k, k ∈ keys → k ∈ dom (search_tree ai)) →
  ∃ t' known' next',
    foldM (λ (_ : unit) key,
             node <~ get_node key;;
             _ <~ (if is_expanded node then ret false
                   else expand_single_node key);;
             node' <~ get_node key;;
             let successors := get_successors node' in
             λ ai', (Ok tt,
                     mkAI (search_tree ai') (current_state ai')
                          (current_layer_nodes ai')
                          (known_nodes ai' ∪ successors)
                          (next_layer ai' ∪ (successors ∖ known_nodes ai'))))
          tt keys ai
    = (Ok tt, mkAI t' (current_state ai) (current_layer_nodes ai)
                   known' next') ∧
    keyed Reach t' ∧ successor_closed t' ∧
    stable (search_tree ai) t' ∧ dom (search_tree ai) ⊆ dom t' ∧
    expanded_keys t' = expanded_keys (search_tree ai) ∪ list_to_set keys ∧
    (∀ x, x ∈ known' ↔
          x ∈ known_nodes ai ∨ ∃ k, k ∈ keys ∧ x ∈ successors_of t' k) ∧
    (∀ x, x ∈ next' ↔
          x ∈ next_layer ai ∨
          ((x ∉ known_nodes ai) ∧ ∃ k, k ∈ keys ∧ x ∈ successors_of t' k)).
Proof.
  induction keys as [|k keys IH]; intros ai Hkeyed Hcl Hres.
  - exists (search_tree ai), (known_nodes ai), (next_layer ai).
    split; [by destruct ai|]. split; [done|]. split; [done|].
    split; [apply stable_refl|]. split; [done|]. split; [|split].
    + simpl. by rewrite (right_id_L ∅ (∪)).
    + intros x. split; [by left|]. by intros [?|(? & ?%elem_of_nil & _)].
    + intros x. split; [by left|]. by intros [?|(_ & ? & ?%elem_of_nil & _)].
  - assert (is_Some (search_tree ai !! k)) as [n Hn]
      by (apply elem_of_dom, Hres; left).
    destruct (sweep_visit k ai n Hkeyed Hcl Hn)
      as (t1 & Hvisit & Hk1 & Hcl1 & Hst1 & Hdom1 & Hexp1).
    set (ai1 := mkAI t1 (current_state ai) (current_layer_nodes ai)
                  (known_nodes ai ∪ successors_of t1 k)
                  (next_layer ai ∪ (successors_of t1 k ∖ known_nodes ai))) in *.
    destruct (IH ai1) as
      (t' & known' & next' & Hfold & Hk' & Hcl' & Hst' & Hdom' & Hexp' & Hknown
       & Hnext); [done..| |].
    { intros k' Hk'. apply Hdom1, Hres. by right. }
    simpl in Hfold, Hst', Hdom', Hexp', Hknown, Hnext.
    assert (Hsk : successors_of t' k = successors_of t1 k).
    { apply stable_successors_of; [done|]. rewrite Hexp1.
      apply elem_of_union. right. by apply elem_of_singleton. }
    exists t', known', next'. rewrite foldM_cons.
    rewrite (bindM_Ok _ _ _ _ _ Hvisit).
    split; [exact Hfold|]. split; [done|]. split; [done|].
    split; [by eapply stable_trans|]. split; [by etrans|].
    split; [|split].
    + rewrite Hexp', Hexp1. simpl. by rewrite (assoc_L (∪)).
    + intros x. rewrite Hknown, elem_of_union, <- Hsk. split.
      * intros [[?|?]|(k' & ? & ?)]; [by left| |].
        -- right. exists k. split; [left|done].
        -- right. exists k'. split; [by right|done].
      * intros [?|(k' & [->|?]%elem_of_cons & ?)]; [left; by left|left; by right|].
        right. eauto.
    + intros x. rewrite Hnext, !elem_of_union, elem_of_difference, <- Hsk.
      split.
      * intros [[?|[? ?]]|(Hnk & k' & ? & ?)]; [by left| |].
        -- right. split; [done|]. exists k. split; [left|done].
        -- right. split; [tauto|]. exists k'. split; [by right|done].
      * intros [?|(Hnk & k' & [->|?]%elem_of_cons & ?)]; [left; by left|left; by right|].
        destruct (decide (x ∈ successors_of t' k)); [by left; right|].
        right. split; [tauto|]. eauto.
Qed.

Lemma size_pos_nonempty (X : gset Key) :
  (0 <? size X)%nat = negb (bool_decide (X = ∅)).
Proof.
  case_bool_decide as HX; simpl.
  - subst. by rewrite size_empty.
  - apply Nat.ltb_lt. assert (size X ≠ 0%nat); [|lia].
    apply size_non_empty_iff. by intros ?%leibniz_equiv.
Qed.

Lemma ForwardSweeping_loop_abort (step : EM bool) remaining ai :
  ForwardSweeping_loop step remaining true ai = (Ok tt, ai).
Proof. by destruct remaining. Qed.

Lemma list_to_set_set_iter (X : gset Key) : list_to_set (set_iter X) = X.
Proof.
  apply set_eq. intros x. by rewrite elem_of_list_to_set, elem_of_set_iter.
Qed.

(** One layer: [ForwardSweepingMixin.step_search_tree_expansion]. *)
Lemma sweep_step ai :
  keyed Reach (search_tree ai) → successor_closed (search_tree ai) →
  current_layer_nodes ai ⊆ dom (search_tree ai) →
  ∃ t' known' next',
    ForwardSweeping_step_search_tree_expansion ai =
      (Ok (negb (bool_decide (next' = ∅))),
       mkAI t' (current_state ai) (current_layer_nodes ai) known' next') ∧
    keyed Reach t' ∧ successor_closed t' ∧
    stable (search_tree ai) t' ∧ dom (search_tree ai) ⊆ dom t' ∧
    expanded_keys t' =
      expanded_keys (search_tree ai) ∪ current_layer_nodes ai ∧
    known' =
      known_nodes ai ∪ set_bind (successors_of t') (current_layer_nodes ai) ∧
    next' =
      next_layer ai ∪
      (set_bind (successors_of t') (current_layer_nodes ai) ∖ known_nodes ai).
Proof.
  intros Hkeyed Hcl Hres. unfold ForwardSweeping_step_search_tree_expansion.
  destruct (sweep_fold (set_iter (current_layer_nodes ai)) ai Hkeyed Hcl)
    as (t' & known' & next' & Hfold & Hk' & Hcl' & Hst' & Hdom' & Hexp' & Hknown
        & Hnext).
  { intros k Hk%elem_of_set_iter. by apply Hres. }
  exists t', known', next'. rewrite (bindM_Ok _ _ _ _ _ Hfold). simpl.
  rewrite size_pos_nonempty. split; [done|]. split; [done|]. split; [done|].
  split; [done|]. split; [done|].
  split; [by rewrite Hexp', list_to_set_set_iter|]. split.
  - apply set_eq. intros x. rewrite Hknown, elem_of_union, elem_of_set_bind.
    by setoid_rewrite elem_of_set_iter. 
  - apply set_eq. intros x.
    rewrite Hnext, elem_of_union, elem_of_difference, elem_of_set_bind.
    setoid_rewrite elem_of_set_iter. clear. naive_solver.
Qed.

Lemma ForwardSweeping_loop_S (step : EM bool) remaining :
  ForwardSweeping_loop step (S remaining) false =
  (_ <~ (λ ai, (Ok tt, mkAI (search_tree ai) (current_state ai)
                            (current_layer_nodes ai) (known_nodes ai) ∅));;
   more <~ step;;
   _ <~ (λ ai, (Ok tt, mkAI (search_tree ai) (current_state ai)
                            (next_layer ai) (known_nodes ai)
                            (next_layer ai)));;
   ForwardSweeping_loop step remaining (negb more)).
Proof. reflexivity. Qed.




(** ** What a run of expansions keeps *)

Lemma faithful_same_shape n n' :
  same_shape n n' → faithful_node n → faithful_node n'.
Proof.
  intros (Hst & _ & Hsucc) (moves & Hm & Hiff & Hmk).
  exists moves. rewrite <- Hst, <- Hsucc. done.
Qed.

Lemma expanded_faithfully_refl t : expanded_faithfully t t.
Proof. intros k n Hn Hx. left. apply elem_of_expanded_keys. eauto. Qed.

Lemma expand_single_node_Ok key ai b ai' :
  expand_single_node key ai = (Ok b, ai') →
  ∃ n, search_tree ai !! key = Some n ∧ is_expanded n = false.
Proof.
  unfold expand_single_node. destruct (search_tree ai !! key) as [n|] eqn:Hn.
  - rewrite (bindM_Ok _ _ _ _ _ (get_node_Some _ _ _ Hn)).
    destruct (is_expanded n) eqn:Hx; [|eauto].
    erewrite bindM_Raise; [discriminate|].
    unfold lift, expand. by rewrite Hx.
  - erewrite bindM_Raise; [discriminate|]. unfold get_node. by rewrite Hn.
Qed.

(** What every expansion keeps, seen from a table [t0] of before. *)
Lemma expand_single_node_keeps t0 key ai b ai' :
  keyed Reach (search_tree ai) → expanded_faithfully t0 (search_tree ai) →
  expand_single_node key ai = (Ok b, ai') →
  ai' = with_search_tree (search_tree ai') ai ∧
  keyed Reach (search_tree ai') ∧
  expanded_faithfully t0 (search_tree ai') ∧
  (successor_closed (search_tree ai) → successor_closed (search_tree ai')) ∧
  stable (search_tree ai) (search_tree ai') ∧
  dom (search_tree ai) ⊆ dom (search_tree ai').
Proof.
  intros Hkeyed Hef Hexp.
  destruct (expand_single_node_Ok _ _ _ _ Hexp) as (n & Hn & Hx).
  destruct (expand_single_node_spec Reach _ _ _ Hkeyed Hn Hx)
    as (b' & t' & n' & moves & Hexp' & Hkeyed' & Hn' & Hst & Hx' & Hmoves & Hiff
        & Hmk & Hres & Hgrown & _).
  rewrite Hexp in Hexp'. injection Hexp' as _ ->. simpl.
  split; [done|]. split; [done|]. split; [|split; [|split]].
  - intros k n1 Hn1 Hx1. destruct (decide (k = key)) as [->|Hne].
    + right. assert (n1 = n') as -> by congruence.
      exists moves. rewrite Hst. done.
    + pose proof (Hgrown k Hne) as Hg. unfold grown_at in Hg.
      destruct (search_tree ai !! k) as [n0|] eqn:Hn0.
      * destruct Hg as (n0' & Hn0' & Hshape).
        assert (n0' = n1) as -> by congruence.
        destruct (Hef k n0 Hn0) as [?|Hf]; [destruct Hshape as (_ & ? & _); congruence|by left|].
        right. by apply (faithful_same_shape n0).
      * destruct Hg as [?|(n1' & Hn1' & Hb & _)]; congruence.
  - intros Hcl. by apply (closed_after_expand (search_tree ai) t' key n').
  - intros k n0 Hn0 Hx0. assert (k ≠ key) as Hne by (intros ->; congruence).
    pose proof (Hgrown k Hne) as Hg. unfold grown_at in Hg.
    by rewrite Hn0 in Hg.
  - intros k Hk. destruct (decide (k = key)) as [->|Hne].
    + by apply elem_of_dom_2 in Hn'.
    + by apply (grown_at_dom _ _ _ (Hgrown k Hne)).
Qed.

(** The tables a run of expansions goes through: [t] is reached from
    [t0] by expansions. *)
Lemma fold_expand_keeps t0 keys : ∀ ai has0 has ai',
  keyed Reach (search_tree ai) → expanded_faithfully t0 (search_tree ai) →
  foldM (λ has_expanded key,
           r <~ expand_single_node key;; ret (r || has_expanded))
        has0 keys ai = (Ok has, ai') →
  keyed Reach (search_tree ai') ∧
  expanded_faithfully t0 (search_tree ai') ∧
  (successor_closed (search_tree ai) → successor_closed (search_tree ai')) ∧
  stable (search_tree ai) (search_tree ai') ∧
  dom (search_tree ai) ⊆ dom (search_tree ai').
Proof.
  induction keys as [|key keys IH]; intros ai has0 has ai' Hkeyed Hef Hfold.
  - injection Hfold as _ <-. split; [done|]. split; [done|]. split; [done|].
    split; [apply stable_refl|done].
  - rewrite foldM_cons in Hfold.
    apply bindM_inv in Hfold as (has1 & ai1 & Hstep & Hfold).
    apply bindM_inv in Hstep as (r & ai1' & Hexp & Hret).
    injection Hret as _ ->.
    destruct (expand_single_node_keeps t0 _ _ _ _ Hkeyed Hef Hexp)
      as (_ & Hkeyed1 & Hef1 & Hcl1 & Hst1 & Hdom1).
    destruct (IH _ _ _ _ Hkeyed1 Hef1 Hfold) as (? & ? & Hcl' & Hst' & Hdom').
    split; [done|]. split; [done|]. split; [auto|].
    split; [by apply (stable_trans _ (search_tree ai1))|].
    clear -Hdom1 Hdom'. set_solver.
Qed.

Lemma Full_OneStep_keeps t0 fuel : ∀ ai ai',
  keyed Reach (search_tree ai) → expanded_faithfully t0 (search_tree ai) →
  Full_expand_search_tree OneStep_step_search_tree_expansion fuel ai
    = Some (Ok tt, ai') →
  keyed Reach (search_tree ai') ∧
  expanded_faithfully t0 (search_tree ai') ∧
  (successor_closed (search_tree ai) → successor_closed (search_tree ai')) ∧
  stable (search_tree ai) (search_tree ai') ∧
  dom (search_tree ai) ⊆ dom (search_tree ai').
Proof.
  induction fuel as [|fuel IH]; intros ai ai' Hkeyed Hef; simpl;
    destruct (any_unexpanded ai); try discriminate;
    try (intros [= <-]; split; [done|]; split; [done|]; split; [done|];
         split; [apply stable_refl|done]).
  destruct (OneStep_step_search_tree_expansion ai) as [[b|e] ai1] eqn:Hstep;
    [|discriminate].
  intros Hfull.
  destruct (fold_expand_keeps t0 _ _ _ _ _ Hkeyed Hef Hstep)
    as (Hkeyed1 & Hef1 & Hcl1 & Hst1 & Hdom1).
  destruct (IH _ _ Hkeyed1 Hef1 Hfull) as (? & ? & Hcl' & Hst' & Hdom').
  split; [done|]. split; [done|]. split; [auto|].
  split; [by apply (stable_trans _ (search_tree ai1))|].
  clear -Hdom1 Hdom'. set_solver.
Qed.





(** C8, as the code has it.  For a game whose reachable states have
    their keys in a finite set [U], the Full expansion control over the
    One-Step-All step returns, with any fuel from the size of [U] on, and
    when it returns every resident node is expanded.  The table it leaves
    is the table of the game: every node sits under the key of its state,
    the nodes that were expanded on the way hold one successor for each
    legal move, under the key of the state that the move produces, every
    successor is resident if it was so before, the nodes that were
    expanded before keep their shape, and no key has left the table. *)
Theorem full_expansion_reaches_fixed_point (U : gset Key) ai :
  (∀ s k, Reach s → adapter_node_key s = Ok k → k ∈ U) →
  keyed Reach (search_tree ai) →
  ∃ ai',
    (∀ fuel, (size U ≤ fuel)%nat →
       Full_expand_search_tree OneStep_step_search_tree_expansion fuel ai =
         Some (Ok tt, ai')) ∧
    any_unexpanded ai' = false ∧
    (∀ k n, search_tree ai' !! k = Some n → is_expanded n = true) ∧
    keyed Reach (search_tree ai') ∧
    expanded_faithfully (search_tree ai) (search_tree ai') ∧
    (successor_closed (search_tree ai) → successor_closed (search_tree ai')) ∧
    stable (search_tree ai) (search_tree ai') ∧
    dom (search_tree ai) ⊆ dom (search_tree ai').
Proof.
  intros HU Hkeyed.
  destruct (Full_OneStep_terminates U HU (size U) ai Hkeyed) as (t' & Hfull & Hdone).
  { apply subseteq_size. set_solver. }
  eexists. split; [exact Hfull|]. split; [done|]. split.
  - intros k n Hn. destruct (is_expanded n) eqn:Hx; [done|].
    assert (any_unexpanded (with_search_tree t' ai) = true); [|congruence].
    apply any_unexpanded_true. exists k. rewrite Hn. simpl. by rewrite Hx.
  - apply (Full_OneStep_keeps (search_tree ai) (size U) ai);
      [done|apply expanded_faithfully_refl|].
    by apply Hfull.
Qed.


(** ** [BoundedExpansionMixin] *)

Lemma Bounded_step_spec time_limit node_limit elapsed_time (inner : EM bool) ai :
  Bounded_step_search_tree_expansion time_limit node_limit elapsed_time inner ai =
  match inner ai with
  | (Ok expansion_happened, ai') =>
      (Ok (expansion_happened &&
           negb ((negb (node_limit =? 0) &&
                  (node_limit <=? Z.of_nat (num_states ai'))) ||
                 (negb (Qeq_bool time_limit 0) &&
                  Qle_bool time_limit elapsed_time))), ai')
  | (Raise e, ai') => (Raise e, ai')
  end.
Proof.
  unfold Bounded_step_search_tree_expansion, bindM, num_states.
  destruct (inner ai) as [[happened|e] ai']; [|done].
  destruct (negb (node_limit =? 0) && _), (negb (Qeq_bool time_limit 0) && _);
    done.
Qed.

(** The engine [BaseAI.__init__] makes from a fresh node. *)
Lemma BaseAI_init_spec s ai :
  Reach s → BaseAI_init (new_node s) = Ok ai →
  keyed Reach (search_tree ai) ∧ successor_closed (search_tree ai) ∧
  current_state ai ∈ dom (search_tree ai).
Proof.
  intros Hs. destruct (node_key_total _ Hs) as [k Hk].
  unfold BaseAI_init, _node_key. simpl. rewrite Hk. simpl.
  destruct (add_node_bare Reach s k (mkAI ∅ k ∅ ∅ ∅)) as
    (is_new & t' & -> & Hg & Hkeyed & Hin & _); [|done..|].
  { intros ??. simpl. by rewrite lookup_empty. }
  intros [= <-]. simpl. split; [done|]. split.
  - eapply closed_grown; [|exact Hg]. intros ?? (? & He & _).
    simpl in He. by rewrite lookup_empty in He.
  - by apply elem_of_dom.
Qed.

(** C10. The successor-closure invariant.  The table of a fresh engine is
    closed; on an engine whose table is closed, inserting a fresh node,
    expanding a resident unexpanded node, and committing a move with
    pruning return normally and leave the table closed; in the last, the
    reachability sweep returns its hull, so no lookup of a frontier key
    failed, and the new current node is resident. *)
Theorem successor_closure_invariant ai :
  keyed Reach (search_tree ai) → successor_closed (search_tree ai) →
  (∀ s, Reach s →
     ∃ ai0, BaseAI_init (new_node s) = Ok ai0 ∧
            successor_closed (search_tree ai0) ∧
            current_state ai0 ∈ dom (search_tree ai0)) ∧
  (∀ s, Reach s →
     ∃ is_new t', add_node (new_node s) ai = (Ok is_new, with_search_tree t' ai) ∧
                  successor_closed t') ∧
  (∀ key n, search_tree ai !! key = Some n → is_expanded n = false →
     ∃ b t', expand_single_node key ai = (Ok b, with_search_tree t' ai) ∧
             successor_closed t') ∧
  (∀ move fuel ai1,
     current_state ai ∈ dom (search_tree ai) →
     BaseAI_make_move move ai = (Ok tt, ai1) →
     (size (search_tree ai1) < fuel)%nat →
     ∃ hull ai',
       transitive_hull_loop fuel (search_tree ai1) ∅ {[current_state ai1]} =
         Some (Ok hull) ∧
       NaivePruning_make_move fuel (BaseAI_make_move move) ai =
         Some (Ok tt, ai') ∧
       successor_closed (search_tree ai') ∧
       current_state ai' ∈ dom (search_tree ai')).
Proof.
  intros Hkeyed Hcl. split; [|split; [|split]].
  - intros s Hs. destruct (node_key_total _ Hs) as [k Hk].
    unfold BaseAI_init, _node_key. simpl. rewrite Hk. simpl.
    destruct (add_node_bare Reach s k (mkAI ∅ k ∅ ∅ ∅)) as
      (is_new & t' & -> & Hg & _ & Hin & _); [|done..|].
    { intros ??. simpl. by rewrite lookup_empty. }
    eexists. split; [done|]. simpl. split.
    + eapply closed_grown; [|exact Hg]. intros ?? (? & He & _).
      simpl in He. by rewrite lookup_empty in He.
    + by apply elem_of_dom.
  - intros s Hs. destruct (node_key_total _ Hs) as [k Hk].
    destruct (add_node_bare Reach s k ai Hkeyed Hs Hk)
      as (is_new & t' & Hadd & Hg & _).
    exists is_new, t'. split; [done|]. by eapply closed_grown.
  - intros key n Hn Hx.
    destruct (expand_single_node_spec Reach _ _ _ Hkeyed Hn Hx)
      as (b & t1 & n1 & moves & Hexp & _ & Hn1 & _ & _ & _ & _ & _ & Hs & Hf & _).
    exists b, t1. split; [done|]. by eapply closed_after_expand.
  - intros move fuel ai1 [n Hn]%elem_of_dom Hmove Hfuel.
    destruct (BaseAI_make_move_run Reach move ai n Hkeyed Hn)
      as (t1 & n1 & moves & Hrun & _ & Hn1 & _ & _ & Hcl1 & _).
    rewrite Hmove in Hrun. destruct (successors n1 !! move) as [next|] eqn:E;
      [|done]. injection Hrun as ->.
    destruct (NaivePruning_make_move_spec fuel (BaseAI_make_move move) ai _ Hmove)
      as (t' & hull & Hloop & Hprune & Hdom & _ & Hcl' & _); simpl; auto.
    { apply (Hcl1 Hcl (current_state ai) next). exists n1. split; [done|].
      by apply elem_of_map_img_2 with move. }
    exists hull. eexists. split; [exact Hloop|]. split; [exact Hprune|].
    split; [done|]. simpl. by apply Hdom.
Qed.


(** What [make_move] does with a move that is not legal at the current
    node: the move is rejected with [IllegalMoveError] and the reference
    to the current node stays; the engine is exactly as before when the
    current node was already expanded, and otherwise it is as
    [expand_single_node] left it, since the current node is expanded
    before the move is looked up. *)
Theorem illegal_move_rejected move ai n moves :
  keyed Reach (search_tree ai) →
  search_tree ai !! current_state ai = Some n →
  adapter_all_legal_moves (state n) = Ok moves →
  (is_expanded n = true → ∀ m, is_Some (successors n !! m) → m ∈ moves) →
  move ∉ moves →
  ∃ ai',
    BaseAI_make_move move ai = (Raise IllegalMoveError, ai') ∧
    current_state ai' = current_state ai ∧
    (is_expanded n = true → ai' = ai) ∧
    (is_expanded n = false →
     ∃ b, expand_single_node (current_state ai) ai = (Ok b, ai')).
Proof.
  intros Hkeyed Hn Hmoves Hlegal Hmove.
  destruct (BaseAI_make_move_run Reach move ai n Hkeyed Hn)
    as (t1 & n1 & moves' & Hrun & _ & Hn1 & _ & _ & _ & Hexp & Hunexp).
  assert (Hnone : successors n1 !! move = None).
  { apply eq_None_not_Some. intros Hsome. apply Hmove.
    destruct (is_expanded n) eqn:Hx.
    - destruct (Hexp eq_refl) as [_ ->]. by apply Hlegal.
    - destruct (Hunexp eq_refl) as (_ & Hm' & Hiff).
      assert (moves' = moves) as -> by congruence. by apply Hiff. }
  rewrite Hnone in Hrun. eexists. split; [exact Hrun|]. split; [done|]. split.
  - intros Hx. destruct (Hexp Hx) as [-> _]. apply with_search_tree_id.
  - intros Hx. by destruct (Hunexp Hx) as (? & _).
Qed.

End claims.

End pruning.

End EngineFacts.


(** * Expansion controls at their edges, and single operations *)

Section EngineExtras.
Context {State Move Key Score : Type}.
Context `{Countable Move, Countable Key}.
Context `{!GameAdapter State Move Key}.
Context `{!IterationOrder Key}.
Context `{!Scoring State Move Key Score}.

Local Abbreviation Node := (SearchNode State Move Key Score).
Local Abbreviation Table := (gmap Key (SearchNode State Move Key Score)).
Local Abbreviation Engine := (AI State Move Key Score).
Local Abbreviation EM := (M (State:=State) (Move:=Move) (Key:=Key) (Score:=Score)).

Implicit Types (t : Table) (n node : Node) (ai : Engine) (k key : Key).

(** X13. [FullExpansionMixin] drops the value its step returns, so a
    budget wrapped around the step has no effect under it: the loop over
    the bounded step does what the loop over the wrapped step does. *)
Theorem full_ignores_bound (time_limit elapsed_time : Q) (node_limit : Z)
    (inner : EM bool) (fuel : nat) ai :
  Full_expand_search_tree
    (Bounded_step_search_tree_expansion time_limit node_limit elapsed_time inner)
    fuel ai
  = Full_expand_search_tree inner fuel ai.
Proof.
  revert ai. induction fuel as [|fuel IH]; intros ai; simpl; [done|].
  destruct (any_unexpanded ai); [|done].
  rewrite Bounded_step_spec. destruct (inner ai) as [[b|e] ai']; [apply IH|done].
Qed.

(** X14. The limits of [BoundedExpansionMixin] at their edges: with both
    limits 0, the default, the bounded step is the wrapped step; with a
    negative node limit it never reports more work. *)
Theorem bounded_limit_edges (time_limit elapsed_time : Q) (node_limit : Z)
    (inner : EM bool) ai :
  Bounded_step_search_tree_expansion 0 0 elapsed_time inner ai = inner ai ∧
  (node_limit < 0 →
   ∀ more ai',
     Bounded_step_search_tree_expansion
       time_limit node_limit elapsed_time inner ai = (Ok more, ai') →
     more = false).
Proof.
  split.
  - rewrite Bounded_step_spec. destruct (inner ai) as [[b|e] ai']; [|done].
    simpl. by rewrite andb_true_r.
  - intros Hneg more ai'. rewrite Bounded_step_spec.
    destruct (inner ai) as [[b|e] ai1]; [|done]. intros [= <- <-].
    assert ((node_limit =? 0) = false) as -> by (apply Z.eqb_neq; lia).
    assert ((node_limit <=? Z.of_nat (num_states ai1)) = true) as ->
      by (apply Z.leb_le; lia).
    simpl. apply andb_false_r.
Qed.

Lemma ForwardSweeping_loop_0 (step : EM bool) abort ai :
  ForwardSweeping_loop step 0 abort ai = (Ok tt, ai).
Proof. reflexivity. Qed.

Lemma bounded_sweep_loop (time_limit elapsed_time : Q) (node_limit : Z)
    (step : EM bool) remaining : ∀ ai,
  ∃ d, (d ≤ remaining)%nat ∧
    ForwardSweeping_loop
      (Bounded_step_search_tree_expansion time_limit node_limit elapsed_time step)
      remaining false ai
    = ForwardSweeping_loop step d false ai.
Proof.
  induction remaining as [|remaining IH]; intros ai.
  - exists 0%nat. split; [lia|done].
  - rewrite ForwardSweeping_loop_S.
    set (ai0 := mkAI (search_tree ai) (current_state ai)
                     (current_layer_nodes ai) (known_nodes ai) ∅).
    unfold bindM at 1. fold ai0.
    unfold bindM at 1. rewrite Bounded_step_spec.
    destruct (step ai0) as [[b|e] ai1] eqn:Hstep.
    + set (more := b && _).
      unfold bindM at 1.
      set (ai2 := mkAI (search_tree ai1) (current_state ai1)
                       (next_layer ai1) (known_nodes ai1) (next_layer ai1)).
      destruct more eqn:Hmore.
      * apply andb_prop in Hmore as [-> _]. simpl negb.
        destruct (IH ai2) as (d & Hd & ->).
        exists (S d). split; [lia|]. rewrite ForwardSweeping_loop_S.
        unfold bindM at 1. fold ai0. unfold bindM at 1. rewrite Hstep.
        unfold bindM at 1. done.
      * simpl negb. rewrite ForwardSweeping_loop_abort.
        exists 1%nat. split; [lia|]. rewrite ForwardSweeping_loop_S.
        unfold bindM at 1. fold ai0. unfold bindM at 1. rewrite Hstep.
        unfold bindM at 1. done.
    + exists 1%nat. split; [lia|]. rewrite ForwardSweeping_loop_S.
      unfold bindM at 1. fold ai0. unfold bindM at 1. by rewrite Hstep.
Qed.

(** X15. A budget only cuts a forward sweep short: the sweep of depth
    [D] over the bounded step leaves the engine as the sweep over the
    plain step of some depth [d <= D] does. *)
Theorem bounded_sweep_is_shorter_sweep (time_limit elapsed_time : Q)
    (node_limit search_depth : Z) (step : EM bool) ai :
  ∃ d : nat,
    Z.of_nat d ≤ Z.max search_depth 0 ∧
    ForwardSweeping_expand_search_tree search_depth
      (Bounded_step_search_tree_expansion time_limit node_limit elapsed_time step)
      ai
    = ForwardSweeping_expand_search_tree (Z.of_nat d) step ai.
Proof.
  unfold ForwardSweeping_expand_search_tree.
  set (ai0 := mkAI (search_tree ai) (current_state ai)
                   {[current_state ai]} {[current_state ai]} (next_layer ai)).
  destruct (bounded_sweep_loop time_limit elapsed_time node_limit step
              (Z.to_nat search_depth) ai0) as (d & Hd & Heq).
  exists d. split; [lia|]. unfold bindM. fold ai0.
  by rewrite Nat2Z.id.
Qed.

Lemma filter_none {A} (P : A → Prop) `{∀ x, Decision (P x)} (l : list A) :
  (∀ x, ¬ P x) → filter P l = [].
Proof.
  intros HP. induction l as [|a l IH]; [done|].
  rewrite filter_cons, decide_False by apply HP. exact IH.
Qed.

(** X16. With every resident node expanded, the One-Step-All step finds
    nothing to do: it returns false and leaves the engine as it was. *)
Theorem one_step_fixed_point ai :
  any_unexpanded ai = false →
  OneStep_step_search_tree_expansion ai = (Ok false, ai).
Proof.
  intros Hany. unfold OneStep_step_search_tree_expansion, unexpanded_nodes.
  rewrite filter_none; [done|].
  intros k Hk. apply not_true_iff_false in Hany. apply Hany.
  apply any_unexpanded_true. eauto.
Qed.

Lemma Full_idle_step (step : EM bool) b ai :
  step ai = (Ok b, ai) → any_unexpanded ai = true →
  ∀ fuel, Full_expand_search_tree step fuel ai = None.
Proof.
  intros Hstep Hany fuel. induction fuel as [|fuel IH]; simpl; rewrite Hany.
  - done.
  - by rewrite Hstep.
Qed.

Lemma Full_idle_after_step (step : EM bool) b b' ai ai1 :
  step ai = (Ok b, ai1) → any_unexpanded ai = true →
  step ai1 = (Ok b', ai1) → any_unexpanded ai1 = true →
  ∀ fuel, Full_expand_search_tree step fuel ai = None.
Proof.
  intros Hstep Hany Hstep1 Hany1 [|fuel]; simpl; rewrite Hany; [done|].
  rewrite Hstep. by apply (Full_idle_step _ b').
Qed.

Lemma CurrentState_step_expanded ai n :
  search_tree ai !! current_state ai = Some n → is_expanded n = true →
  CurrentState_step_search_tree_expansion ai = (Ok false, ai).
Proof.
  intros Hn Hx. unfold CurrentState_step_search_tree_expansion.
  rewrite (bindM_Ok _ _ _ _ _ (get_node_Some _ _ _ Hn)). by rewrite Hx.
Qed.

(** X17. [FullExpansionMixin] over [CurrentStateExpansionMixin] does not
    return once the current node is expanded while another resident node
    is not: the step has nothing to do, the loop condition stays true,
    and no amount of fuel lets the loop end. *)
Theorem full_over_current_state_never_returns ai n :
  search_tree ai !! current_state ai = Some n → is_expanded n = true →
  any_unexpanded ai = true →
  ∀ fuel,
    Full_expand_search_tree CurrentState_step_search_tree_expansion fuel ai
    = None.
Proof.
  intros Hn Hx Hany. apply (Full_idle_step _ false); [|done].
  by apply (CurrentState_step_expanded ai n).
Qed.

(** X18. [add_node] never replaces or removes a resident node: it returns
    true exactly when the key of the node was not in the table, in which
    case the node is resident afterwards and the table has one node more;
    otherwise the table keeps its keys, and the resident node its state
    and expansion status; the nodes under other keys are untouched. *)
Theorem add_node_outcome node k ai :
  _node_key node = Ok k →
  (∀ resident, search_tree ai !! k = Some resident → _node_key resident = Ok k) →
  ∃ is_new t',
    add_node node ai = (Ok is_new, with_search_tree t' ai) ∧
    (is_new = true ↔ search_tree ai !! k = None) ∧
    dom t' = dom (search_tree ai) ∪ {[k]} ∧
    size t' = (if is_new then S (size (search_tree ai))
               else size (search_tree ai)) ∧
    (∀ k', k' ≠ k → t' !! k' = search_tree ai !! k') ∧
    (is_new = true → t' !! k = Some node) ∧
    (∀ resident, search_tree ai !! k = Some resident →
       ∃ merged, t' !! k = Some merged ∧
                 state merged = state resident ∧
                 is_expanded merged = is_expanded resident).
Proof.
  intros Hk Hres. unfold add_node.
  rewrite (bindM_Ok (lift (_node_key node)) _ ai k ai) by (unfold lift; by rewrite Hk).
  destruct (search_tree ai !! k) as [resident|] eqn:Hlook.
  - unfold merge. rewrite (Hres resident eq_refl), Hk. simpl.
    rewrite bool_decide_eq_true_2 by done.
    eexists false, _. split; [reflexivity|].
    split; [split; discriminate|].
    split.
    { rewrite dom_insert_L. apply elem_of_dom_2 in Hlook. set_solver. }
    split; [apply map_size_insert_Some; eauto|].
    split; [by intros k' Hne; rewrite lookup_insert_ne|].
    split; [discriminate|].
    intros r [= <-]. eexists. split; [apply lookup_insert_eq|done].
  - eexists true, _. split; [reflexivity|].
    split; [done|].
    split; [by rewrite dom_insert_L, (comm_L (∪))|].
    split; [by apply map_size_insert_None|].
    split; [by intros k' Hne; rewrite lookup_insert_ne|].
    split; [intros _; apply lookup_insert_eq|]. done.
Qed.

Section reach.
Context (Reach : State → Prop) `{!AdapterTotal Reach}.

(** X19. The step of [CurrentStateExpansionMixin] works on the current
    node only and only once: it returns, the current node is expanded
    afterwards, every other node that was resident keeps its shape, a
    second call in a row returns false and changes nothing, and on an
    already expanded current node the first call does so too. *)
Theorem current_state_step_once ai n :
  keyed Reach (search_tree ai) →
  search_tree ai !! current_state ai = Some n →
  ∃ b ai',
    CurrentState_step_search_tree_expansion ai = (Ok b, ai') ∧
    current_state ai' = current_state ai ∧
    (is_expanded <$> search_tree ai' !! current_state ai) = Some true ∧
    (∀ k, k ≠ current_state ai →
          grown_at (search_tree ai) (search_tree ai') k) ∧
    CurrentState_step_search_tree_expansion ai' = (Ok false, ai') ∧
    (is_expanded n = true → b = false ∧ ai' = ai).
Proof.
  intros Hkeyed Hn. destruct (is_expanded n) eqn:Hx.
  - pose proof (CurrentState_step_expanded ai n Hn Hx) as Hstep.
    exists false, ai. rewrite Hstep, Hn. simpl. rewrite Hx.
    repeat split; try done. intros k _. apply grown_at_refl.
  - destruct (expand_single_node_spec Reach _ _ _ Hkeyed Hn Hx)
      as (b & t' & n' & moves & Hexp & _ & Hn' & _ & Hx' & _ & _ & _ & _ & Hgrown & _).
    exists b, (with_search_tree t' ai).
    assert (CurrentState_step_search_tree_expansion ai
            = (Ok b, with_search_tree t' ai)) as Hstep.
    { unfold CurrentState_step_search_tree_expansion.
      rewrite (bindM_Ok _ _ _ _ _ (get_node_Some _ _ _ Hn)). by rewrite Hx. }
    split; [done|]. split; [done|]. simpl. rewrite Hn'. simpl.
    split; [by rewrite Hx'|]. split; [done|].
    split; [|discriminate].
    by apply (CurrentState_step_expanded (with_search_tree t' ai) n').
Qed.

(** X20. [expand_single_node] on a resident node that is not expanded
    returns, and it returns true exactly when the state of the node has a
    legal move; afterwards the node is expanded, its successor map has
    one entry for each legal move, each leading to the key of the state
    the move produces, and every successor is resident; no key leaves the
    table, and the current node stays the current node. *)
Theorem expand_single_node_outcome key n ai :
  keyed Reach (search_tree ai) →
  search_tree ai !! key = Some n → is_expanded n = false →
  ∃ b ai' n' moves,
    expand_single_node key ai = (Ok b, ai') ∧
    adapter_all_legal_moves (state n) = Ok moves ∧
    (b = true ↔ moves ≠ []) ∧
    search_tree ai' !! key = Some n' ∧
    state n' = state n ∧ is_expanded n' = true ∧
    (∀ m, is_Some (successors n' !! m) ↔ m ∈ moves) ∧
    (∀ m k', successors n' !! m = Some k' →
             k' ∈ dom (search_tree ai') ∧
             ∃ s', adapter_make_move (state n) m = Ok s' ∧
                   adapter_node_key s' = Ok k') ∧
    dom (search_tree ai) ⊆ dom (search_tree ai') ∧
    current_state ai' = current_state ai.
Proof.
  intros Hkeyed Hn Hx.
  destruct (expand_single_node_spec Reach _ _ _ Hkeyed Hn Hx)
    as (b & t' & n' & moves & Hexp & _ & Hn' & Hst & Hx' & Hmoves & Hiff
        & Hsound & Hres & Hgrown & Hb).
  exists b, (with_search_tree t' ai), n', moves.
  split; [done|]. split; [done|]. split.
  { by rewrite Hb, negb_true_iff, bool_decide_eq_false. }
  split; [done|]. split; [done|]. split; [done|]. split; [done|].
  split.
  { intros m k' Hm. split; [|by apply (Hsound m)].
    apply elem_of_dom, Hres. unfold get_successors.
    apply elem_of_map_img. eauto. }
  split; [|done].
  intros k' Hk'. simpl. destruct (decide (k' = key)) as [->|Hne].
  - by apply elem_of_dom_2 in Hn'.
  - by apply (grown_at_dom _ _ _ (Hgrown k' Hne)).
Qed.

(** X21. A legal move at a current node that is not yet expanded is
    committed: [make_move] returns, the current node becomes the node
    under the key of the state the move produces, that node is resident,
    and no key has left the table. *)
Theorem legal_move_committed move ai n moves :
  keyed Reach (search_tree ai) →
  search_tree ai !! current_state ai = Some n → is_expanded n = false →
  adapter_all_legal_moves (state n) = Ok moves → move ∈ moves →
  ∃ s' k' ai' n',
    adapter_make_move (state n) move = Ok s' ∧
    adapter_node_key s' = Ok k' ∧
    BaseAI_make_move move ai = (Ok tt, ai') ∧
    current_state ai' = k' ∧
    search_tree ai' !! k' = Some n' ∧ _node_key n' = Ok k' ∧
    dom (search_tree ai) ⊆ dom (search_tree ai').
Proof.
  intros Hkeyed Hn Hx Hmoves Hin.
  destruct (expand_single_node_spec Reach _ _ _ Hkeyed Hn Hx)
    as (b & t' & n' & moves' & Hexp & Hkeyed' & Hn' & Hst & Hx' & Hmoves' & Hiff
        & Hsound & Hres & Hgrown & Hb).
  assert (moves' = moves) as -> by congruence.
  destruct (proj2 (Hiff move) Hin) as [k' Hk'].
  destruct (Hsound _ _ Hk') as (s' & Hs' & Hkey).
  destruct (Hres k') as [nk Hnk].
  { unfold get_successors. apply elem_of_map_img. eauto. }
  exists s', k', (with_current_state k' (with_search_tree t' ai)), nk.
  split; [done|]. split; [done|]. split.
  { unfold BaseAI_make_move.
    rewrite (bindM_Ok _ _ _ _ _ (get_node_Some _ _ _ Hn)). rewrite Hx.
    rewrite (bindM_Ok _ _ _ _ _ Hexp).
    rewrite (bindM_Ok (get_node (current_state ai)) _ (with_search_tree t' ai)
               n' (with_search_tree t' ai)) by (by apply get_node_Some).
    unfold get_successor. rewrite Hk'. reflexivity. }
  split; [done|]. split; [done|]. split; [by apply (Hkeyed' k' nk)|].
  intros x Hxd. simpl. destruct (decide (x = current_state ai)) as [->|Hne].
  - by apply elem_of_dom_2 in Hn'.
  - by apply (grown_at_dom _ _ _ (Hgrown x Hne)).
Qed.

End reach.

End EngineExtras.

(** * The driver *)

Section DriverFacts.
Context {State Move Key Score : Type}.
Context `{Countable Move, Countable Key}.
Context `{!GameAdapter State Move Key}.
Context `{!Scoring State Move Key Score}.
Context `{!MoveSelection State Move Key Score}.
Context (Reach : State → Prop) `{!AdapterTotal Reach}.

Local Abbreviation Node := (SearchNode State Move Key Score).
Local Abbreviation Table := (gmap Key (SearchNode State Move Key Score)).
Local Abbreviation Engine := (AI State Move Key Score).
Local Abbreviation EM := (M (State:=State) (Move:=Move) (Key:=Key) (Score:=Score)).

Implicit Types (t : Table) (n node : Node) (ai : Engine) (k key : Key).

Lemma BaseAI_init_singleton node k :
  _node_key node = Ok k →
  BaseAI_init node = Ok (mkAI {[k := node]} k ∅ ∅ ∅).
Proof.
  intros Hk. unfold BaseAI_init. rewrite Hk. simpl.
  unfold add_node.
  rewrite (bindM_Ok (lift (_node_key node)) _ _ k (mkAI ∅ k ∅ ∅ ∅))
    by (unfold lift; by rewrite Hk).
  simpl. rewrite lookup_empty. reflexivity.
Qed.

Lemma sound_after_expand t t' key n n' moves :
  keyed Reach t → sound Reach t →
  t !! key = Some n → t' !! key = Some n' → state n' = state n →
  adapter_all_legal_moves (state n) = Ok moves →
  (∀ m, is_Some (successors n' !! m) ↔ m ∈ moves) →
  (∀ m k', successors n' !! m = Some k' →
           ∃ s', adapter_make_move (state n) m = Ok s' ∧
                 adapter_node_key s' = Ok k') →
  (∀ k', k' ∈ get_successors n' → is_Some (t' !! k')) →
  (∀ k, k ≠ key → grown_at t t' k) →
  sound Reach t'.
Proof.
  intros Hkeyed Hsound Hn Hn' Hst Hmoves Hiff Hmk Hres Hgrown k n0 m k' Hk Hm.
  destruct (decide (k = key)) as [->|Hne].
  - assert (n0 = n') as -> by congruence. split.
    + apply Hres. unfold get_successors. apply elem_of_map_img. eauto.
    + destruct (Hmk _ _ Hm) as (s' & Hs' & Hkey).
      destruct (make_move_total (state n) moves m) as (s'' & Hs'' & Hr).
      * by apply (Hkeyed key n).
      * done.
      * apply Hiff. eauto.
      * exists s'. rewrite Hst. split; [done|]. split; [|done]. congruence.
  - pose proof (Hgrown k Hne) as Hg. unfold grown_at in Hg.
    destruct (t !! k) as [n1|] eqn:Hk1.
    + destruct Hg as (n1' & Hk1' & Hst1 & _ & Hsucc).
      assert (n1' = n0) as -> by congruence.
      rewrite <- Hsucc in Hm.
      destruct (Hsound k n1 m k' Hk1 Hm) as [Hres1 Hs]. split.
      * destruct (decide (k' = key)) as [->|Hne']; [eauto|].
        apply elem_of_dom. apply (grown_at_dom t t' k' (Hgrown k' Hne')).
        by apply elem_of_dom.
      * by rewrite <- Hst1.
    + destruct Hg as [Hnone|(n1' & Hk1' & _ & Hbare)]; [congruence|].
      assert (n1' = n0) as -> by congruence.
      rewrite Hbare in Hm. by rewrite lookup_empty in Hm.
Qed.

Lemma expand_current ai n :
  keyed Reach (search_tree ai) → sound Reach (search_tree ai) →
  search_tree ai !! current_state ai = Some n →
  ∃ t' n',
    BaseAI_expand_search_tree CurrentState_step_search_tree_expansion ai
      = (Ok tt, with_search_tree t' ai) ∧
    keyed Reach t' ∧ sound Reach t' ∧
    t' !! current_state ai = Some n' ∧ state n' = state n ∧
    is_expanded n' = true.
Proof.
  intros Hkeyed Hsound Hn. unfold BaseAI_expand_search_tree.
  unfold CurrentState_step_search_tree_expansion.
  unfold bindM at 1.
  rewrite (bindM_Ok _ _ _ _ _ (get_node_Some _ _ _ Hn)).
  destruct (is_expanded n) eqn:Hx.
  - exists (search_tree ai), n. rewrite with_search_tree_id. done.
  - destruct (expand_single_node_spec Reach _ _ _ Hkeyed Hn Hx)
      as (b & t' & n' & moves & -> & Hkeyed' & Hn' & Hst & Hx' & Hmoves & Hiff
          & Hmk & Hres & Hgrown & _).
    exists t', n'. split; [done|]. split; [done|]. split; [|done].
    by apply (sound_after_expand (search_tree ai) t' (current_state ai) n n' moves).
Qed.

Lemma play_run (rank : State → nat) :
  (∀ s m s', Reach s → adapter_make_move s m = Ok s' → (rank s' < rank s)%nat) →
  (∀ s s' k, Reach s → Reach s' →
             adapter_node_key s = Ok k → adapter_node_key s' = Ok k →
             rank s = rank s') →
  ∀ fuel ai n,
    keyed Reach (search_tree ai) → sound Reach (search_tree ai) →
    search_tree ai !! current_state ai = Some n →
    (rank (state n) < fuel)%nat →
    ∃ r ai',
      BaseAI_play (λ move ai, Some (BaseAI_make_move move ai))
           (BaseAI_expand_search_tree CurrentState_step_search_tree_expansion)
           fuel ai = Some (r, ai') ∧
      (r = Ok tt →
       PlayerInterface_is_finished ai' = (Ok true, ai') ∧
       ∃ node, search_tree ai' !! current_state ai' = Some node ∧
               Reach (state node) ∧ _is_finished node = Ok true).
Proof.
  intros Hdec Hkey. induction fuel as [|fuel IH]; intros ai n Hkeyed Hsound Hn Hr;
    [lia|].
  simpl. rewrite (bindM_Ok _ _ _ _ _ (get_node_Some _ _ _ Hn)).
  unfold lift. destruct (_is_finished n) as [[|]|e] eqn:Hfin.
  - eexists _, _. split; [reflexivity|]. intros _. split.
    + unfold PlayerInterface_is_finished.
      rewrite (bindM_Ok _ _ _ _ _ (get_node_Some _ _ _ Hn)).
      unfold lift. by rewrite Hfin.
    + exists n. split; [done|]. split; [by apply (Hkeyed _ _ Hn)|done].
  - destruct (expand_current ai n Hkeyed Hsound Hn)
      as (t' & n' & HE & Hkeyed' & Hsound' & Hn' & Hst & Hx').
    unfold BaseAI_choose_move. rewrite (bindM_Ok _ _ _ _ _ HE).
    rewrite (bindM_Ok (get_node (current_state (with_search_tree t' ai))) _
               (with_search_tree t' ai) n' (with_search_tree t' ai))
      by (by apply get_node_Some).
    simpl search_tree. unfold lift.
    destruct (find_best_move t' n') as [move|e] eqn:Hbest.
    + unfold BaseAI_make_move.
      rewrite (bindM_Ok (get_node (current_state (with_search_tree t' ai))) _
                 (with_search_tree t' ai) n' (with_search_tree t' ai))
        by (by apply get_node_Some).
      rewrite Hx'. unfold bindM at 1. unfold ret at 1.
      rewrite (bindM_Ok (get_node (current_state (with_search_tree t' ai))) _
                 (with_search_tree t' ai) n' (with_search_tree t' ai))
        by (by apply get_node_Some).
      unfold get_successor, lift, bindM.
      destruct (successors n' !! move) as [next|] eqn:Hnext.
      * destruct (Hsound' _ _ _ _ Hn' Hnext) as ([n3 Hn3] & s' & Hs' & Hrs' & Hks').
        destruct (Hkeyed' _ _ Hn3) as [Hr3 Hk3].
        destruct (Hkeyed' _ _ Hn') as [Hr' _].
        apply (IH (with_current_state next (with_search_tree t' ai)) n3);
          [done..|].
        rewrite (Hkey (state n3) s' next Hr3 Hrs' Hk3 Hks').
        specialize (Hdec _ _ _ Hr' Hs'). rewrite Hst in Hdec. lia.
      * eexists _, _. split; [reflexivity|]. discriminate.
    + eexists _, _. split; [reflexivity|]. discriminate.
  - eexists _, _. split; [reflexivity|]. discriminate.
Qed.

(** X22. The play loop of a freshly constructed engine, with the default
    expansion control over the current-state step and any move
    selection: in a game in which every move lowers a rank of the state
    that its key determines, the loop returns after at most as many
    moves as the rank of the first state, and when it returns without an
    exception the current node is a finished state, as
    [PlayerInterface.is_finished] then reports. *)
Theorem play_terminates (rank : State → nat) (s : State) (fuel : nat) :
  (∀ s m s', Reach s → adapter_make_move s m = Ok s' → (rank s' < rank s)%nat) →
  (∀ s s' k, Reach s → Reach s' →
             adapter_node_key s = Ok k → adapter_node_key s' = Ok k →
             rank s = rank s') →
  Reach s → (rank s < fuel)%nat →
  ∃ ai0 r ai',
    BaseAI_init (new_node s) = Ok ai0 ∧
    BaseAI_play (λ move ai, Some (BaseAI_make_move move ai))
         (BaseAI_expand_search_tree CurrentState_step_search_tree_expansion)
         fuel ai0 = Some (r, ai') ∧
    (r = Ok tt →
     PlayerInterface_is_finished ai' = (Ok true, ai') ∧
     ∃ node, search_tree ai' !! current_state ai' = Some node ∧
             Reach (state node) ∧ _is_finished node = Ok true).
Proof.
  intros Hdec Hkey Hs Hr.
  destruct (node_key_total s Hs) as [k Hk].
  pose proof (BaseAI_init_singleton (new_node s) k Hk) as Hinit.
  destruct (play_run rank Hdec Hkey fuel (mkAI {[k := new_node s]} k ∅ ∅ ∅)
              (new_node s)) as (r & ai' & Hplay & Hfin).
  - intros k0 n0 Hl. simpl in Hl.
    apply lookup_singleton_Some in Hl as [<- <-]. split; [done|done].
  - intros k0 n0 m k' Hl Hm. simpl in Hl.
    apply lookup_singleton_Some in Hl as [<- <-]. simpl in Hm.
    by rewrite lookup_empty in Hm.
  - simpl. apply lookup_singleton_eq.
  - done.
  - eexists _, r, ai'. split; [exact Hinit|]. split; done.
Qed.


(** X23. A freshly constructed engine holds the given node and nothing
    else: the table has the one entry, under the key of the node, and
    that key is the current node; when the key function raises, the
    constructor raises the same exception. *)
Theorem fresh_engine current :
  match _node_key current with
  | Ok k => BaseAI_init current = Ok (mkAI {[k := current]} k ∅ ∅ ∅) ∧
            ∀ ai, BaseAI_init current = Ok ai → num_states ai = 1%nat
  | Raise e => BaseAI_init current = Raise e
  end.
Proof.
  destruct (_node_key current) as [k|e] eqn:Hk.
  - rewrite (BaseAI_init_singleton current k Hk). split; [done|].
    intros ai [= <-]. unfold num_states. simpl. apply map_size_singleton.
  - unfold BaseAI_init. by rewrite Hk.
Qed.

(** X24. An engine built from [BaseAI] alone cannot choose a move: the
    step of the expansion is not implemented, so [BaseAI_choose_move] raises
    [NotImplementedError] and leaves the engine as it was, and [BaseAI_play]
    raises it in its first round unless the game is finished already, in
    which case it returns at once. *)
Theorem play_needs_expansion
    (make_move : Move → Engine → option (result unit * Engine))
    (fuel : nat) ai node :
  search_tree ai !! current_state ai = Some node →
  BaseAI_choose_move (BaseAI_expand_search_tree BaseAI_step_search_tree_expansion) ai
    = (Raise NotImplementedError, ai) ∧
  (_is_finished node = Ok true →
   BaseAI_play make_move
        (BaseAI_expand_search_tree BaseAI_step_search_tree_expansion) fuel ai
     = Some (Ok tt, ai)) ∧
  (_is_finished node = Ok false →
   BaseAI_play make_move
        (BaseAI_expand_search_tree BaseAI_step_search_tree_expansion)
        (S fuel) ai
     = Some (Raise NotImplementedError, ai)).
Proof.
  intros Hn. split; [done|]. split.
  - intros Hfin. destruct fuel; simpl;
      rewrite (bindM_Ok _ _ _ _ _ (get_node_Some _ _ _ Hn));
      unfold lift; by rewrite Hfin.
  - intros Hfin. simpl.
    rewrite (bindM_Ok _ _ _ _ _ (get_node_Some _ _ _ Hn)).
    unfold lift. by rewrite Hfin.
Qed.

Lemma sound_closed t : sound Reach t → successor_closed t.
Proof.
  intros Hsound k k' (n & Hn & Hk'). unfold get_successors in Hk'.
  apply elem_of_map_img in Hk' as [m Hm]. apply elem_of_dom.
  by destruct (Hsound _ _ _ _ Hn Hm).
Qed.

Section sweep.
Context `{!IterationOrder Key, !IterationOrderLaws Key}.

Lemma kept_refl t : kept t t.
Proof. intros k n Hn. eauto. Qed.

Lemma kept_trans t1 t2 t3 : kept t1 t2 → kept t2 t3 → kept t1 t3.
Proof.
  intros H12 H23 k n Hn. destruct (H12 _ _ Hn) as (n2 & Hn2 & Hs2).
  destruct (H23 _ _ Hn2) as (n3 & Hn3 & Hs3). exists n3. split; [done|congruence].
Qed.

Lemma kept_dom t t' k : kept t t' → k ∈ dom t → k ∈ dom t'.
Proof.
  intros Hk [n Hn]%elem_of_dom. destruct (Hk _ _ Hn) as (n' & Hn' & _).
  by apply elem_of_dom_2 in Hn'.
Qed.

Lemma expand_kept ai key n :
  keyed Reach (search_tree ai) → sound Reach (search_tree ai) →
  search_tree ai !! key = Some n → is_expanded n = false →
  ∃ b t' n',
    expand_single_node key ai = (Ok b, with_search_tree t' ai) ∧
    keyed Reach t' ∧ sound Reach t' ∧ kept (search_tree ai) t' ∧
    t' !! key = Some n'.
Proof.
  intros Hkeyed Hsound Hn Hx.
  destruct (expand_single_node_spec Reach _ _ _ Hkeyed Hn Hx)
    as (b & t' & n' & moves & Hexp & Hkeyed' & Hn' & Hst & Hx' & Hmoves & Hiff
        & Hmk & Hres & Hgrown & _).
  exists b, t', n'. split; [done|]. split; [done|]. split.
  { by apply (sound_after_expand (search_tree ai) t' key n n' moves). }
  split; [|done].
  intros k n0 Hn0. destruct (decide (k = key)) as [->|Hne].
  - exists n'. split; [done|]. congruence.
  - pose proof (Hgrown k Hne) as Hg. unfold grown_at in Hg. rewrite Hn0 in Hg.
    destruct Hg as (n0' & Hn0' & Hs & _). exists n0'. split; [done|congruence].
Qed.

Lemma visit_sound key ai n :
  keyed Reach (search_tree ai) → sound Reach (search_tree ai) →
  search_tree ai !! key = Some n →
  ∃ t1 known1 next1,
    (node <~ get_node key;;
     _ <~ (if is_expanded node then ret false else expand_single_node key);;
     node' <~ get_node key;;
     let successors := get_successors node' in
     λ ai', (Ok tt,
             mkAI (search_tree ai') (current_state ai')
                  (current_layer_nodes ai')
                  (known_nodes ai' ∪ successors)
                  (next_layer ai' ∪ (successors ∖ known_nodes ai')))) ai
    = (Ok tt, mkAI t1 (current_state ai) (current_layer_nodes ai) known1 next1) ∧
    keyed Reach t1 ∧ sound Reach t1 ∧ kept (search_tree ai) t1.
Proof.
  intros Hkeyed Hsound Hn.
  rewrite (bindM_Ok _ _ _ _ _ (get_node_Some _ _ _ Hn)).
  destruct (is_expanded n) eqn:Hx.
  - exists (search_tree ai).
    erewrite bindM_Ok; last by reflexivity.
    rewrite (bindM_Ok _ _ _ _ _ (get_node_Some _ _ _ Hn)).
    eexists _, _. split; [cbv beta zeta; reflexivity|].
    split; [done|]. split; [done|]. apply kept_refl.
  - destruct (expand_kept ai key n Hkeyed Hsound Hn Hx)
      as (b & t1 & n1 & Hexp & Hk1 & Hs1 & Hkept & Hn1).
    exists t1.
    rewrite (bindM_Ok _ _ _ _ _ Hexp).
    erewrite bindM_Ok; last by (apply get_node_Some; exact Hn1).
    eexists _, _. split; [cbv beta zeta; reflexivity|]. done.
Qed.

Lemma fold_sound keys : ∀ ai,
  keyed Reach (search_tree ai) → sound Reach (search_tree ai) →
  (∀ k, k ∈ keys → k ∈ dom (search_tree ai)) →
  ∃ t' known' next',
    foldM (λ (_ : unit) key,
             node <~ get_node key;;
             _ <~ (if is_expanded node then ret false
                   else expand_single_node key);;
             node' <~ get_node key;;
             let successors := get_successors node' in
             λ ai', (Ok tt,
                     mkAI (search_tree ai') (current_state ai')
                          (current_layer_nodes ai')
                          (known_nodes ai' ∪ successors)
                          (next_layer ai' ∪ (successors ∖ known_nodes ai'))))
          tt keys ai
    = (Ok tt, mkAI t' (current_state ai) (current_layer_nodes ai)
                   known' next') ∧
    keyed Reach t' ∧ sound Reach t' ∧ kept (search_tree ai) t'.
Proof.
  induction keys as [|key keys IH]; intros ai Hkeyed Hsound Hdom.
  - exists (search_tree ai), (known_nodes ai), (next_layer ai).
    split; [by destruct ai|]. split; [done|]. split; [done|]. apply kept_refl.
  - assert (is_Some (search_tree ai !! key)) as [n Hn].
    { apply elem_of_dom, Hdom. by left. }
    destruct (visit_sound key ai n Hkeyed Hsound Hn)
      as (t1 & known1 & next1 & Hvisit & Hk1 & Hs1 & Hkept1).
    rewrite foldM_cons. rewrite (bindM_Ok _ _ _ _ _ Hvisit).
    destruct (IH (mkAI t1 (current_state ai) (current_layer_nodes ai)
                       known1 next1)) as (t' & known' & next' & Hfold & ? & ? & ?).
    + done.
    + done.
    + intros k Hk. simpl. apply (kept_dom _ _ _ Hkept1). apply Hdom. by right.
    + exists t', known', next'. split; [exact Hfold|]. split; [done|].
      split; [done|]. by apply (kept_trans _ t1).
Qed.

Lemma step_sound ai :
  keyed Reach (search_tree ai) → sound Reach (search_tree ai) →
  current_layer_nodes ai ⊆ dom (search_tree ai) →
  next_layer ai = ∅ →
  ∃ b t' known' next',
    ForwardSweeping_step_search_tree_expansion ai =
      (Ok b, mkAI t' (current_state ai) (current_layer_nodes ai) known' next') ∧
    keyed Reach t' ∧ sound Reach t' ∧ kept (search_tree ai) t' ∧
    next' ⊆ dom t'.
Proof.
  intros Hkeyed Hsound Hlayer Hnext.
  destruct (sweep_step Reach ai Hkeyed (sound_closed _ Hsound) Hlayer)
    as (t'' & known'' & next'' & Hstep' & _ & Hcl'' & _ & _ & _ & _ & Hnext'').
  destruct (fold_sound (set_iter (current_layer_nodes ai)) ai Hkeyed Hsound)
    as (t' & known' & next' & Hfold & Hk' & Hs' & Hkept').
  { intros k Hk. apply Hlayer. by apply elem_of_set_iter. }
  assert (ForwardSweeping_step_search_tree_expansion ai
          = (Ok (0 <? size next')%nat,
             mkAI t' (current_state ai) (current_layer_nodes ai) known' next'))
    as Hstep.
  { unfold ForwardSweeping_step_search_tree_expansion.
    by rewrite (bindM_Ok _ _ _ _ _ Hfold). }
  exists (0 <? size next')%nat, t', known', next'.
  split; [done|]. split; [done|]. split; [done|]. split; [done|].
  rewrite Hstep in Hstep'. injection Hstep' as _ -> _ ->.
  rewrite Hnext'', Hnext. intros x Hx.
  apply elem_of_union in Hx as [Hx|Hx]; [set_solver|].
  apply elem_of_difference in Hx as [Hx _].
  apply elem_of_set_bind in Hx as (k & Hk & Hx).
  apply successors_of_edge in Hx. by apply (Hcl'' k).
Qed.

Lemma loop_sound remaining : ∀ ai,
  keyed Reach (search_tree ai) → sound Reach (search_tree ai) →
  current_layer_nodes ai ⊆ dom (search_tree ai) →
  ∃ ai',
    ForwardSweeping_loop ForwardSweeping_step_search_tree_expansion
                         remaining false ai = (Ok tt, ai') ∧
    current_state ai' = current_state ai ∧
    keyed Reach (search_tree ai') ∧ sound Reach (search_tree ai') ∧
    kept (search_tree ai) (search_tree ai').
Proof.
  induction remaining as [|remaining IH]; intros ai Hkeyed Hsound Hlayer.
  - exists ai. split; [done|]. split; [done|]. split; [done|]. split; [done|].
    apply kept_refl.
  - rewrite ForwardSweeping_loop_S.
    set (ai0 := mkAI (search_tree ai) (current_state ai)
                     (current_layer_nodes ai) (known_nodes ai) ∅).
    unfold bindM at 1. fold ai0.
    destruct (step_sound ai0 Hkeyed Hsound Hlayer eq_refl)
      as (b & t' & known' & next' & Hstep & Hk' & Hs' & Hkept' & Hnext').
    rewrite (bindM_Ok _ _ _ _ _ Hstep). unfold bindM at 1. simpl.
    destruct b; simpl.
    + destruct (IH (mkAI t' (current_state ai) next' known' next'))
        as (ai' & Hloop & Hcur & ? & ? & Hkept''); [done..|].
      exists ai'. split; [exact Hloop|]. split; [done|]. split; [done|].
      split; [done|]. by apply (kept_trans _ t').
    + rewrite ForwardSweeping_loop_abort. eexists. split; [reflexivity|].
      done.
Qed.

Lemma bounded_sweep_sound (time_limit elapsed_time : Q)
    (node_limit search_depth : Z) ai n :
  keyed Reach (search_tree ai) → sound Reach (search_tree ai) →
  search_tree ai !! current_state ai = Some n →
  ∃ ai' n',
    ForwardSweeping_expand_search_tree search_depth
      (Bounded_step_search_tree_expansion time_limit node_limit elapsed_time
         ForwardSweeping_step_search_tree_expansion) ai = (Ok tt, ai') ∧
    current_state ai' = current_state ai ∧
    keyed Reach (search_tree ai') ∧ sound Reach (search_tree ai') ∧
    search_tree ai' !! current_state ai = Some n' ∧ state n' = state n.
Proof.
  intros Hkeyed Hsound Hn. unfold ForwardSweeping_expand_search_tree.
  set (ai0 := mkAI (search_tree ai) (current_state ai)
                   {[current_state ai]} {[current_state ai]} (next_layer ai)).
  unfold bindM at 1. fold ai0.
  destruct (bounded_sweep_loop time_limit elapsed_time node_limit
              ForwardSweeping_step_search_tree_expansion
              (Z.to_nat search_depth) ai0) as (d & _ & ->).
  destruct (loop_sound d ai0 Hkeyed Hsound) as (ai' & Hloop & Hcur & Hk' & Hs' & Hkept).
  { simpl. apply singleton_subseteq_l. by apply elem_of_dom_2 in Hn. }
  destruct (Hkept _ _ Hn) as (n' & Hn' & Hst).
  exists ai', n'. done.
Qed.

End sweep.

Section acyclic.
Context `{!IterationOrder Key, !IterationOrderLaws Key}.
Context (rank : State → nat).
Hypothesis rank_move :
  ∀ s m s', Reach s → adapter_make_move s m = Ok s' → (rank s' < rank s)%nat.
Hypothesis rank_key :
  ∀ s s' k, Reach s → Reach s' →
            adapter_node_key s = Ok k → adapter_node_key s' = Ok k →
            rank s = rank s'.

Lemma edge_rank t a b na nb :
  keyed Reach t → sound Reach t →
  edge t a b → t !! a = Some na → t !! b = Some nb →
  (rank (state nb) < rank (state na))%nat.
Proof.
  intros Hkeyed Hsound (n & Hn & Hb) Ha Hnb.
  assert (n = na) as -> by congruence.
  unfold get_successors in Hb. apply elem_of_map_img in Hb as [m Hm].
  destruct (Hsound _ _ _ _ Ha Hm) as (_ & s' & Hs' & Hr' & Hk').
  destruct (Hkeyed _ _ Hnb) as [Hrb Hkb]. destruct (Hkeyed _ _ Ha) as [Hra _].
  rewrite (rank_key (state nb) s' b Hrb Hr' Hkb Hk').
  by apply (rank_move (state na) m).
Qed.

Lemma reach_rank t a b :
  keyed Reach t → sound Reach t → rtc (edge t) a b →
  ∀ na nb, t !! a = Some na → t !! b = Some nb →
           (rank (state nb) ≤ rank (state na))%nat.
Proof.
  intros Hkeyed Hsound. induction 1 as [a|a c b Hac Hcb IH]; intros na nb Ha Hb.
  - assert (na = nb) as -> by congruence. lia.
  - assert (is_Some (t !! c)) as [nc Hc].
    { apply elem_of_dom. by apply (sound_closed t Hsound a c). }
    specialize (IH nc nb Hc Hb).
    pose proof (edge_rank t a c na nc Hkeyed Hsound Hac Ha Hc). lia.
Qed.

Lemma make_move_sound move ai n ai1 :
  keyed Reach (search_tree ai) → sound Reach (search_tree ai) →
  search_tree ai !! current_state ai = Some n →
  BaseAI_make_move move ai = (Ok tt, ai1) →
  keyed Reach (search_tree ai1) ∧ sound Reach (search_tree ai1) ∧
  (∃ n1, search_tree ai1 !! current_state ai = Some n1 ∧ state n1 = state n) ∧
  edge (search_tree ai1) (current_state ai) (current_state ai1).
Proof.
  intros Hkeyed Hsound Hn Hmove.
  destruct (BaseAI_make_move_run Reach move ai n Hkeyed Hn)
    as (t1 & n1 & moves & Hrun & Hkeyed1 & Hn1 & Hst & Hgrown & _ & Hexp & Hunexp).
  rewrite Hmove in Hrun.
  destruct (successors n1 !! move) as [next|] eqn:Hnext; [|discriminate].
  injection Hrun as ->. simpl.
  split; [done|]. split; [|split].
  - destruct (is_expanded n) eqn:Hx.
    + by destruct (Hexp eq_refl) as [-> _].
    + destruct (Hunexp eq_refl) as ((b & Hb) & Hmoves & Hiff).
      destruct (expand_single_node_spec Reach _ _ _ Hkeyed Hn Hx)
        as (b' & t' & n' & moves' & Hexp' & _ & Hn' & Hst' & _ & Hmoves' & Hiff'
            & Hmk & Hres & Hgrown' & _).
      rewrite Hb in Hexp'. injection Hexp' as _ <-.
      assert (n' = n1) as -> by congruence.
      by apply (sound_after_expand (search_tree ai) t1 (current_state ai)
                  n n1 moves').
  - eauto.
  - exists n1. split; [done|]. unfold get_successors.
    apply elem_of_map_img. eauto.
Qed.

(** X25. In a game in which every move lowers a rank of the state, so
    that no state can come back, pruning after a committed move deletes
    the node that was current before the move: it is not reachable from
    the new current node, and the pruned table is smaller than the table
    the move left. *)
Theorem pruning_drops_previous_node move fuel ai n ai1 :
  keyed Reach (search_tree ai) → sound Reach (search_tree ai) →
  search_tree ai !! current_state ai = Some n →
  BaseAI_make_move move ai = (Ok tt, ai1) →
  (size (search_tree ai1) < fuel)%nat →
  ∃ ai',
    NaivePruning_make_move fuel (BaseAI_make_move move) ai = Some (Ok tt, ai') ∧
    (current_state ai ∉ dom (search_tree ai')) ∧
    current_state ai' ∈ dom (search_tree ai') ∧
    (num_states ai' < num_states ai1)%nat.
Proof.
  intros Hkeyed Hsound Hn Hmove Hfuel.
  destruct (make_move_sound move ai n ai1 Hkeyed Hsound Hn Hmove)
    as (Hkeyed1 & Hsound1 & (n0 & Hn0 & _) & Hedge).
  pose proof (sound_closed _ Hsound1) as Hcl1.
  assert (current_state ai1 ∈ dom (search_tree ai1)) as Hcur1
    by (by apply (Hcl1 (current_state ai))).
  destruct (NaivePruning_make_move_spec fuel (BaseAI_make_move move) ai ai1
              Hmove Hcl1 Hcur1 Hfuel)
    as (t' & hull & _ & Hprune & Hdom & Hsame & _ & _).
  exists (with_search_tree t' ai1). split; [done|]. simpl.
  assert (current_state ai ∉ dom t') as Hgone.
  { intros Hin. apply Hdom in Hin.
    apply elem_of_dom in Hcur1 as [n1 Hn1].
    pose proof (reach_rank _ _ _ Hkeyed1 Hsound1 Hin n1 n0 Hn1 Hn0).
    pose proof (edge_rank _ _ _ n0 n1 Hkeyed1 Hsound1 Hedge Hn0 Hn1). lia. }
  split; [done|]. split; [apply Hdom; apply rtc_refl|].
  unfold num_states. simpl. rewrite <- !size_dom.
  apply subset_size. split.
  - intros k Hk. pose proof (Hsame k Hk) as Hl.
    apply elem_of_dom in Hk as [x Hx]. rewrite Hx in Hl. symmetry in Hl.
    by apply elem_of_dom_2 in Hl.
  - intros Hsub. apply Hgone, Hsub. by apply elem_of_dom_2 in Hn0.
Qed.

Lemma pruned_move_sound move ai n :
  keyed Reach (search_tree ai) → sound Reach (search_tree ai) →
  search_tree ai !! current_state ai = Some n →
  ∃ r ai',
    NaivePruning_BaseAI_make_move move ai = Some (r, ai') ∧
    (r = Ok tt →
     keyed Reach (search_tree ai') ∧ sound Reach (search_tree ai') ∧
     ∃ n', search_tree ai' !! current_state ai' = Some n' ∧
           (rank (state n') < rank (state n))%nat).
Proof.
  intros Hkeyed Hsound Hn. unfold NaivePruning_BaseAI_make_move.
  destruct (BaseAI_make_move move ai) as [[[]|e] ai1] eqn:Hmove.
  - destruct (make_move_sound move ai n ai1 Hkeyed Hsound Hn Hmove)
      as (Hkeyed1 & Hsound1 & (n0 & Hn0 & Hst0) & Hedge).
    pose proof (sound_closed _ Hsound1) as Hcl1.
    assert (current_state ai1 ∈ dom (search_tree ai1)) as Hcur1
      by (by apply (Hcl1 (current_state ai))).
    simpl.
    destruct (NaivePruning_make_move_spec (S (size (search_tree ai1)))
                (BaseAI_make_move move) ai ai1 Hmove Hcl1 Hcur1)
      as (t' & hull & _ & Hprune & Hdom & Hsame & Hcl' & _); [lia|].
    exists (Ok tt), (with_search_tree t' ai1). split; [done|]. intros _. simpl.
    assert (Hsub : ∀ k x, t' !! k = Some x → search_tree ai1 !! k = Some x).
    { intros k x Hx. rewrite <- (Hsame k); [done|]. by apply elem_of_dom_2 in Hx. }
    split; [|split].
    + intros k x Hx. apply (Hkeyed1 k x). by apply Hsub.
    + intros k x m k' Hx Hm.
      destruct (Hsound1 k x m k' (Hsub _ _ Hx) Hm) as [_ Hs]. split; [|done].
      apply elem_of_dom. apply (Hcl' k). exists x. split; [done|].
      unfold get_successors. apply elem_of_map_img. eauto.
    + assert (current_state ai1 ∈ dom t') as [n1 Hn1]%elem_of_dom
        by (apply Hdom; apply rtc_refl).
      exists n1. split; [done|]. rewrite <- Hst0.
      by apply (edge_rank (search_tree ai1) (current_state ai)
                  (current_state ai1) n0 n1 Hkeyed1 Hsound1 Hedge Hn0), Hsub.
  - exists (Raise e), ai1. split; [|discriminate]. simpl.
    unfold NaivePruning_make_move. by rewrite Hmove.
Qed.

Lemma play_rule (make_move : Move → Engine → option (result unit * Engine))
    (expand_search_tree : EM unit) :
  (∀ ai n,
     keyed Reach (search_tree ai) → sound Reach (search_tree ai) →
     search_tree ai !! current_state ai = Some n →
     ∃ ai' n',
       expand_search_tree ai = (Ok tt, ai') ∧
       current_state ai' = current_state ai ∧
       keyed Reach (search_tree ai') ∧ sound Reach (search_tree ai') ∧
       search_tree ai' !! current_state ai = Some n' ∧ state n' = state n) →
  (∀ move ai n,
     keyed Reach (search_tree ai) → sound Reach (search_tree ai) →
     search_tree ai !! current_state ai = Some n →
     ∃ r ai',
       make_move move ai = Some (r, ai') ∧
       (r = Ok tt →
        keyed Reach (search_tree ai') ∧ sound Reach (search_tree ai') ∧
        ∃ n', search_tree ai' !! current_state ai' = Some n' ∧
              (rank (state n') < rank (state n))%nat)) →
  ∀ fuel ai n,
    keyed Reach (search_tree ai) → sound Reach (search_tree ai) →
    search_tree ai !! current_state ai = Some n →
    (rank (state n) < fuel)%nat →
    ∃ r ai',
      BaseAI_play make_move expand_search_tree fuel ai = Some (r, ai') ∧
      (r = Ok tt →
       PlayerInterface_is_finished ai' = (Ok true, ai') ∧
       ∃ node, search_tree ai' !! current_state ai' = Some node ∧
               Reach (state node) ∧ _is_finished node = Ok true).
Proof.
  intros HE HM. induction fuel as [|fuel IH];
    intros ai n Hkeyed Hsound Hn Hr; [lia|].
  simpl. rewrite (bindM_Ok _ _ _ _ _ (get_node_Some _ _ _ Hn)).
  unfold lift. destruct (_is_finished n) as [[|]|e] eqn:Hfin.
  - eexists _, _. split; [reflexivity|]. intros _. split.
    + unfold PlayerInterface_is_finished.
      rewrite (bindM_Ok _ _ _ _ _ (get_node_Some _ _ _ Hn)).
      unfold lift. by rewrite Hfin.
    + exists n. split; [done|]. split; [by apply (Hkeyed _ _ Hn)|done].
  - destruct (HE ai n Hkeyed Hsound Hn)
      as (ai1 & n1 & HE1 & Hcur1 & Hkeyed1 & Hsound1 & Hn1 & Hst1).
    rewrite <- Hcur1 in Hn1.
    unfold BaseAI_choose_move. rewrite (bindM_Ok _ _ _ _ _ HE1).
    rewrite (bindM_Ok _ _ _ _ _ (get_node_Some _ _ _ Hn1)).
    unfold lift.
    destruct (find_best_move (search_tree ai1) n1) as [move|e] eqn:Hbest.
    + destruct (HM move ai1 n1 Hkeyed1 Hsound1 Hn1) as (r & ai2 & -> & Hok).
      destruct r as [[]|e].
      * destruct (Hok eq_refl) as (Hkeyed2 & Hsound2 & n2 & Hn2 & Hlt).
        apply (IH ai2 n2); [done..|]. rewrite Hst1 in Hlt. lia.
      * eexists _, _. split; [reflexivity|]. discriminate.
    + eexists _, _. split; [reflexivity|]. discriminate.
  - eexists _, _. split; [reflexivity|]. discriminate.
Qed.

(** X26. The play loop of the engine that [examples/tictactoe.py]
    builds: a forward sweep under a node budget, and pruning after each
    move.  From a freshly constructed engine, in a game in which every
    move lowers a rank of the state that its key determines, and with any
    move selection, the loop returns after at most as many moves as the
    rank of the first state, and when it returns without an exception the
    current node is a finished state. *)
Theorem play_sweeping_pruning_terminates (elapsed_time : Q)
    (node_limit search_depth : Z) (s : State) (fuel : nat) :
  0 < search_depth → Reach s → (rank s < fuel)%nat →
  ∃ ai0 r ai',
    ForwardSweeping_init search_depth (new_node s) = Ok ai0 ∧
    BaseAI_play NaivePruning_BaseAI_make_move
      (ForwardSweeping_expand_search_tree search_depth
         (Bounded_step_search_tree_expansion 0 node_limit elapsed_time
            ForwardSweeping_step_search_tree_expansion))
      fuel ai0 = Some (r, ai') ∧
    (r = Ok tt →
     PlayerInterface_is_finished ai' = (Ok true, ai') ∧
     ∃ node, search_tree ai' !! current_state ai' = Some node ∧
             Reach (state node) ∧ _is_finished node = Ok true).
Proof.
  intros Hdepth Hs Hr.
  destruct (node_key_total s Hs) as [k Hk].
  pose proof (BaseAI_init_singleton (new_node s) k Hk) as Hinit.
  assert (ForwardSweeping_init search_depth (new_node s)
          = Ok (mkAI {[k := new_node s]} k ∅ ∅ ∅)) as Hinit'.
  { unfold ForwardSweeping_init.
    assert ((0 <? search_depth) = true) as -> by (apply Z.ltb_lt; lia).
    exact Hinit. }
  destruct (play_rule NaivePruning_BaseAI_make_move
              (ForwardSweeping_expand_search_tree search_depth
                 (Bounded_step_search_tree_expansion 0 node_limit elapsed_time
                    ForwardSweeping_step_search_tree_expansion)))
    with (fuel := fuel) (ai := mkAI {[k := new_node s]} k ∅ ∅ ∅)
         (n := new_node s)
    as (r & ai' & Hplay & Hfin).
  - intros ai n. apply bounded_sweep_sound.
  - apply pruned_move_sound.
  - intros k0 n0 Hl. simpl in Hl.
    apply lookup_singleton_Some in Hl as [<- <-]. split; [done|done].
  - intros k0 n0 m k' Hl Hm. simpl in Hl.
    apply lookup_singleton_Some in Hl as [<- <-]. simpl in Hm.
    by rewrite lookup_empty in Hm.
  - simpl. apply lookup_singleton_eq.
  - done.
  - eexists _, r, ai'. split; [exact Hinit'|]. split; done.
Qed.

End acyclic.

End DriverFacts.

(** * The engine on concrete games *)

Module ExampleFacts.
Import TicTacToe TicTacToeSpec TicTacToeFacts Examples.

#[export] Instance listed_order_laws {Key} `{Countable Key} :
  IterationOrderLaws Key.
Proof.
  split.
  - intros s Hs. simpl. destruct (elements s) as [|k l] eqn:E.
    + apply elements_empty_inv in E. by apply leibniz_equiv in E.
    + exists k. split; [done|]. apply elem_of_elements. rewrite E. left.
  - done.
  - done.
Qed.

#[export] Instance TicTacToe_total : AdapterTotal reachable.
Proof.
  split.
  - intros s Hs. apply all_legal_moves_total. by apply reachable_inv in Hs as [? _].
  - intros s moves move Hs Hm Hin. simpl in *.
    apply (all_legal_moves_legal _ _ _ Hm) in Hin.
    destruct (make_move_legal s move) as [s' Hs']; [|done|].
    + by apply reachable_inv in Hs as [? _].
    + exists s'. split; [done|]. by eapply reachable_move.
  - intros s Hs. apply node_key_wf. by apply reachable_inv in Hs as [? _].
Qed.

Example init_start : BaseAI_init start_node = Ok start_engine.
Proof. reflexivity. Qed.
Example start_to_centre :
  NaivePruning_make_move 100 (BaseAI_make_move (1, 1)) start_engine
  = Some (Ok tt, centre_engine).
Proof. reflexivity. Qed.

Lemma elem_of_fields c : c ∈ fields.
Proof. destruct c as [[]|]; unfold fields; repeat constructor. Qed.

Lemma reachable_key s k : reachable s → node_key s = Ok k → k ∈ all_keys.
Proof.
  intros [Hwf _]%reachable_inv. destruct s as [b a]. simpl in Hwf.
  destruct (board_view _ Hwf) as (c0&c1&c2&c3&c4&c5&c6&c7&c8&->).
  rewrite node_key_board_of. intros [= <-].
  unfold all_keys. apply elem_of_list_to_set.
  apply list_elem_of_bind; exists c0; split; [|apply elem_of_fields].
  apply list_elem_of_bind; exists c1; split; [|apply elem_of_fields].
  apply list_elem_of_bind; exists c2; split; [|apply elem_of_fields].
  apply list_elem_of_bind; exists c3; split; [|apply elem_of_fields].
  apply list_elem_of_bind; exists c4; split; [|apply elem_of_fields].
  apply list_elem_of_bind; exists c5; split; [|apply elem_of_fields].
  apply list_elem_of_bind; exists c6; split; [|apply elem_of_fields].
  apply list_elem_of_bind; exists c7; split; [|apply elem_of_fields].
  apply list_elem_of_bind; exists c8; split; [|apply elem_of_fields].
  apply list_elem_of_here.
Qed.

Lemma start_engine_sound :
  keyed reachable (search_tree start_engine) ∧
  successor_closed (search_tree start_engine) ∧
  current_state start_engine ∈ dom (search_tree start_engine).
Proof. apply (BaseAI_init_spec reachable starting_state); [constructor|exact init_start]. Qed.

Example play_centre : play [(1, 1)] = Ok centre_state.
Proof. reflexivity. Qed.

Lemma centre_engine_sound :
  keyed reachable (search_tree centre_engine) ∧
  successor_closed (search_tree centre_engine) ∧
  current_state centre_engine ∈ dom (search_tree centre_engine).
Proof.
  apply (BaseAI_init_spec reachable centre_state).
  - apply (reachable_play [(1, 1)]), play_centre.
  - reflexivity.
Qed.

Lemma pair_eta_fst {A B} (p : A * B) (a : A) : p.1 = a → p = (a, p.2).
Proof. destruct p. simpl. by intros ->. Qed.

Example commit_centre :
  BaseAI_make_move (1, 1) start_engine = (Ok tt, centre_committed).
Proof.
  unfold centre_committed.
  apply (pair_eta_fst (BaseAI_make_move (1, 1) start_engine) (Ok tt)).
  vm_compute. reflexivity.
Qed.

(** ** Witnesses *)

Lemma node_key_canonical_witness :
  (∃ k, node_key starting_state = Ok k) ∧
  (node_key starting_state = node_key centre_state ↔
   board starting_state = board centre_state ∧
   active_player starting_state = active_player centre_state).
Proof.
  apply (node_key_canonical starting_state centre_state).
  - constructor.
  - apply (reachable_play [(1, 1)]). reflexivity.
Defined.

Lemma illegal_move_rejected_witness :
  ∃ ai',
    BaseAI_make_move (1, 1) centre_engine = (Raise IllegalMoveError, ai') ∧
    current_state ai' = current_state centre_engine ∧
    (is_expanded centre_node = true → ai' = centre_engine) ∧
    (is_expanded centre_node = false →
     ∃ b, expand_single_node (current_state centre_engine) centre_engine =
            (Ok b, ai')).
Proof.
  apply (illegal_move_rejected reachable (1, 1) centre_engine
           centre_node centre_moves).
  - apply centre_engine_sound.
  - reflexivity.
  - reflexivity.
  - intros [=].
  - apply (occupied_no_legal_move centre_state _ (1, 1) PLAYER_X); reflexivity.
Defined.




Lemma full_expansion_reaches_fixed_point_witness :
  ∃ ai',
    (∀ fuel, (size all_keys ≤ fuel)%nat →
       Full_expand_search_tree OneStep_step_search_tree_expansion fuel
                               start_engine = Some (Ok tt, ai')) ∧
    any_unexpanded ai' = false ∧
    (∀ k n, search_tree ai' !! k = Some n → is_expanded n = true) ∧
    keyed reachable (search_tree ai') ∧
    expanded_faithfully (search_tree start_engine) (search_tree ai') ∧
    (successor_closed (search_tree start_engine) →
     successor_closed (search_tree ai')) ∧
    stable (search_tree start_engine) (search_tree ai') ∧
    dom (search_tree start_engine) ⊆ dom (search_tree ai').
Proof.
  apply (full_expansion_reaches_fixed_point reachable all_keys start_engine).
  - exact reachable_key.
  - apply start_engine_sound.
Defined.

Lemma successor_closure_invariant_witness :
  ∃ hull ai',
    transitive_hull_loop 100 (search_tree centre_committed) ∅
                         {[current_state centre_committed]} = Some (Ok hull) ∧
    NaivePruning_make_move 100 (BaseAI_make_move (1, 1)) start_engine
      = Some (Ok tt, ai') ∧
    successor_closed (search_tree ai') ∧
    current_state ai' ∈ dom (search_tree ai').
Proof.
  destruct (successor_closure_invariant reachable start_engine)
    as (_ & _ & _ & Hmove); [apply start_engine_sound..|].
  apply (Hmove (1, 1) 100%nat centre_committed).
  - apply start_engine_sound.
  - exact commit_centre.
  - vm_compute. lia.
Defined.

(** ** Counterexamples *)



(** C3. The code does not leave the table as it was: the engine that has
    just committed X to the centre holds one node; a second move onto the
    centre is rejected with [IllegalMoveError], and by then the table has
    grown from one node to nine, because [make_move] expands the whole
    current node before it looks the move up; a note in the source says
    that only the successor for the requested move should be added.  The
    reference to the current node is unchanged. *)
Lemma illegal_move_alters_table :
  NaivePruning_make_move 100 (BaseAI_make_move (1, 1)) start_engine
    = Some (Ok tt, centre_engine) ∧
  board centre_state !! (1, 1) = Some (Some PLAYER_X) ∧
  (BaseAI_make_move (1, 1) centre_engine).1 = Raise IllegalMoveError ∧
  num_states centre_engine = 1%nat ∧
  num_states (BaseAI_make_move (1, 1) centre_engine).2 = 9%nat ∧
  current_state (BaseAI_make_move (1, 1) centre_engine).2
    = current_state centre_engine.
Proof.
  split; [exact start_to_centre|]. split; [reflexivity|].
  split; [|split; [|split]]; vm_compute; reflexivity.
Qed.


(** C8 as stated fails for the Full control as such: tic-tac-toe has
    finitely many reachable states, and over the step of
    [CurrentStateExpansionMixin] the loop on the engine of the starting
    state never returns.  Its first round expands the starting state, the
    nine successors stay unexpanded, and from then on the step has nothing
    to do. *)
Lemma full_expansion_needs_progress :
  (∀ s k, reachable s → node_key s = Ok k → k ∈ all_keys) ∧
  keyed reachable (search_tree start_engine) ∧
  (CurrentState_step_search_tree_expansion start_engine).1 = Ok true ∧
  any_unexpanded start_expanded = true ∧
  ∀ fuel,
    Full_expand_search_tree CurrentState_step_search_tree_expansion fuel
                            start_engine = None.
Proof.
  split; [exact reachable_key|]. split; [apply start_engine_sound|].
  split; [vm_compute; reflexivity|].
  assert (any_unexpanded start_expanded = true) as Hany
    by (vm_compute; reflexivity).
  split; [exact Hany|].
  assert (CurrentState_step_search_tree_expansion start_engine
          = (Ok true, start_expanded)) as Hstep.
  { unfold start_expanded.
    apply (pair_eta_fst (CurrentState_step_search_tree_expansion start_engine)).
    vm_compute. reflexivity. }
  assert (CurrentState_step_search_tree_expansion start_expanded
          = (Ok false, start_expanded)) as Hidle.
  { eapply CurrentState_step_expanded; [vm_compute; reflexivity|reflexivity]. }
  apply (Full_idle_after_step _ true false start_engine start_expanded);
    [exact Hstep|vm_compute; reflexivity|exact Hidle|exact Hany].
Qed.

(** C5. With a node limit [n > 0] the bounded step returns what the
    wrapped step returned, [and] no budget being used up, measured on the
    table the wrapped step left: a wrapped step that raises is passed
    on, and otherwise the bounded step returns a boolean, true exactly
    when work happened, the table holds fewer than [n] nodes and the time
    budget, if there is one, is not used up; so from [n] nodes on it
    returns false.  The limit is checked after the step only: on the
    starting engine of tic-tac-toe, with [n = 2], one One-Step-All step
    reports work, the bounded step returns false, and the table holds ten
    nodes. *)
Theorem bounded_step_contract :
  (∀ (State Move Key Score : Type)
     (EqMove : EqDecision Move) (CountMove : Countable Move)
     (EqKey : EqDecision Key) (CountKey : Countable Key)
     (inner : M bool) (ai : AI State Move Key Score)
     (time_limit elapsed_time : Q) (node_limit : Z),
     0 < node_limit →
     match inner ai with
     | (Raise e, ai') =>
         Bounded_step_search_tree_expansion
           time_limit node_limit elapsed_time inner ai = (Raise e, ai')
     | (Ok expansion_happened, ai') =>
         ∃ more,
           Bounded_step_search_tree_expansion
             time_limit node_limit elapsed_time inner ai = (Ok more, ai') ∧
           (more = true ↔
            expansion_happened = true ∧
            Z.of_nat (num_states ai') < node_limit ∧
            ((time_limit == 0)%Q ∨ (elapsed_time < time_limit)%Q)) ∧
           (node_limit ≤ Z.of_nat (num_states ai') → more = false)
     end) ∧
  ((OneStep_step_search_tree_expansion start_engine).1 = Ok true ∧
   (Bounded_step_search_tree_expansion
      0 2 0 OneStep_step_search_tree_expansion start_engine).1 = Ok false ∧
   num_states
     (Bounded_step_search_tree_expansion
        0 2 0 OneStep_step_search_tree_expansion start_engine).2 = 10%nat).
Proof.
  split.
  - intros State Move Key Score ? ? ? ? inner ai time_limit elapsed_time
      node_limit Hlimit.
    rewrite Bounded_step_spec.
    destruct (inner ai) as [[happened|e] ai']; [|done].
    eexists. split; [reflexivity|].
    assert ((node_limit =? 0) = false) as -> by (apply Z.eqb_neq; lia).
    simpl. split.
    + rewrite andb_true_iff, negb_true_iff, orb_false_iff.
      rewrite Z.leb_gt, andb_false_iff, negb_false_iff.
      rewrite Qeq_bool_iff. rewrite <- not_true_iff_false, Qle_bool_iff.
      split.
      * intros (? & ? & [?|Hle]); repeat split; auto.
        right. by apply Qnot_le_lt.
      * intros (? & ? & [?|Hlt]); repeat split; auto.
        right. by apply Qlt_not_le.
    + intros Hle. apply Z.leb_le in Hle. rewrite Hle. simpl.
      apply andb_false_r.
  - split; [|split]; vm_compute; reflexivity.
Qed.

Lemma bounded_step_contract_witness :
  match OneStep_step_search_tree_expansion start_engine with
  | (Raise e, ai') =>
      Bounded_step_search_tree_expansion
        0 2 0 OneStep_step_search_tree_expansion start_engine = (Raise e, ai')
  | (Ok expansion_happened, ai') =>
      ∃ more,
        Bounded_step_search_tree_expansion
          0 2 0 OneStep_step_search_tree_expansion start_engine
          = (Ok more, ai') ∧
        (more = true ↔
         expansion_happened = true ∧
         Z.of_nat (num_states ai') < 2 ∧
         ((0 == 0)%Q ∨ (0 < 0)%Q)) ∧
        (2 ≤ Z.of_nat (num_states ai') → more = false)
  end.
Proof.
  apply (proj1 bounded_step_contract GameState (Z * Z)%type string unit
           _ _ _ _ OneStep_step_search_tree_expansion start_engine 0%Q 0%Q 2).
  lia.
Defined.

(** ** Witnesses of the further properties *)

Lemma one_step_fixed_point_witness :
  OneStep_step_search_tree_expansion won_expanded = (Ok false, won_expanded).
Proof. apply (one_step_fixed_point won_expanded). vm_compute. reflexivity. Defined.

Lemma full_over_current_state_never_returns_witness :
  Full_expand_search_tree CurrentState_step_search_tree_expansion 5 start_expanded
  = None.
Proof.
  eapply (full_over_current_state_never_returns start_expanded).
  - vm_compute. reflexivity.
  - reflexivity.
  - vm_compute. reflexivity.
Defined.

Lemma add_node_outcome_witness :
  ∃ is_new t',
    add_node centre_node start_engine
      = (Ok is_new, with_search_tree t' start_engine) ∧
    (is_new = true ↔ search_tree start_engine !! "    X    "%string = None) ∧
    dom t' = dom (search_tree start_engine) ∪ {["    X    "%string]} ∧
    size t' = (if is_new then S (size (search_tree start_engine))
               else size (search_tree start_engine)) ∧
    (∀ k', k' ≠ "    X    "%string → t' !! k' = search_tree start_engine !! k') ∧
    (is_new = true → t' !! "    X    "%string = Some centre_node) ∧
    (∀ resident, search_tree start_engine !! "    X    "%string = Some resident →
       ∃ merged, t' !! "    X    "%string = Some merged ∧
                 state merged = state resident ∧
                 is_expanded merged = is_expanded resident).
Proof.
  apply (add_node_outcome centre_node "    X    "%string start_engine).
  - reflexivity.
  - intros resident Hres. vm_compute in Hres. discriminate.
Defined.

Lemma current_state_step_once_witness :
  ∃ b ai',
    CurrentState_step_search_tree_expansion start_engine = (Ok b, ai') ∧
    current_state ai' = current_state start_engine ∧
    (is_expanded <$> search_tree ai' !! current_state start_engine) = Some true ∧
    (∀ k, k ≠ current_state start_engine →
          grown_at (search_tree start_engine) (search_tree ai') k) ∧
    CurrentState_step_search_tree_expansion ai' = (Ok false, ai') ∧
    (is_expanded start_node = true → b = false ∧ ai' = start_engine).
Proof.
  apply (current_state_step_once reachable start_engine start_node).
  - apply start_engine_sound.
  - reflexivity.
Defined.

Lemma expand_single_node_outcome_witness :
  ∃ b ai' n' moves,
    expand_single_node "         "%string start_engine = (Ok b, ai') ∧
    adapter_all_legal_moves (state start_node) = Ok moves ∧
    (b = true ↔ moves ≠ []) ∧
    search_tree ai' !! "         "%string = Some n' ∧
    state n' = state start_node ∧ is_expanded n' = true ∧
    (∀ m, is_Some (successors n' !! m) ↔ m ∈ moves) ∧
    (∀ m k', successors n' !! m = Some k' →
             k' ∈ dom (search_tree ai') ∧
             ∃ s', adapter_make_move (state start_node) m = Ok s' ∧
                   adapter_node_key s' = Ok k') ∧
    dom (search_tree start_engine) ⊆ dom (search_tree ai') ∧
    current_state ai' = current_state start_engine.
Proof.
  apply (expand_single_node_outcome reachable "         "%string start_node
           start_engine).
  - apply start_engine_sound.
  - reflexivity.
  - reflexivity.
Defined.

Lemma legal_move_committed_witness :
  ∃ s' k' ai' n',
    adapter_make_move (state start_node) (1, 1) = Ok s' ∧
    adapter_node_key s' = Ok k' ∧
    BaseAI_make_move (1, 1) start_engine = (Ok tt, ai') ∧
    current_state ai' = k' ∧
    search_tree ai' !! k' = Some n' ∧ _node_key n' = Ok k' ∧
    dom (search_tree start_engine) ⊆ dom (search_tree ai').
Proof.
  apply (legal_move_committed reachable (1, 1) start_engine start_node
           all_coords).
  - apply start_engine_sound.
  - reflexivity.
  - reflexivity.
  - reflexivity.
  - unfold all_coords, range3. simpl. repeat constructor.
Defined.

Lemma play_terminates_witness :
  ∃ ai0 r ai',
    BaseAI_init start_node = Ok ai0 ∧
    BaseAI_play (λ move ai, Some (BaseAI_make_move move ai))
         (BaseAI_expand_search_tree CurrentState_step_search_tree_expansion)
         10 ai0 = Some (r, ai') ∧
    (r = Ok tt →
     PlayerInterface_is_finished ai' = (Ok true, ai') ∧
     ∃ node, search_tree ai' !! current_state ai' = Some node ∧
             reachable (state node) ∧ _is_finished node = Ok true).
Proof.
  apply (play_terminates reachable moves_left starting_state 10).
  - apply moves_left_move.
  - apply moves_left_key.
  - constructor.
  - vm_compute. lia.
Defined.

Lemma play_needs_expansion_witness :
  BaseAI_choose_move (BaseAI_expand_search_tree BaseAI_step_search_tree_expansion)
              start_engine
    = (Raise NotImplementedError, start_engine) ∧
  (_is_finished start_node = Ok true →
   BaseAI_play (λ move ai, Some (BaseAI_make_move move ai))
        (BaseAI_expand_search_tree BaseAI_step_search_tree_expansion)
        0 start_engine
     = Some (Ok tt, start_engine)) ∧
  (_is_finished start_node = Ok false →
   BaseAI_play (λ move ai, Some (BaseAI_make_move move ai))
        (BaseAI_expand_search_tree BaseAI_step_search_tree_expansion)
        1 start_engine
     = Some (Raise NotImplementedError, start_engine)).
Proof.
  apply (play_needs_expansion (λ move ai, Some (BaseAI_make_move move ai))
           0 start_engine start_node).
  reflexivity.
Defined.

Lemma start_engine_edges : sound reachable (search_tree start_engine).
Proof.
  intros k n m k' Hk Hm. unfold start_engine in Hk. simpl in Hk.
  apply lookup_singleton_Some in Hk as [<- <-].
  simpl in Hm. by rewrite lookup_empty in Hm.
Qed.

Lemma pruning_drops_previous_node_witness :
  ∃ ai',
    NaivePruning_make_move 100 (BaseAI_make_move (1, 1)) start_engine
      = Some (Ok tt, ai') ∧
    (current_state start_engine ∉ dom (search_tree ai')) ∧
    current_state ai' ∈ dom (search_tree ai') ∧
    (num_states ai' < num_states centre_committed)%nat.
Proof.
  eapply (pruning_drops_previous_node reachable moves_left _ _ (1, 1) 100%nat
            start_engine start_node centre_committed).
  - apply start_engine_sound.
  - apply start_engine_edges.
  - reflexivity.
  - exact commit_centre.
  - vm_compute. lia.
  Unshelve.
  + apply moves_left_move.
  + apply moves_left_key.
Defined.

Lemma play_sweeping_pruning_terminates_witness :
  ∃ ai0 r ai',
    ForwardSweeping_init 5 start_node = Ok ai0 ∧
    BaseAI_play NaivePruning_BaseAI_make_move
      (ForwardSweeping_expand_search_tree 5
         (Bounded_step_search_tree_expansion 0 100 0
            ForwardSweeping_step_search_tree_expansion))
      10 ai0 = Some (r, ai') ∧
    (r = Ok tt →
     PlayerInterface_is_finished ai' = (Ok true, ai') ∧
     ∃ node, search_tree ai' !! current_state ai' = Some node ∧
             reachable (state node) ∧ _is_finished node = Ok true).
Proof.
  eapply (play_sweeping_pruning_terminates reachable moves_left _ _ 0%Q 100 5
            starting_state 10%nat).
  - lia.
  - constructor.
  - vm_compute. lia.
  Unshelve.
  + apply moves_left_move.
  + apply moves_left_key.
Defined.

End ExampleFacts.
